(** * mixxx2rekordbox: a shallow embedding of [mixxx2rekordbox.py]

    The script reads crates or playlists and track metadata from a Mixxx
    SQLite database ([get_collections], [get_track_details]) and builds a
    rekordbox XML tree ([build_xml]); [main] chooses what to read from the
    command line and the configuration.  This file embeds those functions
    together with the Python builtins they call, and proves the properties
    of the specification about them, then further properties of the code.
    [main] is followed from the parsed command line to the tree it hands to
    the serialiser; reading the configuration file, opening the database
    and writing the XML file are left to the machine.

    Conventions.
    - A Python [str] is the [string] of its UTF-8 bytes; comparing two such
      strings bytewise is comparing them by code point, as Python does.
    - A Python [int] is a [Z]; a Python [float] is an IEEE 754 binary64
      number, [spec_float] with [prec = 53] and [emax = 1024].
    - A raised exception is the [Raise] case of [result]; nothing is
      raised silently. *)

From Stdlib Require Import ZArith Zpower Lia String Ascii List SpecFloat.
From stdpp Require Import base gmap sets list strings pretty sorting.

#[local] Set Warnings "-clear-no-such-hyp".

(** ** Exceptions *)

Inductive pyexn :=
  | TypeError
  | ValueError
  | OverflowError
  | ZeroDivisionError
  | Sqlite3Error.

Inductive result (A : Type) :=
  | Ok (a : A)
  | Raise (e : pyexn).
Arguments Ok {A} a.
Arguments Raise {A} e.

Global Instance result_ret : MRet result := λ A, Ok.
Global Instance result_bind : MBind result := λ A B f m,
  match m with
  | Ok a => f a
  | Raise e => Raise e
  end.

Definition is_Ok {A} (r : result A) : Prop := ∃ a, r = Ok a.

(** [for x in l: f x] collecting what each round produces; the first
    exception ends the loop. *)
Fixpoint for_each {A B} (f : A → result B) (l : list A) : result (list B) :=
  match l with
  | [] => Ok []
  | x :: l' => y ← f x; ys ← for_each f l'; Ok (y :: ys)
  end.

(** ** Python floats *)

Module PyFloat.

Definition prec : Z := 53.
Definition emax : Z := 1024.
Abbreviation float := spec_float.

(** The literals of the script. *)
Definition zero : float := S754_zero false.
Definition two : float := S754_finite false 4503599627370496 (-51).
Definition f44100 : float := S754_finite false 6061057848115200 (-37).

(** [float(n)] and the conversion of the [int] operand of [n / 2.0]:
    round to nearest, ties to even; [OverflowError] when out of range. *)
Definition of_int (n : Z) : result float :=
  match binary_normalize prec emax n 0 false with
  | S754_infinity _ => Raise OverflowError
  | x => Ok x
  end.

(** [x / y] on floats. *)
Definition truediv (x y : float) : result float :=
  match y with
  | S754_zero _ => Raise ZeroDivisionError
  | _ => Ok (SFdiv prec emax x y)
  end.

(** [x < y]. *)
Definition lt (x y : float) : bool := SFltb x y.

(** [bool(x)]: every float but the two zeros is true. *)
Definition truthy (x : float) : bool :=
  match x with
  | S754_zero _ => false
  | _ => true
  end.


Definition is_finite (x : float) : bool :=
  match x with
  | S754_zero _ | S754_finite _ _ _ => true
  | _ => false
  end.

(** [num / den] rounded to the nearest integer, ties to the even one
    ([0 <= num], [0 < den]). *)
Definition round_half_even (num den : Z) : Z :=
  let q := (num / den)%Z in
  match (2 * (num mod den) ?= den)%Z with
  | Lt => q
  | Gt => (q + 1)%Z
  | Eq => if Z.even q then q else (q + 1)%Z
  end.

(** [m * 2^e * 10^d] rounded to the nearest integer, ties to even. *)
Definition scaled_round (d : nat) (m : positive) (e : Z) : Z :=
  match e with
  | Zneg p => round_half_even (Zpos m * 10 ^ Z.of_nat d) (2 ^ Zpos p)
  | _ => (Zpos m * 2 ^ e * 10 ^ Z.of_nat d)%Z
  end.

(** [round(x)] with one argument: an [int]. *)
Definition round (x : float) : result Z :=
  match x with
  | S754_nan => Raise ValueError
  | S754_infinity _ => Raise OverflowError
  | S754_zero _ => Ok 0%Z
  | S754_finite s m e =>
      let n := scaled_round 0 m e in Ok (if s then (- n)%Z else n)
  end.

Definition digit_char (n : Z) : ascii := pretty_N_char (Z.to_N n).

(** The last [d] decimal digits of [r]. *)
Fixpoint frac_digits (d : nat) (r : Z) : string :=
  match d with
  | O => ""
  | S d' => frac_digits d' (r / 10) +:+ String (digit_char (r mod 10)) ""
  end.

(** The number [n / 10^d] written with [d] digits after the point. *)
Definition fixed (d : nat) (n : Z) : string :=
  pretty (n / 10 ^ Z.of_nat d)%Z
  +:+ match d with
      | O => ""
      | S _ => "." +:+ frac_digits d (n mod 10 ^ Z.of_nat d)
      end.

Definition sign_str (s : bool) : string := if s then "-" else "".

(** [format(x, '.<d>f')]. *)
Definition format_f (d : nat) (x : float) : string :=
  match x with
  | S754_nan => "nan"
  | S754_infinity s => sign_str s +:+ "inf"
  | S754_zero s => sign_str s +:+ fixed d 0
  | S754_finite s m e => sign_str s +:+ fixed d (scaled_round d m e)
  end.

End PyFloat.

Abbreviation float := spec_float.

(** ** [urllib.parse.quote] with its default [safe='/'] *)

Definition always_safe (c : ascii) : bool :=
  let n := N_of_ascii c in
  ((65 <=? n) && (n <=? 90) || (97 <=? n) && (n <=? 122)
   || (48 <=? n) && (n <=? 57))%N
  || bool_decide (c = "_"%char) || bool_decide (c = "."%char)
  || bool_decide (c = "-"%char) || bool_decide (c = "~"%char).

Definition hex_char (n : N) : ascii :=
  if (n <? 10)%N then ascii_of_N (48 + n) else ascii_of_N (55 + n).

Definition quote_byte (c : ascii) : string :=
  if always_safe c || bool_decide (c = "/"%char) then String c ""
  else let n := N_of_ascii c in
       String "%"
         (String (hex_char (n / 16)) (String (hex_char (n mod 16)) "")).

Fixpoint quote (s : string) : string :=
  match s with
  | "" => ""
  | String c s' => quote_byte c +:+ quote s'
  end.

(** ** [sorted(l, key=..., reverse=...)]

    [list.sort] is stable and compares keys with [<] only.  Where [<] is a
    strict weak order on the keys met (every key type of this script, NaN
    floats apart) all stable sorts agree, and the insertion sort below is
    the one modelled.  With [reverse=True] CPython reverses the list, sorts,
    and reverses again, which keeps equal keys in their original order.

    Among keys with a NaN, [<] is no such order and the result depends on
    the algorithm.  CPython first looks for a run: it walks the list while
    no key is below the one before it, and a list that is one such run is
    left as it is.  The insertion sort leaves such a list as it is, too;
    on other lists with a NaN key the two may differ, and nothing is
    stated about them. *)

Section sorted.
Context {A K : Type} (lt : K → K → bool) (key : A → K).

Fixpoint insert_by (x : A) (l : list A) : list A :=
  match l with
  | [] => [x]
  | y :: l' =>
      if lt (key y) (key x) then y :: insert_by x l' else x :: y :: l'
  end.

Fixpoint sort_by (l : list A) : list A :=
  match l with
  | [] => []
  | x :: l' => insert_by x (sort_by l')
  end.

Definition sorted (reverse : bool) (l : list A) : list A :=
  if reverse then list.reverse (sort_by (list.reverse l))
  else sort_by l.

End sorted.

(** ** Dictionaries of rows

    A row of the metadata query as [dict(row)] holds it: under each
    selected column the value has the Python type [sqlite3] gives for the
    column (text: [str], integer: [int], real: [float]) or is [None] for
    NULL.  [build_xml] reads the row with [dict.get], which also answers
    for a key that is absent, so a field is a [cell]. *)

Inductive cell (A : Type) :=
  | Missing
  | Null
  | Val (a : A).
Arguments Missing {A}.
Arguments Null {A}.
Arguments Val {A} a.

Definition cell_map {A B} (f : A → B) (c : cell A) : cell B :=
  match c with
  | Missing => Missing
  | Null => Null
  | Val a => Val (f a)
  end.

(** [data.get(key)]: [None] is Python's [None]. *)
Definition get {A} (c : cell A) : option A :=
  match c with
  | Val a => Some a
  | Missing | Null => None
  end.

(** [data.get(key, d)]: the default stands in for an absent key only. *)
Definition get_default {A} (c : cell A) (d : A) : option A :=
  match c with
  | Missing => Some d
  | Null => None
  | Val a => Some a
  end.

(** [x or d]. *)
Definition or_else {A B} (truthy : A → bool) (x : option A) (d : B) : A + B :=
  match x with
  | Some a => if truthy a then inl a else inr d
  | None => inr d
  end.

Definition or_ {A} (truthy : A → bool) (x : option A) (d : A) : A :=
  match or_else truthy x d with
  | inl a => a
  | inr d => d
  end.

Definition int_truthy (n : Z) : bool := negb (n =? 0)%Z.

Definition str_truthy (s : string) : bool :=
  match s with
  | "" => false
  | _ => true
  end.

(** [str(v)] for an [int] or a [str]. *)
Definition str (v : Z + string) : string :=
  match v with
  | inl n => pretty n
  | inr s => s
  end.

(** An [int] or a [float]. *)
Inductive number :=
  | Int (n : Z)
  | Float (x : float).

Definition number_truthy (v : number) : bool :=
  match v with
  | Int n => int_truthy n
  | Float x => PyFloat.truthy x
  end.

(** [float(v)]. *)
Definition float_of (v : number) : result float :=
  match v with
  | Int n => PyFloat.of_int n
  | Float x => Ok x
  end.

(** [f"{v:.<d>f}"]: [None] has no such format. *)
Definition format_value (d : nat) (v : option float) : result string :=
  match v with
  | Some x => Ok (PyFloat.format_f d x)
  | None => Raise TypeError
  end.

(** [quote(v)]. *)
Definition quote_value (v : option string) : result string :=
  match v with
  | Some s => Ok (quote s)
  | None => Raise TypeError
  end.

(** [sorted(v)] for a list of [int]s. *)
Definition sorted_value (v : option (list Z)) : result (list Z) :=
  match v with
  | Some l => Ok (sorted Z.ltb (λ p, p) false l)
  | None => Raise TypeError
  end.

Record track := {
  title : cell string;
  artist : cell string;
  album : cell string;
  grouping : cell string;
  genre : cell string;
  comment : cell string;
  location : cell string;
  year : cell Z;
  tracknumber : cell Z;
  filesize : cell Z;
  bitrate : cell Z;
  samplerate : cell Z;
  duration : cell float;
  bpm : cell float;
  cues : cell (list Z)
}.

(** The empty dictionary [{}]. *)
Definition empty_dict : track :=
  {| title := Missing; artist := Missing; album := Missing;
     grouping := Missing; genre := Missing; comment := Missing;
     location := Missing; year := Missing; tracknumber := Missing;
     filesize := Missing; bitrate := Missing; samplerate := Missing;
     duration := Missing; bpm := Missing; cues := Missing |}.

(** ** Lists held by reference

    A collection's ['tracks'] is a list object that [build_xml] reads
    through a reference; the store maps references to the lists they
    hold.  Reading a reference the store does not hold gives the empty
    list (no Python value is such a reference). *)

Abbreviation loc := positive.
Abbreviation heap := (gmap loc (list Z)).

Definition read_list (r : loc) (h : heap) : list Z := h !!! r.

Definition new_list (l : list Z) (h : heap) : loc * heap :=
  let r := fresh (dom h) in (r, <[r := l]> h).

(** A value of the [collections] dictionary: [{'id': ..., 'tracks': ...}].
    [get_collections] builds it around the list itself; [build_xml] is
    handed it and reaches the list through a reference. *)
Record collection_of (T : Type) := {
  coll_id : Z;
  tracks : T
}.
Arguments coll_id {T} c.
Arguments tracks {T} c.

Abbreviation collection := (collection_of loc).

(** ** Element trees *)

#[local] Unset Elimination Schemes.
Inductive element :=
  | Element (tag : string) (attrib : list (string * string))
            (children : list element).
#[local] Set Elimination Schemes.

Definition tag_of (e : element) : string :=
  match e with Element t _ _ => t end.
Definition attrib_of (e : element) : list (string * string) :=
  match e with Element _ a _ => a end.
Definition children_of (e : element) : list element :=
  match e with Element _ _ c => c end.

(** [e.get(name)]. *)
Fixpoint assoc (name : string) (a : list (string * string)) : option string :=
  match a with
  | [] => None
  | (k, v) :: a' => if bool_decide (k = name) then Some v else assoc name a'
  end.
Definition attr (name : string) (e : element) : option string :=
  assoc name (attrib_of e).

(** ** [build_xml] *)

(** One [POSITION_MARK] of a track. *)
Definition position_mark (samplerate : float) (cue_pos : Z) : result element :=
  x ← PyFloat.of_int cue_pos;
  half ← PyFloat.truediv x PyFloat.two;
  pos ← PyFloat.truediv half samplerate;
  Ok (Element "POSITION_MARK"
        [("Name", ""); ("Type", "0"); ("Start", PyFloat.format_f 3 pos);
         ("Num", "-1")] []).

(** The dictionary [track_attribs], given the three entries that may
    raise. *)
Definition track_attribs (track_id : Z) (data : track)
    (location_url total_time average_bpm : string)
    : list (string * string) :=
  [("TrackID", pretty track_id);
   ("Name", or_ str_truthy (get (title data)) "");
   ("Artist", or_ str_truthy (get (artist data)) "");
   ("Album", or_ str_truthy (get (album data)) "");
   ("Grouping", or_ str_truthy (get (grouping data)) "");
   ("Genre", or_ str_truthy (get (genre data)) "");
   ("Year", str (or_else int_truthy (get (year data)) ""));
   ("TrackNumber", str (or_else int_truthy (get (tracknumber data)) ""));
   ("Comments", or_ str_truthy (get (comment data)) "");
   ("Location", location_url);
   ("Kind", "MP3 File");
   ("Size", str (or_else int_truthy (get (filesize data)) "0"));
   ("TotalTime", total_time);
   ("AverageBpm", average_bpm);
   ("BitRate", str (or_else int_truthy (get (bitrate data)) "0"));
   ("SampleRate", str (or_else int_truthy (get (samplerate data)) "0"))].

(** [float(data.get('samplerate', 44100.0) or 44100.0)]. *)
Definition samplerate_of (data : track) : result float :=
  float_of
    (or_ number_truthy
       (get_default (cell_map Int (samplerate data)) (Float PyFloat.f44100))
       (Float PyFloat.f44100)).

(** The body of the loop over [sorted(track_details.items())]: the
    location, the attributes in the order the dictionary lists them, the
    sample rate, the cue marks. *)
Definition track_element (item : Z * track) : result element :=
  let '(track_id, data) := item in
  location ← quote_value (get_default (location data) "");
  let location_url := "file://localhost" +:+ location in
  total_time ← PyFloat.round
                 (or_ PyFloat.truthy (get (duration data)) PyFloat.zero);
  average_bpm ← format_value 2 (get_default (bpm data) PyFloat.zero);
  samplerate ← samplerate_of data;
  cue_list ← sorted_value (get_default (cues data) []);
  marks ← for_each (position_mark samplerate) cue_list;
  Ok (Element "TRACK"
        (track_attribs track_id data location_url (pretty total_time)
           average_bpm)
        marks).

(** [sort_order] is [None] or a string; it is true when it is a string
    that is not empty. *)
Definition sort_requested (sort_order : option string) : bool :=
  match sort_order with
  | Some s => str_truthy s
  | None => false
  end.

(** The sort key
    [lambda tid: track_details.get(tid, {}).get('bpm', 0.0) or 0.0]. *)
Definition bpm_key (track_details : gmap Z track) (tid : Z) : float :=
  or_ PyFloat.truthy
    (get_default (bpm (default empty_dict (track_details !! tid)))
       PyFloat.zero)
    PyFloat.zero.

(** [ET.SubElement(playlist_node, "TRACK", Key=str(tid))]. *)
Definition track_ref (tid : Z) : element :=
  Element "TRACK" [("Key", pretty tid)] [].

(** The body of the loop over [sorted(collections.items())].  [track_list]
    is a reference: first the collection's own list, then, when the sort
    applies, the new list that [sorted] returns. *)
Definition playlist_node (track_details : gmap Z track)
    (is_playlist_mode : bool) (sort_order : option string)
    (item : string * collection) (h : heap) : element * heap :=
  let '(name, data) := item in
  let entries := pretty (length (read_list (tracks data) h)) in
  let track_list := tracks data in
  let '(track_list, h) :=
    if negb is_playlist_mode && sort_requested sort_order
    then new_list
           (sorted PyFloat.lt (bpm_key track_details)
              (bool_decide (sort_order = Some "desc"))
              (read_list track_list h)) h
    else (track_list, h) in
  (Element "NODE"
     [("Name", name); ("Type", "1"); ("KeyType", "0"); ("Entries", entries)]
     (map track_ref (read_list track_list h)),
   h).

Fixpoint playlist_nodes (track_details : gmap Z track)
    (is_playlist_mode : bool) (sort_order : option string)
    (items : list (string * collection)) (h : heap)
    : list element * heap :=
  match items with
  | [] => ([], h)
  | item :: items' =>
      let '(node, h) :=
        playlist_node track_details is_playlist_mode sort_order item h in
      let '(nodes, h) :=
        playlist_nodes track_details is_playlist_mode sort_order items' h in
      (node :: nodes, h)
  end.

(** The items of a dictionary sorted as tuples.  Keys are distinct, so two
    items always differ in their keys and are ordered by them. *)
Definition sorted_items_Z {V} (m : gmap Z V) : list (Z * V) :=
  sorted Z.ltb fst false (map_to_list m).
Definition sorted_items_str {V} (m : gmap string V) : list (string * V) :=
  sorted String.ltb fst false (map_to_list m).

Definition build_xml (track_details : gmap Z track)
    (collections : gmap string collection)
    (is_playlist_mode : bool) (sort_order : option string)
    (h : heap) : result element * heap :=
  let product :=
    Element "PRODUCT"
      [("Name", "rekordbox"); ("Version", "6.8.6"); ("Company", "AlphaTheta")]
      [] in
  match for_each track_element (sorted_items_Z track_details) with
  | Raise e => (Raise e, h)
  | Ok track_nodes =>
      let collection_node :=
        Element "COLLECTION" [("Entries", pretty (size track_details))]
          track_nodes in
      let '(nodes, h) :=
        playlist_nodes track_details is_playlist_mode sort_order
          (sorted_items_str collections) h in
      let root_node :=
        Element "NODE"
          [("Type", "0"); ("Name", "ROOT");
           ("Count", pretty (size collections))] nodes in
      (Ok (Element "DJ_PLAYLISTS" [("Version", "1.0.0")]
             [product; collection_node;
              Element "PLAYLISTS" [] [root_node]]),
       h)
  end.

(** ** The database

    The connection is known by what its queries answer: the rows of a
    query, or nothing when [execute] or [fetchall] raises [sqlite3.Error].
    The queries issued are logged in the order they are issued.

    Two cases are left out.  SQLite binds integers of 64 bits: for a
    larger id [execute] raises [OverflowError] before the query is issued,
    and no answer of the connection stands for that.  The names of crates
    and playlists are strings: a NULL name, which [sorted] cannot compare
    with a string, has no row here.  What is stated of a query that
    answers, or that fails, is stated of ids that SQLite binds and of rows
    whose names are strings. *)

Inductive mode :=
  | crates
  | playlists.

Inductive query :=
  | SelectNames (m : mode)
  | SelectTracks (m : mode) (item_ids : list Z)
  | SelectLibrary (track_ids : list Z)
  | SelectCues (track_ids : list Z).

(** A row of the metadata query; [None] is NULL. *)
Record library_row := {
  row_id : Z;
  row_artist : option string;
  row_title : option string;
  row_album : option string;
  row_year : option Z;
  row_genre : option string;
  row_grouping : option string;
  row_tracknumber : option Z;
  row_comment : option string;
  row_samplerate : option Z;
  row_bitrate : option Z;
  row_bpm : option float;
  row_duration : option float;
  row_location : option string;
  row_filesize : option Z
}.

Record connection := {
  (** [SELECT id, name FROM <main_table>]: rows [(id, name)]. *)
  names_rows : mode → option (list (Z * string));
  (** [SELECT <fk_id>, track_id FROM <link_table> WHERE <fk_id> IN (...)]:
      rows [(fk, track_id)]. *)
  tracks_rows : mode → list Z → option (list (Z * Z));
  (** The metadata query. *)
  library_rows : list Z → option (list library_row);
  (** [SELECT track_id, position FROM cues WHERE ...]: rows
      [(track_id, position)]. *)
  cues_rows : list Z → option (list (Z * Z))
}.

(** A computation that queries the database. *)
Definition db (A : Type) : Type := list query → result A * list query.

Global Instance db_ret : MRet db := λ A a log, (Ok a, log).
Global Instance db_bind : MBind db := λ A B f m log,
  match m log with
  | (Ok a, log') => f a log'
  | (Raise e, log') => (Raise e, log')
  end.

(** [cursor.execute(q)] and [cursor.fetchall()]. *)
Definition execute {A} (q : query) (rows : option A) : db A := λ log,
  (match rows with
   | Some r => Ok r
   | None => Raise Sqlite3Error
   end, log ++ [q]).

(** [try: ... except sqlite3.Error: ...]: [None] when the handler ran. *)
Definition try_sqlite {A} (m : db A) : db (option A) := λ log,
  match m log with
  | (Ok a, log') => (Ok (Some a), log')
  | (Raise Sqlite3Error, log') => (Ok None, log')
  | (Raise e, log') => (Raise e, log')
  end.

(** ** Dictionaries in insertion order *)

Module odict.
Section odict.
Context {K V : Type} `{EqDecision K}.

(** [d[k] = v]: in place when [k] is a key, at the end otherwise. *)
Fixpoint set (k : K) (v : V) (d : list (K * V)) : list (K * V) :=
  match d with
  | [] => [(k, v)]
  | (k', v') :: d' =>
      if decide (k' = k) then (k, v) :: d' else (k', v') :: set k v d'
  end.

(** [d.get(k)]. *)
Fixpoint get (k : K) (d : list (K * V)) : option V :=
  match d with
  | [] => None
  | (k', v') :: d' => if decide (k' = k) then Some v' else get k d'
  end.

(** Apply [f] to the value under [k]. *)
Fixpoint alter (f : V → V) (k : K) (d : list (K * V)) : list (K * V) :=
  match d with
  | [] => []
  | (k', v') :: d' =>
      if decide (k' = k) then (k', f v') :: d' else (k', v') :: alter f k d'
  end.

Definition keys (d : list (K * V)) : list K := d.*1.
Definition values (d : list (K * V)) : list V := d.*2.

End odict.
End odict.

(** ** [get_track_details] *)

Definition of_sql {A} (v : option A) : cell A :=
  match v with
  | Some a => Val a
  | None => Null
  end.

(** [dict(row)], then [['cues'] = []]. *)
Definition dict_of_row (row : library_row) : track :=
  {| title := of_sql (row_title row); artist := of_sql (row_artist row);
     album := of_sql (row_album row); grouping := of_sql (row_grouping row);
     genre := of_sql (row_genre row); comment := of_sql (row_comment row);
     location := of_sql (row_location row); year := of_sql (row_year row);
     tracknumber := of_sql (row_tracknumber row);
     filesize := of_sql (row_filesize row);
     bitrate := of_sql (row_bitrate row);
     samplerate := of_sql (row_samplerate row);
     duration := of_sql (row_duration row); bpm := of_sql (row_bpm row);
     cues := Val [] |}.

Definition add_row (track_details : gmap Z track) (row : library_row)
    : gmap Z track :=
  <[row_id row := dict_of_row row]> track_details.

(** [l.append(p)] on the cues of a row. *)
Definition append_cue (p : Z) (data : track) : track :=
  {| title := title data; artist := artist data; album := album data;
     grouping := grouping data; genre := genre data;
     comment := comment data; location := location data;
     year := year data; tracknumber := tracknumber data;
     filesize := filesize data; bitrate := bitrate data;
     samplerate := samplerate data; duration := duration data;
     bpm := bpm data;
     cues := cell_map (λ l, l ++ [p]) (cues data) |}.

(** [if tid in track_details: track_details[tid]['cues'].append(...)]. *)
Definition add_cue (track_details : gmap Z track) (row : Z * Z)
    : gmap Z track :=
  let '(tid, position) := row in
  alter (append_cue position) tid track_details.

Definition get_track_details (conn : connection) (track_ids : gset Z)
    : db (gmap Z track) :=
  if decide (track_ids = ∅) then mret ∅
  else
    let ids := elements track_ids in
    let track_details : gmap Z track := ∅ in
    rows ← try_sqlite (execute (SelectLibrary ids) (library_rows conn ids));
    match rows with
    | None => mret track_details
    | Some rows =>
        let track_details := foldl add_row track_details rows in
        cue_rows ← try_sqlite (execute (SelectCues ids) (cues_rows conn ids));
        match cue_rows with
        | None => mret track_details
        | Some cue_rows => mret (foldl add_cue track_details cue_rows)
        end
    end.

(** ** [get_collections] *)

(** The dictionary [all_db_items] built from the rows of the names query. *)
Definition all_db_items (rows : list (Z * string)) : list (string * Z) :=
  foldl (λ d row, odict.set row.2 row.1 d) [] rows.

(** [include_names] and [exclude_names] are [None] or a list of names; a
    list is true when it is not empty. *)
Definition names_given (names : option (list string)) : bool :=
  match names with
  | Some (_ :: _) => true
  | _ => false
  end.

(** The names kept, in order. *)
Definition final_names (all_db_items : list (string * Z))
    (include_names exclude_names : option (list string)) : list string :=
  match include_names with
  | Some names =>
      filter (λ n, is_Some (odict.get n all_db_items)) names
  | None =>
      if names_given exclude_names
      then filter (λ name, name ∉ default [] exclude_names)
             (odict.keys all_db_items)
      else odict.keys all_db_items
  end.

(** The loop over the membership rows. *)
Definition add_member (id_to_name : list (Z * string))
    (acc : list (string * collection_of (list Z)) * gset Z) (row : Z * Z)
    : list (string * collection_of (list Z)) * gset Z :=
  let '(collection_data, all_track_ids) := acc in
  let '(fk, track_id) := row in
  match odict.get fk id_to_name with
  | Some name =>
      if str_truthy name
      then (odict.alter
              (λ c, {| coll_id := coll_id c;
                       tracks := tracks c ++ [track_id] |})
              name collection_data,
            {[track_id]} ∪ all_track_ids)
      else acc
  | None => acc
  end.

Definition get_collections (conn : connection)
    (include_names exclude_names : option (list string)) (m : mode)
    : db (list (string * collection_of (list Z)) * gset Z) :=
  rows ← try_sqlite (execute (SelectNames m) (names_rows conn m));
  match rows with
  | None => mret ([], ∅)
  | Some rows =>
      let all_db_items := all_db_items rows in
      let final_names := final_names all_db_items include_names
                           exclude_names in
      match final_names with
      | [] => mret ([], ∅)
      | _ :: _ =>
          let collection_data : list (string * collection_of (list Z)) :=
            foldl (λ d name,
                     odict.set name
                       {| coll_id := default 0%Z (odict.get name all_db_items);
                          tracks := [] |} d)
              [] final_names in
          let item_ids := coll_id <$> odict.values collection_data in
          rows ← try_sqlite
                   (execute (SelectTracks m item_ids)
                      (tracks_rows conn m item_ids));
          match rows with
          | None => mret (collection_data, ∅)
          | Some rows =>
              let id_to_name : list (Z * string) :=
                foldl (λ d item, odict.set (coll_id item.2) item.1 d) []
                  collection_data in
              mret (foldl (add_member id_to_name) (collection_data, ∅) rows)
          end
      end
  end.

(** ** [str.split(',')] and [str.strip()] *)

(** [s.split(sep)] for a separator of one character: the pieces between the
    separators, at least one. *)
Fixpoint str_split (sep : ascii) (s : string) : list string :=
  match s with
  | "" => [""]
  | String c s' =>
      if bool_decide (c = sep) then "" :: str_split sep s'
      else match str_split sep s' with
           | piece :: pieces => String c piece :: pieces
           | [] => [String c ""]
           end
  end.

(** The white space of [str.strip()], as UTF-8: the characters U+0009 to
    U+000D, U+001C to U+0020, U+0085, U+00A0, U+1680, U+2000 to U+200A,
    U+2028, U+2029, U+202F, U+205F and U+3000. *)
Definition space1 (c : ascii) : bool :=
  let n := N_of_ascii c in
  ((9 <=? n) && (n <=? 13) || (28 <=? n) && (n <=? 32))%N.

Definition space2 (c1 c2 : ascii) : bool :=
  let n1 := N_of_ascii c1 in
  let n2 := N_of_ascii c2 in
  ((n1 =? 194) && ((n2 =? 133) || (n2 =? 160)))%N.

Definition space3 (c1 c2 c3 : ascii) : bool :=
  let n1 := N_of_ascii c1 in
  let n2 := N_of_ascii c2 in
  let n3 := N_of_ascii c3 in
  ((n1 =? 225) && (n2 =? 154) && (n3 =? 128)
   || (n1 =? 226) && (n2 =? 128)
      && ((128 <=? n3) && (n3 <=? 138) || (n3 =? 168) || (n3 =? 169)
          || (n3 =? 175))
   || (n1 =? 226) && (n2 =? 129) && (n3 =? 159)
   || (n1 =? 227) && (n2 =? 128) && (n3 =? 128))%N.

(** Drop the leading characters that [sp1], [sp2] and [sp3] recognise, of
    one, two and three bytes. *)
Fixpoint lstrip_with (sp1 : ascii → bool) (sp2 : ascii → ascii → bool)
    (sp3 : ascii → ascii → ascii → bool) (s : string) : string :=
  match s with
  | "" => ""
  | String c1 s1 =>
      if sp1 c1 then lstrip_with sp1 sp2 sp3 s1
      else
        match s1 with
        | "" => s
        | String c2 s2 =>
            if sp2 c1 c2 then lstrip_with sp1 sp2 sp3 s2
            else
              match s2 with
              | "" => s
              | String c3 s3 =>
                  if sp3 c1 c2 c3 then lstrip_with sp1 sp2 sp3 s3 else s
              end
        end
  end.

(** [s.strip()]: the white space is dropped at the start, then at the end,
    where the bytes of a character are met last byte first. *)
Definition str_strip (s : string) : string :=
  String.rev
    (lstrip_with space1 (λ c2 c1, space2 c1 c2)
       (λ c3 c2 c1, space3 c1 c2 c3)
       (String.rev (lstrip_with space1 space2 space3 s))).

(** ** [main] *)

(** The namespace that [parser.parse_args()] returns. *)
Module Args.
Record args := {
  mixxx_db_path : option string;
  output : string;
  playlists : option (list string);
  exclude_crates : list string;
  list_crates : bool;
  list_playlists : bool;
  sort_by_bpm : option string
}.
End Args.
Abbreviation args := Args.args.

(** What a command line that [argparse] accepts gives for each argument:
    nothing when the argument is absent.  [-p] may come with no name, [-e]
    comes with one name or more, [--sort-by-bpm] with ['asc'] or ['desc']. *)
Record command_line := {
  given_mixxx_db_path : option string;
  given_output : option string;
  given_playlists : option (list string);
  given_exclude_crates : option (list string);
  given_list_crates : bool;
  given_list_playlists : bool;
  given_sort_by_bpm : option string
}.

(** The arguments with the defaults that [main] declares for them;
    [config] is the dictionary of [load_config()]. *)
Definition parse_args (config : gmap string string) (argv : command_line)
    : args :=
  {| Args.mixxx_db_path :=
       match given_mixxx_db_path argv with
       | Some p => Some p
       | None => config !! "db_path"
       end;
     Args.output :=
       default (default "rekordbox.xml" (config !! "output_path"))
         (given_output argv);
     Args.playlists := given_playlists argv;
     Args.exclude_crates :=
       default
         (if str_truthy (default "" (config !! "exclude_crates"))
          then str_split "," (default "" (config !! "exclude_crates"))
          else [])
         (given_exclude_crates argv);
     Args.list_crates := given_list_crates argv;
     Args.list_playlists := given_list_playlists argv;
     Args.sort_by_bpm :=
       match given_sort_by_bpm argv with
       | Some s => Some s
       | None => config !! "sort_by_bpm"
       end |}.

(** How a run of [main] ends: [sys.exit(code)], the [return] after "No
    tracks found.", an exception that nothing catches, or the tree that
    [build_xml] returned, which [main] goes on to serialise and to write at
    [args.output]. *)
Inductive status :=
  | Exit (code : Z)
  | Return
  | Uncaught (e : pyexn)
  | Export (output : string) (xml_tree : element).

(** A run of [main]: the lines printed on the standard output, the queries
    issued, and how the run ends.  What goes to the standard error is left
    out. *)
Record outcome := {
  stdout : list string;
  queries : list query;
  status_of : status
}.

(** The branches [--list-crates] and [--list-playlists]. *)
Definition list_names (conn : connection) (m : mode) (header : string)
    : outcome :=
  match get_collections conn None None m [] with
  | (Ok (items, _), log) =>
      {| stdout :=
           header
           :: ((λ n, " - " +:+ n)
                 <$> sorted String.ltb (λ n : string, n) false
                       (odict.keys items));
         queries := log;
         status_of := Exit 0 |}
  | (Raise e, log) =>
      {| stdout := []; queries := log; status_of := Uncaught e |}
  end.

(** The names of [default_playlists]. *)
Definition default_playlists (config : gmap string string) : list string :=
  str_strip
    <$> filter (λ p, str_truthy (str_strip p) = true)
          (str_split "," (default "" (config !! "default_playlists"))).

(** The dictionary [collections] as [build_xml] is handed it: the list of
    each entry is an object of the store. *)
Definition store_collection (acc : gmap string collection * heap)
    (item : string * collection_of (list Z))
    : gmap string collection * heap :=
  let '(r, h) := new_list (tracks item.2) acc.2 in
  (<[item.1 := {| coll_id := coll_id item.2; tracks := r |}]> acc.1, h).

Definition store_collections
    (collection_data : list (string * collection_of (list Z)))
    : gmap string collection * heap :=
  foldl store_collection (∅, ∅) collection_data.

(** [main] from [if not track_ids:] on, after the call of [get_collections]
    that the mode chose. *)
Definition export (conn : connection) (args : args)
    (is_playlist_mode : bool)
    (found : db (list (string * collection_of (list Z)) * gset Z))
    : outcome :=
  match found [] with
  | (Raise e, log) =>
      {| stdout := []; queries := log; status_of := Uncaught e |}
  | (Ok (collections, track_ids), log) =>
      if decide (track_ids = ∅)
      then {| stdout := ["No tracks found."]; queries := log;
              status_of := Return |}
      else
        match get_track_details conn track_ids log with
        | (Raise e, log) =>
            {| stdout := []; queries := log; status_of := Uncaught e |}
        | (Ok track_details, log) =>
            let '(collections, h) := store_collections collections in
            match (build_xml track_details collections is_playlist_mode
                     (Args.sort_by_bpm args) h).1 with
            | Raise e =>
                {| stdout := []; queries := log; status_of := Uncaught e |}
            | Ok xml_tree =>
                {| stdout := []; queries := log;
                   status_of := Export (Args.output args) xml_tree |}
            end
        end
  end.

(** [main], given the dictionary of [load_config()], the command line, and
    what [os.path.expanduser] and [get_db_connection] make of a path: a
    connection, or nothing when [sqlite3.connect] fails. *)
Definition main (connect : string → option connection)
    (config : gmap string string) (argv : command_line) : outcome :=
  let args := parse_args config argv in
  let failed :=
    {| stdout := []; queries := []; status_of := Exit 1 |} in
  match Args.mixxx_db_path args with
  | None => failed
  | Some db_path =>
      if negb (str_truthy db_path) then failed
      else
        match connect db_path with
        | None => failed
        | Some conn =>
            if Args.list_crates args
            then list_names conn crates "Available Crates:"
            else if Args.list_playlists args
            then list_names conn playlists "Available Playlists:"
            else
              match Args.playlists args with
              | Some names =>
                  let target_names :=
                    match names with
                    | [] => default_playlists config
                    | _ :: _ => names
                    end in
                  match target_names with
                  | [] =>
                      {| stdout :=
                           ["Error: No playlists specified via CLI or config."];
                         queries := [];
                         status_of := Exit 1 |}
                  | _ :: _ =>
                      export conn args true
                        (get_collections conn (Some target_names) None
                           playlists)
                  end
              | None =>
                  export conn args false
                    (get_collections conn None
                       (Some (Args.exclude_crates args)) crates)
              end
        end
  end.

(** * The vocabulary of the properties *)

(** ** Order *)

Section order.
Context {A K : Type} (lt : K → K → bool) (key : A → K).

(** [a] is not after [b]. *)
Definition not_after (a b : A) : Prop := lt (key b) (key a) = false.


End order.

(** ** Formatted numbers *)

Definition is_digit (c : ascii) : bool :=
  let n := N_of_ascii c in (48 <=? n)%N && (n <=? 57)%N.

Fixpoint all_digits (s : string) : bool :=
  match s with
  | "" => true
  | String c s' => is_digit c && all_digits s'
  end.

(** [s] is an optional minus sign, one digit or more, a point, and exactly
    [d] digits. *)
Definition fixed_point (d : nat) (s : string) : Prop :=
  ∃ (sign : bool) (ip fr : string),
    s = PyFloat.sign_str sign +:+ ip +:+ "." +:+ fr
    ∧ ip ≠ "" ∧ all_digits ip = true
    ∧ all_digits fr = true ∧ String.length fr = d.

(** ** Magnitudes of floats *)

(** A float that is zero, or finite, in range and at most [2^1023]. *)
Definition small (x : spec_float) : Prop :=
  match x with
  | S754_zero _ => True
  | S754_finite _ m e => (e ≤ 971 ∧ Z.pos m ≤ 2 ^ (1023 - e))%Z
  | _ => False
  end.

(** A float that is at least 1 in magnitude. *)
Definition at_least_one (x : float) : Prop :=
  match x with
  | S754_finite _ m e => (2 ^ (- e) ≤ Z.pos m)%Z
  | _ => False
  end.


(** ** Documents *)

(** [e.find(tag)]: the first child with that tag. *)
Definition find (tag : string) (e : element) : option element :=
  head (filter (λ c, tag_of c = tag) (children_of e)).

(** The order in which a [NODE] lists the stored list [l]. *)
Definition node_order (track_details : gmap Z track)
    (is_playlist_mode : bool) (sort_order : option string)
    (l : list Z) : list Z :=
  if negb is_playlist_mode && sort_requested sort_order
  then sorted PyFloat.lt (bpm_key track_details)
         (bool_decide (sort_order = Some "desc")) l
  else l.

(** The [NODE] of the collection [name] whose stored list is [l]. *)
Definition node_of (track_details : gmap Z track)
    (is_playlist_mode : bool) (sort_order : option string)
    (name : string) (l : list Z) : element :=
  Element "NODE"
    [("Name", name); ("Type", "1"); ("KeyType", "0");
     ("Entries", pretty (length l))]
    (track_ref <$> node_order track_details is_playlist_mode sort_order l).

(** Every reference of [collections] is held by the store. *)
Definition heap_ok (collections : gmap string collection) (h : heap) : Prop :=
  map_Forall (λ _ data, is_Some (h !! tracks data)) collections.

Definition product : element :=
  Element "PRODUCT"
    [("Name", "rekordbox"); ("Version", "6.8.6"); ("Company", "AlphaTheta")]
    [].

(** The document built from the [TRACK] nodes and the playlist [NODE]s. *)
Definition document (n_tracks n_collections : nat)
    (track_nodes nodes : list element) : element :=
  Element "DJ_PLAYLISTS" [("Version", "1.0.0")]
    [product;
     Element "COLLECTION" [("Entries", pretty n_tracks)] track_nodes;
     Element "PLAYLISTS" []
       [Element "NODE"
          [("Type", "0"); ("Name", "ROOT"); ("Count", pretty n_collections)]
          nodes]].

(** ** Sorting by bpm *)

(** No track of the mapping has a NaN for its bpm. *)
Definition no_nan_bpm (td : gmap Z track) : Prop :=
  map_Forall (λ _ data, bpm data ≠ Val S754_nan) td.

Global Instance float_eq_dec : EqDecision float.
Proof. solve_decision. Defined.
Global Instance cell_eq_dec `{EqDecision A} : EqDecision (cell A).
Proof. solve_decision. Defined.
Global Instance no_nan_bpm_dec td : Decision (no_nan_bpm td).
Proof. unfold no_nan_bpm. apply _. Defined.
Global Instance heap_ok_dec cols (h : heap) : Decision (heap_ok cols h).
Proof. unfold heap_ok. apply _. Defined.

(** The bpm that a track id is sorted by: the bpm of its row, and 0 for an
    id without a row and for a row whose bpm is absent or None. *)
Definition bpm_of (td : gmap Z track) (tid : Z) : float :=
  match td !! tid with
  | Some data =>
      match bpm data with
      | Val x => x
      | Missing | Null => S754_zero false
      end
  | None => S754_zero false
  end.




(** ** Fields and cues *)

(** An integer field that is false: absent, None or 0. *)
Definition falsy (c : cell Z) : Prop :=
  c = Missing ∨ c = Null ∨ c = Val 0%Z.

(** The cue positions a row holds. *)
Definition stored_cues (data : track) : list Z := default [] (get (cues data)).

(** The float [(-1)^s * m * 2^e] as a fraction of integers. *)
Definition numerator (s : bool) (m : positive) (e : Z) : Z :=
  (if s then -1 else 1) * Z.pos m * 2 ^ Z.max 0 e.
Definition denominator (e : Z) : Z := 2 ^ Z.max 0 (- e).

(** The binary64 float nearest to the integer [n], ties to even. *)
Definition to_binary64 (n : Z) : float := binary_normalize 53 1024 n 0 false.

(** The sample rate of a track: its own, or 44100 when that is absent, None
    or 0. *)
Definition sample_rate (data : track) : Z :=
  match samplerate data with
  | Val n => if bool_decide (n = 0%Z) then 44100%Z else n
  | Missing | Null => 44100%Z
  end.

(** [(p / 2.0) / rate] in binary64 arithmetic. *)
Definition seconds (p rate : Z) : float :=
  SFdiv 53 1024 (SFdiv 53 1024 (to_binary64 p) (to_binary64 2))
    (to_binary64 rate).

(** [n] is the magnitude of [x] in thousandths, rounded to the nearest
    integer and to the even one of the two when [x] is half way. *)
Definition thousandths (x : float) (n : Z) : Prop :=
  match x with
  | S754_zero _ => n = 0%Z
  | S754_finite _ m e =>
      let d :=
        (2 * Z.abs (n * denominator e - 1000 * numerator false m e))%Z in
      (0 ≤ n)%Z ∧ (d ≤ denominator e)%Z
      ∧ (d = denominator e → Z.even n = true)
  | _ => False
  end.

Definition decimal_digit (d : Z) : ascii :=
  default "0"%char
    (["0"; "1"; "2"; "3"; "4"; "5"; "6"; "7"; "8"; "9"]%char !! Z.to_nat d).

(** [n] thousandths in decimal: the whole part, a point, three digits. *)
Definition three_decimals (n : Z) : string :=
  pretty (n / 1000)%Z
  +:+ String "."
        (String (decimal_digit (n / 100 mod 10))
           (String (decimal_digit (n / 10 mod 10))
              (String (decimal_digit (n mod 10)) ""))).

(** The sign that a float is written with. *)
Definition minus_sign (x : float) : string :=
  match x with
  | S754_zero true | S754_finite true _ _ | S754_infinity true => "-"
  | _ => ""
  end.

(** [mark] is the POSITION_MARK of the raw position [p] at the sample rate
    [rate]: its Start is [(p / 2.0) / rate] seconds in thousandths, with
    three digits after the point. *)
Definition is_cue_mark (rate p : Z) (mark : element) : Prop :=
  tag_of mark = "POSITION_MARK"
  ∧ ∃ n, thousandths (seconds p rate) n
         ∧ attr "Start" mark
           = Some (minus_sign (seconds p rate) +:+ three_decimals n).

(** A row that [build_xml] renders without raising: no None where a
    string, a number or a list is needed, a finite duration, and integers
    that have a float (those of SQLite, of 64 bits, all do). *)
Definition renderable (data : track) : Prop :=
  location data ≠ Null ∧ bpm data ≠ Null ∧ cues data ≠ Null
  ∧ (∀ x, duration data = Val x → PyFloat.is_finite x = true)
  ∧ (∀ n, samplerate data = Val n → (Z.abs n ≤ 2 ^ 1023)%Z)
  ∧ (∀ l p, cues data = Val l → p ∈ l → (Z.abs p ≤ 2 ^ 1023)%Z).

(** ** Names *)

(** [n] is a name of the database that the filters keep. *)
Definition selected (rows : list (Z * string))
    (include_names exclude_names : option (list string)) (n : string)
    : Prop :=
  n ∈ rows.*2
  ∧ match include_names with
    | Some names => n ∈ names
    | None =>
        match exclude_names with
        | Some (e :: es) => n ∉ e :: es
        | _ => True
        end
    end.

(** ** Collections and rows *)

(** The dictionary [collection_data] as the comprehension builds it. *)
Definition new_collections (all_db_items : list (string * Z))
    (final_names : list string) : list (string * collection_of (list Z)) :=
  foldl (λ d name,
           odict.set name
             {| coll_id := default 0%Z (odict.get name all_db_items);
                tracks := [] |} d)
    [] final_names.

(** The dictionary [id_to_name]. *)
Definition id_to_name (collection_data : list (string * collection_of (list Z)))
    : list (Z * string) :=
  foldl (λ d item, odict.set (coll_id item.2) item.1 d) [] collection_data.

(** The track ids of the membership rows of the collection [coll], in the
    order of the rows. *)
Definition members (coll : Z) (rows : list (Z * Z)) : list Z :=
  (filter (λ row, row.1 = coll) rows).*2.

(** The track ids that the loop over the membership rows appends to the
    collection [name]: those of the rows whose collection id stands for
    [name] in [id_to_name], when [name] is not the empty string. *)
Definition picked (itn : list (Z * string)) (name : string)
    (rows : list (Z * Z)) : list Z :=
  (filter (λ row, odict.get row.1 itn = Some name ∧ str_truthy name = true)
     rows).*2.

(** [c] with [l] appended to its tracks. *)
Definition extend (l : list Z) (c : collection_of (list Z))
    : collection_of (list Z) :=
  {| coll_id := coll_id c; tracks := tracks c ++ l |}.

(** The record [data] with the cue list [l]. *)
Definition with_cues (l : list Z) (data : track) : track :=
  {| title := title data; artist := artist data; album := album data;
     grouping := grouping data; genre := genre data;
     comment := comment data; location := location data;
     year := year data; tracknumber := tracknumber data;
     filesize := filesize data; bitrate := bitrate data;
     samplerate := samplerate data; duration := duration data;
     bpm := bpm data; cues := Val l |}.

(** ** Documents and rows, continued *)

(** The names of the child nodes, in document order. *)
Definition node_names (root : element) : list string :=
  omap (attr "Name") (children_of root).

(** The sort order that [build_xml] acts on. *)
Definition effective_order (s : string) : option string :=
  if decide (s = "") then None
  else if decide (s = "desc") then Some "desc" else Some "asc".

(** What in a row makes [build_xml] raise [e]. *)
Definition cause (e : pyexn) (data : track) : Prop :=
  match e with
  | TypeError => location data = Null ∨ bpm data = Null ∨ cues data = Null
  | ValueError => duration data = Val S754_nan
  | OverflowError =>
      (∃ s, duration data = Val (S754_infinity s))
      ∨ (∃ n, samplerate data = Val n ∧ (2 ^ 1023 < Z.abs n)%Z)
      ∨ (∃ l p, cues data = Val l ∧ p ∈ l ∧ (2 ^ 1023 < Z.abs p)%Z)
  | ZeroDivisionError | Sqlite3Error => False
  end.

(** [c] occurs in [s]. *)
Fixpoint contains (c : ascii) (s : string) : bool :=
  match s with
  | "" => false
  | String c' s' => bool_decide (c' = c) || contains c s'
  end.

(** A byte that a URL path holds as it is: a letter, a digit, or one of
    [_ . - ~ /]. *)
Definition plain (c : ascii) : bool :=
  contains c
    "ABCDEFGHIJKLMNOPQRSTUVWXYZabcdefghijklmnopqrstuvwxyz0123456789_.-~/".

(** The hexadecimal digit of a number below 16, in upper case. *)
Definition hex_digit (n : N) : ascii :=
  default "0"%char
    (["0"; "1"; "2"; "3"; "4"; "5"; "6"; "7"; "8"; "9"; "A"; "B"; "C"; "D";
      "E"; "F"]%char !! N.to_nat n).

(** [q] is [path] percent-encoded: the plain bytes as they are, every
    other byte as a percent sign and its two hexadecimal digits. *)
Inductive percent_encoded : string → string → Prop :=
  | encoded_end : percent_encoded "" ""
  | encoded_plain c path q :
      plain c = true →
      percent_encoded path q →
      percent_encoded (String c path) (String c q)
  | encoded_escape c path q :
      plain c = false →
      percent_encoded path q →
      percent_encoded (String c path)
        (String "%"
           (String (hex_digit (N_of_ascii c / 16))
              (String (hex_digit (N_of_ascii c mod 16)) q))).

(** The path that [build_xml] reads from a row. *)
Definition stored_location (data : track) : option string :=
  get_default (location data) "".

(** ** Runs of [main] *)

(** The tree that a run exported. *)
Definition exported (o : outcome) : element :=
  match status_of o with
  | Export _ xml_tree => xml_tree
  | _ => product
  end.


(** A query about collections: the names query or the membership query. *)
Definition collection_query (q : query) : Prop :=
  ∃ m, q = SelectNames m ∨ ∃ item_ids, q = SelectTracks m item_ids.

(** The playlists that [main] asks for. *)
Definition target_names (config : gmap string string) (args : args)
    : option (list string) :=
  match Args.playlists args with
  | Some [] => Some (default_playlists config)
  | names => names
  end.

(** * Example data *)

Module Demo.

(** [float(n)] for a small [n]. *)
Definition fl (n : Z) : float :=
  binary_normalize PyFloat.prec PyFloat.emax n 0 false.

(** 128.5 *)
Definition f128_5 : float := S754_finite false 4521191813414912 (-45).

Definition row (b : cell float) (sr : cell Z) (cs : list Z) : track :=
  {| title := Val "Acid"; artist := Null; album := Val "";
     grouping := Null; genre := Val "Techno"; comment := Null;
     location := Val "/music/a b.mp3"; year := Val 0%Z;
     tracknumber := Val 0%Z; filesize := Val 0%Z; bitrate := Val 0%Z;
     samplerate := sr; duration := Val (fl 301); bpm := b; cues := Val cs |}.

(** Three tracks with bpm 120, 140 and 100. *)
Definition details : gmap Z track :=
  {[ 5%Z := row (Val (fl 120)) (Val 44100%Z) [88200; 0; 44100]%Z;
     2%Z := row (Val (fl 140)) (Val 0%Z) [];
     9%Z := row (Val (fl 100)) Null [88200]%Z ]}.

(** The crate "Techno" holds the ids [5, 2, 9]. *)
Definition store : heap := {[ 1%positive := [5; 2; 9]%Z ]}.
Definition crates : gmap string collection :=
  {[ "Techno" := {| coll_id := 1; tracks := 1%positive |} ]}.

(** A crate that also names the id 77, which has no metadata. *)
Definition store77 : heap := {[ 1%positive := [5; 77; 2; 9]%Z ]}.

(** One track whose bpm is NULL. *)
Definition null_bpm : gmap Z track := {[ 1%Z := row Null (Val 44100%Z) [] ]}.

(** A database with two crates, one metadata row, and a cue query that
    fails. *)
Definition library_row5 : library_row :=
  {| row_id := 5; row_artist := None; row_title := Some "Acid";
     row_album := None; row_year := None; row_genre := None;
     row_grouping := None; row_tracknumber := None; row_comment := None;
     row_samplerate := Some 44100%Z; row_bitrate := None;
     row_bpm := Some (fl 120); row_duration := None;
     row_location := Some "/music/a b.mp3"; row_filesize := None |}.

Definition conn : connection :=
  {| names_rows := λ _, Some [(1, "Techno"); (2, "House")]%Z;
     tracks_rows := λ _ _, Some [(1, 5); (1, 2); (2, 9)]%Z;
     library_rows := λ _, Some [library_row5];
     cues_rows := λ _, None |}.

(** What a call returned, when it did return. *)
Definition returned (r : result element * heap) : element :=
  match r.1 with
  | Ok doc => doc
  | Raise _ => product
  end.

End Demo.

(** More databases, rows and command lines. *)
Module Demo2.

(** The membership query fails. *)
Definition conn_no_tracks : connection :=
  {| names_rows := λ _, Some [(1, "Techno"); (2, "House")]%Z;
     tracks_rows := λ _ _, None;
     library_rows := λ _, Some [];
     cues_rows := λ _, Some [] |}.

(** A crate whose name is the empty string. *)
Definition conn_blank : connection :=
  {| names_rows := λ _, Some [(1, ""); (2, "House")]%Z;
     tracks_rows := λ _ _, Some [(1, 5); (2, 9); (1, 2)]%Z;
     library_rows := λ _, Some [];
     cues_rows := λ _, Some [] |}.

(** A second metadata row for the track 5, without bpm and location. *)
Definition library_row2 : library_row :=
  {| row_id := 5; row_artist := Some "Old"; row_title := Some "Dup";
     row_album := None; row_year := None; row_genre := None;
     row_grouping := None; row_tracknumber := None; row_comment := None;
     row_samplerate := None; row_bitrate := None;
     row_bpm := None; row_duration := None;
     row_location := None; row_filesize := None |}.

(** Two metadata rows for the track 5, and cue rows for the tracks 5 and
    7. *)
Definition conn_cues : connection :=
  {| names_rows := λ _, Some [(1, "Techno"); (2, "House")]%Z;
     tracks_rows := λ _ _, Some [(1, 5); (1, 2); (2, 9)]%Z;
     library_rows := λ _, Some [library_row2; Demo.library_row5];
     cues_rows := λ _, Some [(5, 88200); (7, 1); (5, 0)]%Z |}.
(** A row whose duration is a NaN. *)
Definition nan_duration : track :=
  {| title := Null; artist := Null; album := Null; grouping := Null;
     genre := Null; comment := Null; location := Val "/a.mp3";
     year := Null; tracknumber := Null; filesize := Null; bitrate := Null;
     samplerate := Null; duration := Val S754_nan; bpm := Val (Demo.fl 120);
     cues := Val [] |}.
(** Track 3 renders, track 4 has a NaN duration, track 7 a NULL bpm. *)
Definition details : gmap Z track :=
  {[ 3%Z := Demo.row (Val (Demo.fl 120)) Null [];
     4%Z := nan_duration;
     7%Z := Demo.row Null Null [] ]}.

(** The tracks 5, 2 and 9 with bpm 140, NaN and 100. *)
Definition details_nan : gmap Z track :=
  {[ 5%Z := Demo.row (Val (Demo.fl 140)) Null [];
     2%Z := Demo.row (Val S754_nan) Null [];
     9%Z := Demo.row (Val (Demo.fl 100)) Null [] ]}.

(** Command lines, and a machine with one database. *)
Definition argv : command_line :=
  {| given_mixxx_db_path := Some "mixxx.sqlite"; given_output := None;
     given_playlists := None; given_exclude_crates := None;
     given_list_crates := false; given_list_playlists := false;
     given_sort_by_bpm := None |}.
Definition connect (path : string) : option connection :=
  if bool_decide (path = "mixxx.sqlite") then Some conn_cues else None.

Definition argv_list : command_line :=
  {| given_mixxx_db_path := Some "mixxx.sqlite"; given_output := None;
     given_playlists := Some ["Techno"]; given_exclude_crates := None;
     given_list_crates := true; given_list_playlists := true;
     given_sort_by_bpm := None |}.
Definition argv_exclude : command_line :=
  {| given_mixxx_db_path := Some "mixxx.sqlite"; given_output := None;
     given_playlists := None; given_exclude_crates := Some ["House"];
     given_list_crates := false; given_list_playlists := false;
     given_sort_by_bpm := None |}.
(** A database whose only metadata row has no bpm and no location. *)
Definition conn_null : connection :=
  {| names_rows := λ _, Some [(1, "Techno")]%Z;
     tracks_rows := λ _ _, Some [(1, 5)]%Z;
     library_rows := λ _, Some [library_row2];
     cues_rows := λ _, Some [] |}.


End Demo2.

(** * Properties *)

(** ** [quote] *)

Example quote_path : quote "/a b/x~_.-%" = "/a%20b/x~_.-%25".
Proof. vm_compute. reflexivity. Qed.

(** ** Loops that may raise *)

Lemma for_each_Ok {A B} (f : A → result B) l r :
  for_each f l = Ok r → Forall2 (λ x y, f x = Ok y) l r.
Proof.
  revert r. induction l as [|x l IH]; intros r; simpl.
  - intros [= <-]. constructor.
  - destruct (f x) as [y|e] eqn:Hx; simpl; [|discriminate].
    destruct (for_each f l) as [ys|e]; simpl; [|discriminate].
    intros [= <-]. constructor; auto.
Qed.

Lemma for_each_Raise {A B} (f : A → result B) l x e :
  x ∈ l → f x = Raise e → ∃ e', for_each f l = Raise e'.
Proof.
  intros Hin Hx. induction Hin as [x l|x y l _ IH]; simpl.
  - rewrite Hx. simpl. eauto.
  - destruct (f y); simpl; [|eauto].
    destruct (IH Hx) as [e' ->]. simpl. eauto.
Qed.

Lemma for_each_total {A B} (f : A → result B) l :
  Forall (λ x, is_Ok (f x)) l → is_Ok (for_each f l).
Proof.
  induction 1 as [|x l [y Hy] _ [ys Hys]]; simpl.
  - by eexists.
  - rewrite Hy. simpl. rewrite Hys. simpl. by eexists.
Qed.

(** ** The stable sort *)

Lemma StronglySorted_weaken {A} (R R' : relation A) l :
  (∀ a b, R a b → R' a b) → StronglySorted R l → StronglySorted R' l.
Proof.
  intros HR. induction 1 as [|x l _ IH Hx]; constructor; [done|].
  eapply Forall_impl; [done|]. intros y. apply HR.
Qed.

Section sorted_facts.
Context {A K : Type} (lt : K → K → bool) (key : A → K).

Lemma insert_by_perm x l : insert_by lt key x l ≡ₚ x :: l.
Proof.
  induction l as [|y l IH]; simpl; [done|].
  destruct (lt (key y) (key x)); [|done].
  rewrite IH. apply Permutation_swap.
Qed.

Lemma sort_by_perm l : sort_by lt key l ≡ₚ l.
Proof.
  induction l as [|x l IH]; simpl; [done|].
  by rewrite insert_by_perm, IH.
Qed.

Lemma sorted_perm reverse l : sorted lt key reverse l ≡ₚ l.
Proof.
  unfold sorted. destruct reverse; [|apply sort_by_perm].
  by rewrite reverse_Permutation, sort_by_perm, reverse_Permutation.
Qed.

(** A list in which no key is below the one before it is left as it is:
    it is one run, which CPython's sort leaves as it is, too. *)
Lemma sorted_run l :
  (∀ i x y, l !! i = Some x → l !! S i = Some y →
            lt (key y) (key x) = false) →
  sorted lt key false l = l.
Proof.
  unfold sorted. induction l as [|x l IH]; intros Hrun; [done|]. simpl.
  rewrite IH by (intros i a b; apply (Hrun (S i))).
  destruct l as [|y l']; [done|]. simpl.
  by rewrite (Hrun 0%nat x y).
Qed.

(** [<] is a strict weak order on the keys in [P]. *)
Context (P : K → Prop).
Context (lt_asym : ∀ a b, P a → P b → lt a b = true → lt b a = false).
Context (lt_neg_trans : ∀ a b c, P a → P b → P c →
  lt a c = true → lt a b = true ∨ lt b c = true).

Lemma insert_by_sorted x l :
  P (key x) → Forall (λ y, P (key y)) l →
  StronglySorted (not_after lt key) l →
  StronglySorted (not_after lt key) (insert_by lt key x l).
Proof.
  intros Hx Hl Hs. induction Hs as [|y l Hs IH Hy]; simpl.
  - repeat constructor.
  - apply Forall_cons in Hl as [Py Hl].
    destruct (lt (key y) (key x)) eqn:Hyx.
    + constructor; [by apply IH|].
      rewrite insert_by_perm. constructor; [|done].
      unfold not_after. by apply lt_asym.
    + constructor; [by constructor|].
      constructor; [done|].
      rewrite Forall_forall in Hy, Hl |- *. intros z Hz.
      unfold not_after. destruct (lt (key z) (key x)) eqn:Hzx; [|done].
      destruct (lt_neg_trans (key z) (key y) (key x)) as [Hzy|?];
        auto; [|congruence].
      specialize (Hy z Hz). unfold not_after in Hy. congruence.
Qed.

Lemma sort_by_sorted l :
  Forall (λ y, P (key y)) l →
  StronglySorted (not_after lt key) (sort_by lt key l).
Proof.
  induction 1 as [|x l Hx Hl IH]; simpl; [constructor|].
  apply insert_by_sorted; [done| |done].
  by rewrite sort_by_perm.
Qed.




Lemma sorted_ascending l :
  Forall (λ y, P (key y)) l →
  StronglySorted (not_after lt key) (sorted lt key false l).
Proof. apply sort_by_sorted. Qed.


End sorted_facts.

(** ** The shape of a formatted float *)

Lemma is_digit_pretty_N_char n : is_digit (pretty_N_char n) = true.
Proof. unfold pretty_N_char. by repeat case_match. Qed.

Lemma all_digits_app s t :
  all_digits (s +:+ t) = all_digits s && all_digits t.
Proof.
  induction s as [|c s IH]; simpl; [done|].
  by rewrite IH, andb_assoc.
Qed.

Lemma string_length_app s t :
  String.length (s +:+ t) = (String.length s + String.length t)%nat.
Proof. induction s as [|c s IH]; simpl; [done|]. by rewrite IH. Qed.

Lemma pretty_N_go_digits x s :
  all_digits s = true → all_digits (pretty_N_go x s) = true.
Proof.
  revert s. induction (N.lt_wf_0 x) as [x _ IH]; intros s Hs.
  destruct (decide (x = 0)%N) as [->|]; [by rewrite pretty_N_go_0|].
  rewrite pretty_N_go_step by lia.
  apply IH; [apply N.div_lt; lia|].
  simpl. by rewrite is_digit_pretty_N_char.
Qed.

Lemma pretty_N_go_nonempty x s : s ≠ "" → pretty_N_go x s ≠ "".
Proof.
  revert s. induction (N.lt_wf_0 x) as [x _ IH]; intros s Hs.
  destruct (decide (x = 0)%N) as [->|]; [by rewrite pretty_N_go_0|].
  rewrite pretty_N_go_step by lia. apply IH; [apply N.div_lt; lia|done].
Qed.

Lemma pretty_N_digits (x : N) :
  all_digits (pretty x) = true ∧ pretty x ≠ "".
Proof.
  unfold pretty, pretty_N. case_decide; [done|].
  split; [by apply pretty_N_go_digits|].
  rewrite pretty_N_go_step by lia. by apply pretty_N_go_nonempty.
Qed.

Lemma pretty_Z_digits (n : Z) :
  (0 ≤ n)%Z → all_digits (pretty n) = true ∧ pretty n ≠ "".
Proof.
  destruct n as [|n|n]; [done| |lia]. intros _.
  apply (pretty_N_digits (N.pos n)).
Qed.

Lemma frac_digits_shape d r :
  all_digits (PyFloat.frac_digits d r) = true
  ∧ String.length (PyFloat.frac_digits d r) = d.
Proof.
  revert r. induction d as [|d IH]; intros r; simpl; [done|].
  destruct (IH (r / 10)%Z) as [Hd Hl].
  rewrite all_digits_app, string_length_app, Hd, Hl. simpl.
  unfold PyFloat.digit_char. rewrite is_digit_pretty_N_char.
  split; [done|lia].
Qed.

Lemma round_half_even_nonneg num den :
  (0 ≤ num)%Z → (0 < den)%Z → (0 ≤ PyFloat.round_half_even num den)%Z.
Proof.
  intros Hn Hd. unfold PyFloat.round_half_even.
  assert (0 ≤ num / den)%Z by (apply Z.div_pos; lia).
  repeat case_match; lia.
Qed.

(** The integer that [round_half_even] picks is within one half of the
    quotient. *)
Lemma round_half_even_nearest num den :
  (0 < den)%Z →
  (2 * Z.abs (PyFloat.round_half_even num den * den - num) ≤ den)%Z.
Proof.
  intros Hd. unfold PyFloat.round_half_even.
  pose proof (Z.div_mod num den ltac:(lia)) as Hdm.
  pose proof (Z.mod_pos_bound num den Hd) as Hm.
  destruct (Z.compare_spec (2 * (num mod den)) den);
    [destruct (Z.even (num / den))|..]; nia.
Qed.

Lemma round_half_even_tie num den :
  (0 < den)%Z →
  (2 * Z.abs (PyFloat.round_half_even num den * den - num) = den)%Z →
  Z.even (PyFloat.round_half_even num den) = true.
Proof.
  intros Hd. unfold PyFloat.round_half_even.
  pose proof (Z.div_mod num den ltac:(lia)) as Hdm.
  pose proof (Z.mod_pos_bound num den Hd) as Hm.
  destruct (Z.compare_spec (2 * (num mod den)) den) as [Heq|Hlt|Hgt].
  - destruct (Z.even (num / den)) eqn:He; [done|]. intros _.
    rewrite Z.even_add, He. done.
  - nia.
  - nia.
Qed.

Lemma scaled_round_nonneg d m e : (0 ≤ PyFloat.scaled_round d m e)%Z.
Proof.
  unfold PyFloat.scaled_round. destruct e as [|p|p].
  - lia.
  - assert (0 < 2 ^ Z.pos p)%Z by (apply Z.pow_pos_nonneg; lia).
    assert (0 < 10 ^ Z.of_nat d)%Z by (apply Z.pow_pos_nonneg; lia).
    nia.
  - apply round_half_even_nonneg.
    + assert (0 < 10 ^ Z.of_nat d)%Z by (apply Z.pow_pos_nonneg; lia). nia.
    + apply Z.pow_pos_nonneg; lia.
Qed.

Lemma fixed_shape d n sign :
  (0 < d)%nat → (0 ≤ n)%Z →
  fixed_point d (PyFloat.sign_str sign +:+ PyFloat.fixed d n).
Proof.
  intros Hd Hn. unfold PyFloat.fixed.
  destruct d as [|d]; [lia|].
  assert (0 ≤ n / 10 ^ Z.of_nat (S d))%Z as Hq.
  { apply Z.div_pos; [done|]. apply Z.pow_pos_nonneg; lia. }
  destruct (pretty_Z_digits _ Hq) as [Hip Hne].
  destruct (frac_digits_shape (S d) (n mod 10 ^ Z.of_nat (S d))) as [Hfr Hl].
  by eexists sign, _, _.
Qed.

(** A finite float under ['.<d>f'] has exactly [d] digits after the point. *)
Lemma format_f_fixed d x :
  (0 < d)%nat → PyFloat.is_finite x = true →
  fixed_point d (PyFloat.format_f d x).
Proof.
  intros Hd Hx. destruct x as [s|s| |s m e]; try done; simpl.
  - by apply fixed_shape.
  - apply fixed_shape; [done|]. apply scaled_round_nonneg.
Qed.

(** ** Rounding to binary64

    Bounds on what [binary_round_aux], the rounding step of every
    [spec_float] operation, returns; they show that the arithmetic on cue
    positions stays finite. *)

Section binary64.
Local Open Scope Z_scope.

Lemma fexp64 e : fexp 53 1024 e = Z.max (e - 53) (-1074).
Proof. reflexivity. Qed.

Lemma digits2_pos_bounds m :
  2 ^ (Z.pos (digits2_pos m) - 1) ≤ Z.pos m < 2 ^ Z.pos (digits2_pos m).
Proof.
  induction m as [m IH|m IH|]; cbn [digits2_pos];
    rewrite ?Pos2Z.inj_succ.
  - rewrite (Pos2Z.inj_xI m).
    replace (Z.succ (Z.pos (digits2_pos m)) - 1)
      with (Z.succ (Z.pos (digits2_pos m) - 1)) by lia.
    rewrite !Z.pow_succ_r by lia. lia.
  - rewrite (Pos2Z.inj_xO m).
    replace (Z.succ (Z.pos (digits2_pos m)) - 1)
      with (Z.succ (Z.pos (digits2_pos m) - 1)) by lia.
    rewrite !Z.pow_succ_r by lia. lia.
  - cbn. lia.
Qed.

Lemma Zdigits2_le m k : 0 ≤ m → 0 ≤ k → m < 2 ^ k → Zdigits2 m ≤ k.
Proof.
  intros Hm Hk Hlt. destruct m as [|p|p]; [done| |lia]. simpl.
  pose proof (digits2_pos_bounds p) as [Hlo _].
  assert (2 ^ (Z.pos (digits2_pos p) - 1) < 2 ^ k) as Hpow by lia.
  apply Z.pow_lt_mono_r_iff in Hpow; lia.
Qed.

Lemma Zdigits2_lt m : 0 ≤ m → m < 2 ^ Zdigits2 m.
Proof.
  intros Hm. destruct m as [|p|p]; [done| |lia]. simpl.
  apply digits2_pos_bounds.
Qed.

Lemma Zdigits2_nonneg m : 0 ≤ Zdigits2 m.
Proof. by destruct m. Qed.

Lemma shr_1_m mrs : 0 ≤ shr_m mrs → shr_m (shr_1 mrs) = shr_m mrs / 2.
Proof.
  destruct mrs as [[|[p|p|]|p] r s]; simpl; intros Hm; try done; try lia.
  - rewrite (Pos2Z.inj_xI p). apply Z.div_unique with 1; lia.
  - rewrite (Pos2Z.inj_xO p). apply Z.div_unique with 0; lia.
Qed.

Lemma iter_pos_shr_m p mrs :
  0 ≤ shr_m mrs →
  shr_m (SpecFloat.iter_pos shr_1 p mrs) = shr_m mrs / 2 ^ Z.pos p.
Proof.
  revert mrs. induction p as [p IH|p IH|]; intros mrs Hm;
    cbn [SpecFloat.iter_pos].
  - assert (0 < 2 ^ Z.pos p) by (apply Z.pow_pos_nonneg; lia).
    assert (0 ≤ shr_m (shr_1 mrs)).
    { rewrite shr_1_m by done. apply Z.div_pos; lia. }
    assert (0 ≤ shr_m (SpecFloat.iter_pos shr_1 p (shr_1 mrs))).
    { rewrite IH by done. apply Z.div_pos; lia. }
    rewrite !IH, shr_1_m by done.
    rewrite !Z.div_div by lia.
    f_equal. rewrite (Pos2Z.inj_xI p).
    replace (2 * Z.pos p + 1) with (1 + Z.pos p + Z.pos p) by lia.
    rewrite !Z.pow_add_r by lia. lia.
  - assert (0 < 2 ^ Z.pos p) by (apply Z.pow_pos_nonneg; lia).
    assert (0 ≤ shr_m (SpecFloat.iter_pos shr_1 p mrs)).
    { rewrite IH by done. apply Z.div_pos; lia. }
    rewrite !IH by done. rewrite Z.div_div by lia.
    f_equal. rewrite (Pos2Z.inj_xO p).
    replace (2 * Z.pos p) with (Z.pos p + Z.pos p) by lia.
    rewrite Z.pow_add_r by lia. lia.
  - by rewrite shr_1_m.
Qed.

Lemma shr_record_of_loc_m m l : shr_m (shr_record_of_loc m l) = m.
Proof. by destruct l as [|[]]. Qed.

(** The first component of [shr_fexp]: the mantissa shifted right by the
    number of bits that [fexp] asks for, and the exponent raised by it. *)
Lemma shr_fexp_m m e l :
  0 ≤ m →
  let n := Z.max (fexp 53 1024 (Zdigits2 m + e) - e) 0 in
  shr_m (shr_fexp 53 1024 m e l).1 = m / 2 ^ n
  ∧ (shr_fexp 53 1024 m e l).2 = e + n.
Proof.
  intros Hm n. unfold shr_fexp, shr. subst n.
  destruct (fexp 53 1024 (Zdigits2 m + e) - e) as [|p|p] eqn:Hn; simpl.
  - rewrite shr_record_of_loc_m, Z.div_1_r. split; [done|lia].
  - rewrite iter_pos_shr_m, shr_record_of_loc_m
      by by rewrite shr_record_of_loc_m.
    done.
  - rewrite shr_record_of_loc_m, Z.div_1_r. split; [done|lia].
Qed.

Lemma round_nearest_even_bounds m l :
  m ≤ round_nearest_even m l ≤ m + 1.
Proof. destruct l as [|[]]; simpl; try lia. destruct (Z.even m); lia. Qed.

Lemma pow2_le a b : 0 ≤ a → a ≤ b → 2 ^ a ≤ 2 ^ b.
Proof. intros. apply Z.pow_le_mono_r; lia. Qed.

Lemma pow2_pos a : 0 ≤ a → 0 < 2 ^ a.
Proof. intros. apply Z.pow_pos_nonneg; lia. Qed.

Lemma pow2_split a b : 0 ≤ a → 0 ≤ b → 2 ^ (a + b) = 2 ^ a * 2 ^ b.
Proof. intros. apply Z.pow_add_r; lia. Qed.

(** Dividing a number below a power of two by a smaller power of two. *)
Lemma div_pow2_le m a n :
  0 ≤ n → n ≤ a → m ≤ 2 ^ a → m / 2 ^ n ≤ 2 ^ (a - n).
Proof.
  intros Hn Ha Hm. pose proof (pow2_pos n Hn).
  apply Z.div_le_upper_bound; [done|].
  rewrite <-pow2_split by lia. by replace (n + (a - n)) with a by lia.
Qed.

Lemma div_pow2_lt m a n :
  0 ≤ n → n ≤ a → m < 2 ^ a → m / 2 ^ n < 2 ^ (a - n).
Proof.
  intros Hn Ha Hm. pose proof (pow2_pos n Hn).
  apply Z.div_lt_upper_bound; [done|].
  rewrite <-pow2_split by lia. by replace (n + (a - n)) with a by lia.
Qed.

(** What [binary_round_aux] returns is a binary64 number: its mantissa has
    at most 53 bits and its exponent is in range. *)
Lemma binary_round_aux_valid s m e l :
  0 ≤ m →
  match binary_round_aux 53 1024 s m e l with
  | S754_finite _ m' e' =>
      e ≤ e' ∧ e' ≤ 971 ∧ Z.pos m' < 2 ^ 53 ∧ m / 2 ^ (e' - e) ≤ Z.pos m'
  | S754_nan => False
  | _ => True
  end.
Proof.
  intros Hm. unfold binary_round_aux.
  destruct (shr_fexp_m m e l Hm) as [Hm1 He1].
  destruct (shr_fexp 53 1024 m e l) as [mrs1 e1]. cbn [fst snd] in *.
  set (n1 := Z.max (fexp 53 1024 (Zdigits2 m + e) - e) 0) in *.
  assert (0 ≤ shr_m mrs1) as Hm1'.
  { rewrite Hm1. apply Z.div_pos; [done|]. apply pow2_pos. lia. }
  pose proof (round_nearest_even_bounds (shr_m mrs1) (loc_of_shr_record mrs1))
    as Hm2.
  set (m2 := round_nearest_even (shr_m mrs1) (loc_of_shr_record mrs1)) in *.
  assert (0 ≤ m2) as Hm2' by lia.
  destruct (shr_fexp_m m2 e1 loc_Exact Hm2') as [Hm3 He2].
  destruct (shr_fexp 53 1024 m2 e1 loc_Exact) as [mrs2 e2].
  cbn [fst snd] in *.
  set (n2 := Z.max (fexp 53 1024 (Zdigits2 m2 + e1) - e1) 0) in *.
  assert (shr_m mrs2 < 2 ^ 53) as Hm3'.
  { rewrite Hm3. apply Z.div_lt_upper_bound; [apply pow2_pos; lia|].
    rewrite <-pow2_split by lia.
    pose proof (Zdigits2_lt m2 Hm2'). pose proof (Zdigits2_nonneg m2).
    eapply Z.lt_le_trans; [done|]. apply pow2_le; [done|].
    subst n2. rewrite fexp64. lia. }
  assert (0 ≤ shr_m mrs2) as Hm3''.
  { rewrite Hm3. apply Z.div_pos; [done|]. apply pow2_pos. lia. }
  assert (m / 2 ^ (e2 - e) ≤ shr_m mrs2) as Hlow.
  { rewrite Hm3, He2, He1. replace (e + n1 + n2 - e) with (n1 + n2) by lia.
    rewrite pow2_split, <-Z.div_div by (try apply pow2_pos; lia).
    apply Z.div_le_mono; [apply pow2_pos; lia|]. rewrite <-Hm1. lia. }
  destruct (shr_m mrs2) as [|m3|m3]; [done| |lia].
  destruct (Z.leb_spec e2 (1024 - 53)); [|done]. lia.
Qed.

(** Rounding a number that is at most [2^1023] does not overflow, and
    rounding one below [2^1023] gives at most [2^1023]. *)
Lemma binary_round_aux_bound s m e l :
  0 ≤ m → e ≤ 971 → m ≤ 2 ^ (1023 - e) →
  match binary_round_aux 53 1024 s m e l with
  | S754_finite _ m' e' =>
      m < 2 ^ (1023 - e) → Z.pos m' ≤ 2 ^ (1023 - e')
  | S754_zero _ => True
  | _ => False
  end.
Proof.
  intros Hm He Hle. unfold binary_round_aux.
  destruct (shr_fexp_m m e l Hm) as [Hm1 He1].
  destruct (shr_fexp 53 1024 m e l) as [mrs1 e1]. cbn [fst snd] in *.
  set (n1 := Z.max (fexp 53 1024 (Zdigits2 m + e) - e) 0) in *.
  assert (0 ≤ n1) as Hn1 by lia.
  assert (Zdigits2 m + e ≤ 1024) as Hd.
  { assert (Zdigits2 m ≤ 1024 - e); [|lia].
    apply Zdigits2_le; [done|lia|].
    eapply Z.le_lt_trans; [done|].
    apply Z.pow_lt_mono_r; lia. }
  assert (e1 ≤ 971) as He1'.
  { rewrite He1. subst n1. rewrite fexp64. lia. }
  assert (0 ≤ shr_m mrs1) as Hm1'.
  { rewrite Hm1. apply Z.div_pos; [done|]. by apply pow2_pos. }
  assert (shr_m mrs1 ≤ 2 ^ (1023 - e1)) as Hb1.
  { rewrite Hm1, He1. replace (1023 - (e + n1)) with (1023 - e - n1) by lia.
    apply div_pow2_le; lia. }
  assert (m < 2 ^ (1023 - e) → shr_m mrs1 < 2 ^ (1023 - e1)) as Hb1'.
  { intros Hlt. rewrite Hm1, He1.
    replace (1023 - (e + n1)) with (1023 - e - n1) by lia.
    apply div_pow2_lt; lia. }
  pose proof (round_nearest_even_bounds (shr_m mrs1) (loc_of_shr_record mrs1))
    as Hm2.
  set (m2 := round_nearest_even (shr_m mrs1) (loc_of_shr_record mrs1)) in *.
  assert (0 ≤ m2) as Hm2' by lia.
  destruct (shr_fexp_m m2 e1 loc_Exact Hm2') as [Hm3 He2].
  destruct (shr_fexp 53 1024 m2 e1 loc_Exact) as [mrs2 e2].
  cbn [fst snd] in *.
  set (n2 := Z.max (fexp 53 1024 (Zdigits2 m2 + e1) - e1) 0) in *.
  assert (0 ≤ n2) as Hn2 by lia.
  assert (m2 < 2 ^ (1024 - e1)) as Hm2lt.
  { replace (1024 - e1) with (1 + (1023 - e1)) by lia.
    rewrite pow2_split by lia.
    pose proof (pow2_le 1 (1023 - e1)). change (2 ^ 1) with 2 in *. lia. }
  assert (Zdigits2 m2 + e1 ≤ 1024) as Hd2.
  { assert (Zdigits2 m2 ≤ 1024 - e1); [|lia].
    apply Zdigits2_le; lia. }
  assert (e2 ≤ 971) as He2'.
  { rewrite He2. subst n2. rewrite fexp64. lia. }
  assert (0 ≤ shr_m mrs2) as Hm3'.
  { rewrite Hm3. apply Z.div_pos; [done|]. by apply pow2_pos. }
  destruct (shr_m mrs2) as [|m3|m3] eqn:Hmrs2; [done| |lia].
  destruct (Z.leb_spec e2 (1024 - 53)); [|lia].
  intros Hlt. rewrite Hm3, He2.
  replace (1023 - (e1 + n2)) with (1023 - e1 - n2) by lia.
  apply div_pow2_le; [lia|lia|]. specialize (Hb1' Hlt). lia.
Qed.

Lemma div_eucl_fst a b : (Z.div_eucl a b).1 = a / b.
Proof. unfold Z.div. by destruct (Z.div_eucl a b). Qed.

(** The quotient that [SFdiv] rounds, for [x <= 2^K] and [y >= 2^j] with
    [K - j = 1023]: it is at most [2^1023]. *)
Lemma div_core_bound mx ex my ey K j :
  K - j = 1023 → ex ≤ K →
  Z.pos mx ≤ 2 ^ (K - ex) → 2 ^ (j - ey) ≤ Z.pos my →
  let r := (SFdiv_core_binary 53 1024 (Z.pos mx) ex (Z.pos my) ey).1 in
  0 ≤ r.1 ∧ r.2 ≤ 971 ∧ r.1 ≤ 2 ^ (1023 - r.2)
  ∧ (Z.pos mx < 2 ^ (K - ex) → r.1 < 2 ^ (1023 - r.2)).
Proof.
  intros HK Hex Hx Hy. unfold SFdiv_core_binary.
  set (d1 := Zdigits2 (Z.pos mx)). set (d2 := Zdigits2 (Z.pos my)).
  set (e' := Z.min (fexp 53 1024 (d1 + ex - (d2 + ey))) (ex - ey)).
  set (s := ex - ey - e').
  assert (d1 + ex ≤ K + 1) as Hd1.
  { assert (d1 ≤ K + 1 - ex); [|lia]. apply Zdigits2_le; [lia..|].
    eapply Z.le_lt_trans; [done|]. apply Z.pow_lt_mono_r; lia. }
  assert (j + 1 ≤ d2 + ey) as Hd2.
  { pose proof (Zdigits2_lt (Z.pos my)) as Hlt. fold d2 in Hlt.
    assert (0 < d2) by done.
    destruct (Z.le_gt_cases 0 (j - ey)) as [Hj|Hj]; [|lia].
    assert (2 ^ (j - ey) < 2 ^ d2) as Hpow by lia.
    apply Z.pow_lt_mono_r_iff in Hpow; lia. }
  assert (e' ≤ 970) as He'.
  { subst e'. rewrite fexp64. lia. }
  assert (0 ≤ s) as Hs by (subst s e'; lia).
  set (m' := match s with
             | 0 => Z.pos mx
             | Z.pos _ => Z.shiftl (Z.pos mx) s
             | Z.neg _ => 0
             end).
  assert (m' = Z.pos mx * 2 ^ s) as Hm'.
  { subst m'. destruct s as [|p|p] eqn:Hsp; [lia| |lia].
    rewrite Z.shiftl_mul_pow2; lia. }
  pose proof (div_eucl_fst m' (Z.pos my)) as Hq.
  destruct (Z.div_eucl m' (Z.pos my)) as [q r]. cbn [fst snd] in *.
  pose proof (pow2_pos s Hs) as Hps.
  assert (0 ≤ m') as Hm'0 by (rewrite Hm'; lia).
  assert (1023 - e' = K - ex + s - (j - ey)) as Hexp by (subst s; lia).
  assert (m' ≤ 2 ^ (K - ex + s)) as Hm'le.
  { rewrite Hm', pow2_split by lia. nia. }
  assert (Z.pos mx < 2 ^ (K - ex) → m' < 2 ^ (K - ex + s)) as Hm'lt.
  { intros Hlt. rewrite Hm', pow2_split by lia. nia. }
  assert (0 ≤ q) as Hq0 by (rewrite Hq; apply Z.div_pos; lia).
  split; [done|]. split; [lia|]. rewrite Hexp, Hq.
  destruct (Z.le_gt_cases 0 (j - ey)) as [Hj|Hj].
  - pose proof (pow2_pos (j - ey) Hj).
    assert (m' / Z.pos my ≤ m' / 2 ^ (j - ey)) as Hdiv
      by (apply Z.div_le_compat_l; lia).
    split.
    + etrans; [done|]. apply div_pow2_le; lia.
    + intros Hlt. eapply Z.le_lt_trans; [done|]. apply div_pow2_lt; lia.
  - assert (m' / Z.pos my ≤ m') as Hdiv.
    { apply Z.div_le_upper_bound; [lia|]. nia. }
    assert (2 ^ (K - ex + s) ≤ 2 ^ (K - ex + s - (j - ey)))
      by (apply pow2_le; lia).
    split; [lia|]. intros Hlt. specialize (Hm'lt Hlt). lia.
Qed.

Lemma SFdiv_bound sx mx ex sy my ey K j :
  K - j = 1023 → ex ≤ K →
  Z.pos mx ≤ 2 ^ (K - ex) → 2 ^ (j - ey) ≤ Z.pos my →
  match SFdiv 53 1024 (S754_finite sx mx ex) (S754_finite sy my ey) with
  | S754_finite _ m' e' =>
      e' ≤ 971 ∧ (Z.pos mx < 2 ^ (K - ex) → Z.pos m' ≤ 2 ^ (1023 - e'))
  | S754_zero _ => True
  | _ => False
  end.
Proof.
  intros HK Hex Hx Hy. unfold SFdiv.
  pose proof (div_core_bound mx ex my ey K j HK Hex Hx Hy) as Hcore.
  destruct (SFdiv_core_binary 53 1024 (Z.pos mx) ex (Z.pos my) ey)
    as [[q e'] l].
  cbn [fst snd] in Hcore. destruct Hcore as (Hq & He' & Hle & Hlt).
  pose proof (binary_round_aux_bound (xorb sx sy) q e' l Hq He' Hle) as Hb.
  pose proof (binary_round_aux_valid (xorb sx sy) q e' l Hq) as Hv.
  destruct (binary_round_aux 53 1024 (xorb sx sy) q e' l); try done.
  split; [lia|]. intros Hx'. apply Hb. by apply Hlt.
Qed.

(** [float(n)] of an integer that is not zero is at least 1 in magnitude
    ([2^(-e) <= m] says [1 <= m * 2^e]). *)
Lemma binary_round_int s m :
  match binary_round 53 1024 s m 0 with
  | S754_finite _ m' e' =>
      e' ≤ 971 ∧ Z.pos m' < 2 ^ 53 ∧ 2 ^ (- e') ≤ Z.pos m'
  | S754_nan => False
  | _ => True
  end.
Proof.
  unfold binary_round, shl_align.
  destruct (fexp 53 1024 (Z.pos (digits2_pos m) + 0) - 0) as [|d|d] eqn:Hd.
  - pose proof (binary_round_aux_valid s (Z.pos m) 0 loc_Exact) as Hv.
    destruct (binary_round_aux 53 1024 s (Z.pos m) 0 loc_Exact)
      as [| | |s' m' e']; try done; try (by apply Hv).
    destruct Hv as (He & He' & Hm' & _); [done|].
    split; [done|]. split; [done|].
    destruct (decide (e' = 0)) as [->|]; [simpl; lia|].
    rewrite Z.pow_neg_r by lia. lia.
  - pose proof (binary_round_aux_valid s (Z.pos m) 0 loc_Exact) as Hv.
    destruct (binary_round_aux 53 1024 s (Z.pos m) 0 loc_Exact)
      as [| | |s' m' e']; try done; try (by apply Hv).
    destruct Hv as (He & He' & Hm' & _); [done|].
    split; [done|]. split; [done|].
    destruct (decide (e' = 0)) as [->|]; [simpl; lia|].
    rewrite Z.pow_neg_r by lia. lia.
  - set (ez := fexp 53 1024 (Z.pos (digits2_pos m) + 0)) in *.
    assert (ez = - Z.pos d) as Hez by lia.
    pose proof (shift_pos_correct d m) as Hmz. unfold shift_pos in Hmz.
    change (Zpower_pos 2 d) with (2 ^ Z.pos d) in Hmz.
    pose proof (pow2_pos (Z.pos d)) as Hpd.
    pose proof (binary_round_aux_valid s (Z.pos (Pos.iter xO m d)) ez
                  loc_Exact) as Hv.
    destruct (binary_round_aux 53 1024 s (Z.pos (Pos.iter xO m d)) ez
                loc_Exact) as [| | |s' m' e']; try done; try (by apply Hv).
    destruct Hv as (He & He' & Hm' & Hlow); [done|].
    split; [done|]. split; [done|].
    destruct (Z.le_gt_cases 0 e') as [Hpos|Hneg].
    + destruct (decide (e' = 0)) as [->|]; [simpl; lia|].
      rewrite Z.pow_neg_r by lia. lia.
    + etrans; [|done].
      apply Z.div_le_lower_bound; [apply pow2_pos; lia|].
      rewrite <-pow2_split by lia. rewrite Hmz.
      replace (e' - ez + - e') with (Z.pos d) by lia. nia.
Qed.

Lemma Zdigits2_lower m : 0 < m → 2 ^ (Zdigits2 m - 1) ≤ m.
Proof.
  destruct m as [|p|p]; [lia| |lia]. intros _. apply digits2_pos_bounds.
Qed.

(** Shifting right as [fexp] asks leaves a positive mantissa positive,
    when the exponent is not below the least one. *)
Lemma shr_fexp_pos m e l :
  0 < m → -1074 ≤ e →
  1 ≤ shr_m (shr_fexp 53 1024 m e l).1
  ∧ -1074 ≤ (shr_fexp 53 1024 m e l).2.
Proof.
  intros Hm He. destruct (shr_fexp_m m e l) as [Hm1 He1]; [lia|].
  rewrite Hm1, He1.
  set (n := Z.max (fexp 53 1024 (Zdigits2 m + e) - e) 0).
  pose proof (Zdigits2_lower m Hm) as Hlow.
  assert (0 < Zdigits2 m) as Hd by (destruct m; done || lia).
  assert (0 ≤ n ≤ Zdigits2 m - 1) as Hn.
  { subst n. rewrite fexp64. lia. }
  split; [|lia].
  apply Z.div_le_lower_bound; [apply pow2_pos; lia|].
  etrans; [|done]. rewrite Z.mul_1_r. apply pow2_le; lia.
Qed.

Lemma binary_round_aux_nonzero s m e l s' :
  0 < m → -1074 ≤ e → binary_round_aux 53 1024 s m e l ≠ S754_zero s'.
Proof.
  intros Hm He. unfold binary_round_aux.
  destruct (shr_fexp_pos m e l Hm He) as [Hm1 He1].
  destruct (shr_fexp 53 1024 m e l) as [mrs1 e1]. cbn [fst snd] in *.
  pose proof (round_nearest_even_bounds (shr_m mrs1) (loc_of_shr_record mrs1))
    as Hm2.
  set (m2 := round_nearest_even (shr_m mrs1) (loc_of_shr_record mrs1)) in *.
  destruct (shr_fexp_pos m2 e1 loc_Exact) as [Hm3 _]; [lia..|].
  destruct (shr_fexp 53 1024 m2 e1 loc_Exact) as [mrs2 e2].
  cbn [fst snd] in *.
  destruct (shr_m mrs2) as [|m3|m3]; [lia| |done].
  by destruct (e2 <=? 1024 - 53).
Qed.

(** [float(n)] for [n] up to [2^1023] in magnitude: a finite float that is
    not zero. *)
Lemma binary_round_int_small s m :
  Z.pos m ≤ 2 ^ 1023 →
  match binary_round 53 1024 s m 0 with
  | S754_finite _ _ _ => True
  | _ => False
  end.
Proof.
  intros Hm. unfold binary_round, shl_align.
  destruct (fexp 53 1024 (Z.pos (digits2_pos m) + 0) - 0) as [|d|d] eqn:Hd.
  - pose proof (binary_round_aux_bound s (Z.pos m) 0 loc_Exact) as Hb.
    pose proof (binary_round_aux_nonzero s (Z.pos m) 0 loc_Exact) as Hz.
    destruct (binary_round_aux 53 1024 s (Z.pos m) 0 loc_Exact);
      try done; [by edestruct Hz|apply Hb; lia..].
  - pose proof (binary_round_aux_bound s (Z.pos m) 0 loc_Exact) as Hb.
    pose proof (binary_round_aux_nonzero s (Z.pos m) 0 loc_Exact) as Hz.
    destruct (binary_round_aux 53 1024 s (Z.pos m) 0 loc_Exact);
      try done; [by edestruct Hz|apply Hb; lia..].
  - set (ez := fexp 53 1024 (Z.pos (digits2_pos m) + 0)) in *.
    assert (ez = - Z.pos d) as Hez by lia.
    assert (-1074 ≤ ez) as Hez' by (subst ez; rewrite fexp64; lia).
    pose proof (shift_pos_correct d m) as Hmz. unfold shift_pos in Hmz.
    change (Zpower_pos 2 d) with (2 ^ Z.pos d) in Hmz.
    assert (Z.pos (Pos.iter xO m d) ≤ 2 ^ (1023 - ez)) as Hle.
    { rewrite Hmz, Hez.
      replace (1023 - - Z.pos d) with (Z.pos d + 1023) by lia.
      rewrite pow2_split by lia. pose proof (pow2_pos (Z.pos d)). nia. }
    pose proof (binary_round_aux_bound s (Z.pos (Pos.iter xO m d)) ez
                  loc_Exact) as Hb.
    pose proof (binary_round_aux_nonzero s (Z.pos (Pos.iter xO m d)) ez
                  loc_Exact) as Hz.
    destruct (binary_round_aux 53 1024 s (Z.pos (Pos.iter xO m d)) ez
                loc_Exact);
      try done; [by edestruct Hz|apply Hb; lia..].
Qed.

End binary64.

Lemma of_int_Ok n x :
  PyFloat.of_int n = Ok x →
  match x with
  | S754_zero _ => True
  | S754_finite _ m e =>
      (e ≤ 971 ∧ Z.pos m < 2 ^ 53 ∧ 2 ^ (- e) ≤ Z.pos m)%Z
  | _ => False
  end.
Proof.
  unfold PyFloat.of_int, binary_normalize, PyFloat.prec, PyFloat.emax.
  destruct n as [|m|m].
  - by intros [= <-].
  - pose proof (binary_round_int false m) as Hr.
    destruct (binary_round 53 1024 false m 0); try done; by intros [= <-].
  - pose proof (binary_round_int true m) as Hr.
    destruct (binary_round 53 1024 true m 0); try done; by intros [= <-].
Qed.

Lemma of_int_total n :
  (Z.abs n ≤ 2 ^ 1023)%Z →
  ∃ x, PyFloat.of_int n = Ok x
       ∧ PyFloat.is_finite x = true
       ∧ (n ≠ 0%Z → PyFloat.truthy x = true).
Proof.
  intros Hn.
  unfold PyFloat.of_int, binary_normalize, PyFloat.prec, PyFloat.emax.
  destruct n as [|m|m].
  - by eexists.
  - pose proof (binary_round_int_small false m ltac:(lia)) as Hr.
    destruct (binary_round 53 1024 false m 0); try done. by eexists.
  - pose proof (binary_round_int_small true m ltac:(lia)) as Hr.
    destruct (binary_round 53 1024 true m 0); try done. by eexists.
Qed.

(** The quotient [(x / 2.0) / sr] of an integer [x] and a sample rate of
    magnitude 1 or more is a finite float: the cue arithmetic neither
    overflows nor yields a NaN. *)
Lemma cue_seconds_finite p sr x :
  at_least_one sr → PyFloat.of_int p = Ok x →
  PyFloat.is_finite
    (SFdiv PyFloat.prec PyFloat.emax
       (SFdiv PyFloat.prec PyFloat.emax x PyFloat.two) sr) = true.
Proof.
  intros Hsr Hx%of_int_Ok. unfold PyFloat.prec, PyFloat.emax, PyFloat.two.
  destruct sr as [| | |ss ms es]; try done. cbn in Hsr.
  assert (small (SFdiv 53 1024 x (S754_finite false 4503599627370496 (-51))))
    as Hhalf.
  { destruct x as [sx| | |sx mx ex]; try done.
    destruct Hx as (Hex & Hmx & _).
    assert (Z.pos mx < 2 ^ (1024 - ex))%Z as Hlt.
    { eapply Z.lt_le_trans; [apply Hmx|]. apply pow2_le; lia. }
    pose proof (SFdiv_bound sx mx ex false 4503599627370496 (-51) 1024 1
                  eq_refl ltac:(lia) ltac:(lia) ltac:(by compute)) as Hb.
    destruct (SFdiv 53 1024 (S754_finite sx mx ex)
                (S754_finite false 4503599627370496 (-51))); try done.
    destruct Hb as [He Hm]. split; [done|]. by apply Hm. }
  destruct (SFdiv 53 1024 x (S754_finite false 4503599627370496 (-51)))
    as [sh| | |sh mh eh]; try done.
  cbn in Hhalf. destruct Hhalf as [Heh Hmh].
  pose proof (SFdiv_bound sh mh eh ss ms es 1023 0
                eq_refl ltac:(lia) Hmh Hsr) as Hb.
  by destruct (SFdiv 53 1024 (S754_finite sh mh eh) (S754_finite ss ms es)).
Qed.

(** ** The order of floats

    [<] never holds both ways, and a float that is not NaN is comparable
    with every other one: the floats that are not NaN are weakly ordered. *)




(** ** The shape of the document *)

Lemma read_list_subseteq (h h' : heap) r :
  h ⊆ h' → is_Some (h !! r) → read_list r h' = read_list r h.
Proof.
  intros Hsub [l Hl]. unfold read_list. rewrite !lookup_total_alt.
  by rewrite Hl, (lookup_weaken _ _ _ _ Hl Hsub).
Qed.

Lemma new_list_subseteq l (h : heap) : h ⊆ (new_list l h).2.
Proof.
  unfold new_list. simpl. apply insert_subseteq.
  apply not_elem_of_dom, is_fresh.
Qed.

Lemma read_new_list l (h : heap) :
  read_list (new_list l h).1 (new_list l h).2 = l.
Proof.
  unfold new_list, read_list. simpl.
  by rewrite lookup_total_insert_eq.
Qed.

Lemma playlist_node_spec td pm so name data (h : heap) :
  (playlist_node td pm so (name, data) h).1
    = node_of td pm so name (read_list (tracks data) h)
  ∧ h ⊆ (playlist_node td pm so (name, data) h).2.
Proof.
  unfold playlist_node, node_of, node_order.
  destruct (negb pm && sort_requested so).
  - destruct (new_list _ h) as [r h'] eqn:Hnew. simpl.
    pose proof (read_new_list
      (sorted PyFloat.lt (bpm_key td) (bool_decide (so = Some "desc"))
         (read_list (tracks data) h)) h) as Hread.
    pose proof (new_list_subseteq
      (sorted PyFloat.lt (bpm_key td) (bool_decide (so = Some "desc"))
         (read_list (tracks data) h)) h) as Hsub.
    rewrite Hnew in Hread, Hsub. simpl in *. by rewrite Hread.
  - done.
Qed.

Lemma playlist_nodes_cons td pm so item items (h : heap) :
  playlist_nodes td pm so (item :: items) h
  = let r := playlist_node td pm so item h in
    let rs := playlist_nodes td pm so items r.2 in
    (r.1 :: rs.1, rs.2).
Proof.
  cbn [playlist_nodes]. cbv zeta.
  destruct (playlist_node td pm so item h) as [node h1]. cbn [fst snd].
  by destruct (playlist_nodes td pm so items h1).
Qed.

Lemma playlist_nodes_spec td pm so items (h : heap) :
  h ⊆ (playlist_nodes td pm so items h).2
  ∧ (Forall (λ item, is_Some (h !! tracks item.2)) items →
     (playlist_nodes td pm so items h).1
     = (λ item, node_of td pm so item.1 (read_list (tracks item.2) h))
       <$> items).
Proof.
  revert h. induction items as [|[name data] items IH]; intros h.
  - done.
  - rewrite playlist_nodes_cons.
    destruct (playlist_node_spec td pm so name data h) as [Hnode Hsub].
    destruct (playlist_node td pm so (name, data) h) as [node h1].
    destruct (IH h1) as [Hsub1 Hnodes].
    cbn [fst snd] in *. split; [by etrans|].
    intros [Hd Hitems]%Forall_cons. rewrite Hnode, Hnodes.
    + rewrite fmap_cons. f_equal. apply Forall_fmap_ext.
      eapply Forall_impl; [done|]. intros item Hitem. cbn beta.
      f_equal. by apply read_list_subseteq.
    + eapply Forall_impl; [done|]. intros item [l Hl]. exists l.
      by eapply lookup_weaken.
Qed.

(** ** Sorted items of a dictionary *)

Lemma sorted_items_Z_perm {V} (m : gmap Z V) :
  sorted_items_Z m ≡ₚ map_to_list m.
Proof. apply sorted_perm. Qed.

Lemma sorted_items_Z_elem {V} (m : gmap Z V) k v :
  (k, v) ∈ sorted_items_Z m ↔ m !! k = Some v.
Proof. by rewrite sorted_items_Z_perm, elem_of_map_to_list. Qed.

Lemma sorted_items_Z_keys {V} (m : gmap Z V) k :
  k ∈ (sorted_items_Z m).*1 ↔ is_Some (m !! k).
Proof.
  rewrite list_elem_of_fmap. split.
  - intros ([k' v] & -> & Hin). apply sorted_items_Z_elem in Hin. eauto.
  - intros [v Hv]. exists (k, v). by rewrite sorted_items_Z_elem.
Qed.

Lemma sorted_items_Z_length {V} (m : gmap Z V) :
  length (sorted_items_Z m) = size m.
Proof. by rewrite sorted_items_Z_perm, length_map_to_list. Qed.

Lemma sorted_items_Z_ascending {V} (m : gmap Z V) :
  StronglySorted Z.lt (sorted_items_Z m).*1.
Proof.
  assert (NoDup (sorted_items_Z m).*1) as Hnd.
  { rewrite sorted_items_Z_perm. apply NoDup_fst_map_to_list. }
  assert (StronglySorted (not_after Z.ltb fst) (sorted_items_Z m)) as Hs.
  { apply (sorted_ascending Z.ltb fst (λ _, True)); [lia..|].
    by apply Forall_true. }
  induction Hs as [|x l Hs IH Hx]; simpl; [constructor|].
  apply NoDup_cons in Hnd as [Hx' Hnd]. constructor; [by apply IH|].
  rewrite Forall_fmap. rewrite Forall_forall in Hx |- *.
  intros y Hy. specialize (Hx y Hy). unfold not_after in Hx. simpl.
  assert (x.1 ≠ y.1); [|lia].
  intros Heq. apply Hx'. rewrite Heq. by apply list_elem_of_fmap_2.
Qed.

Lemma sorted_items_str_perm {V} (m : gmap string V) :
  sorted_items_str m ≡ₚ map_to_list m.
Proof. apply sorted_perm. Qed.

Lemma sorted_items_str_elem {V} (m : gmap string V) k v :
  (k, v) ∈ sorted_items_str m ↔ m !! k = Some v.
Proof. by rewrite sorted_items_str_perm, elem_of_map_to_list. Qed.

(** ** What [build_xml] returns *)

Lemma build_xml_Ok td cols pm so (h : heap) doc h' :
  build_xml td cols pm so h = (Ok doc, h') →
  ∃ track_nodes,
    for_each track_element (sorted_items_Z td) = Ok track_nodes
    ∧ doc = document (size td) (size cols) track_nodes
              (playlist_nodes td pm so (sorted_items_str cols) h).1
    ∧ h' = (playlist_nodes td pm so (sorted_items_str cols) h).2.
Proof.
  unfold build_xml.
  destruct (for_each track_element (sorted_items_Z td)) as [tn|e];
    [|discriminate].
  destruct (playlist_nodes td pm so (sorted_items_str cols) h) as [nodes h1].
  intros [= <- <-]. by exists tn.
Qed.

Lemma build_xml_Raise td cols pm so (h : heap) e :
  for_each track_element (sorted_items_Z td) = Raise e ↔
  build_xml td cols pm so h = (Raise e, h).
Proof.
  unfold build_xml.
  destruct (for_each track_element (sorted_items_Z td)) as [tn|e'].
  - destruct (playlist_nodes td pm so (sorted_items_str cols) h).
    split; discriminate.
  - split; congruence.
Qed.

Lemma build_xml_total td cols pm so (h : heap) :
  is_Ok (for_each track_element (sorted_items_Z td)) ↔
  is_Ok (build_xml td cols pm so h).1.
Proof.
  unfold build_xml.
  destruct (for_each track_element (sorted_items_Z td)) as [tn|e'].
  - destruct (playlist_nodes td pm so (sorted_items_str cols) h).
    split; intros _; by eexists.
  - simpl. split; intros [? ?]; discriminate.
Qed.

Lemma find_collection n m tn nodes :
  find "COLLECTION" (document n m tn nodes)
  = Some (Element "COLLECTION" [("Entries", pretty n)] tn).
Proof. reflexivity. Qed.

Lemma find_root n m tn nodes :
  find "PLAYLISTS" (document n m tn nodes) ≫= find "NODE"
  = Some (Element "NODE"
            [("Type", "0"); ("Name", "ROOT"); ("Count", pretty m)] nodes).
Proof. reflexivity. Qed.

(** ** One track *)

Lemma track_element_Ok tid data node :
  track_element (tid, data) = Ok node →
  ∃ loc total ab sr cs marks,
    quote_value (get_default (location data) "") = Ok loc
    ∧ PyFloat.round (or_ PyFloat.truthy (get (duration data)) PyFloat.zero)
      = Ok total
    ∧ format_value 2 (get_default (bpm data) PyFloat.zero) = Ok ab
    ∧ samplerate_of data = Ok sr
    ∧ sorted_value (get_default (cues data) []) = Ok cs
    ∧ for_each (position_mark sr) cs = Ok marks
    ∧ node = Element "TRACK"
               (track_attribs tid data ("file://localhost" +:+ loc)
                  (pretty total) ab)
               marks.
Proof.
  unfold track_element.
  destruct (quote_value _) as [loc|]; [|discriminate].
  destruct (PyFloat.round _) as [total|]; [|discriminate].
  destruct (format_value _ _) as [ab|]; [|discriminate].
  destruct (samplerate_of _) as [sr|]; [|discriminate].
  destruct (sorted_value _) as [cs|]; [|discriminate]. cbn.
  destruct (for_each _ cs) as [marks|] eqn:Hmarks; [|discriminate]. cbn.
  intros [= <-]. by exists loc, total, ab, sr, cs, marks.
Qed.

Lemma track_element_null_bpm tid data :
  bpm data = Null → ∃ e, track_element (tid, data) = Raise e.
Proof.
  intros Hbpm. unfold track_element. rewrite Hbpm.
  destruct (quote_value _); cbn; [|eauto].
  destruct (PyFloat.round _); cbn; eauto.
Qed.

Lemma position_mark_total sr p :
  PyFloat.truthy sr = true → (Z.abs p ≤ 2 ^ 1023)%Z →
  is_Ok (position_mark sr p).
Proof.
  intros Hsr (x & Hx & _)%of_int_total. unfold position_mark.
  rewrite Hx. cbn. destruct sr; try done; by eexists.
Qed.

Lemma samplerate_of_total data :
  (∀ n, samplerate data = Val n → (Z.abs n ≤ 2 ^ 1023)%Z) →
  ∃ sr, samplerate_of data = Ok sr ∧ PyFloat.truthy sr = true.
Proof.
  intros Hn. unfold samplerate_of, or_, or_else.
  destruct (samplerate data) as [| |n]; simpl; try by eexists.
  unfold int_truthy. destruct (Z.eqb_spec n 0) as [->|Hne]; simpl;
    [by eexists|].
  destruct (of_int_total n) as (sr & Hsr & _ & Ht); [by apply Hn|].
  exists sr. split; [done|]. by apply Ht.
Qed.

(** A renderable row gives a TRACK node. *)
Lemma track_element_total tid data :
  renderable data → is_Ok (track_element (tid, data)).
Proof.
  intros (Hloc & Hbpm & Hcues & Hdur & Hsr & Hps).
  assert (is_Ok (quote_value (get_default (location data) ""))) as [loc Hq].
  { destruct (location data); try done; by eexists. }
  assert (is_Ok (PyFloat.round
            (or_ PyFloat.truthy (get (duration data)) PyFloat.zero)))
    as [total Hr].
  { unfold or_, or_else. destruct (duration data) as [| |x] eqn:Hx; simpl;
      try (by eexists).
    specialize (Hdur x eq_refl). destruct x; try done; by eexists. }
  assert (is_Ok (format_value 2 (get_default (bpm data) PyFloat.zero)))
    as [ab Hf].
  { destruct (bpm data); try done; by eexists. }
  destruct (samplerate_of_total data Hsr) as (sr & Hs & Ht).
  assert (∃ cs, sorted_value (get_default (cues data) []) = Ok cs
                ∧ Forall (λ p, (Z.abs p ≤ 2 ^ 1023)%Z) cs)
    as (cs & Hc & Hcs).
  { destruct (cues data) as [| |l] eqn:Hl; [|done|];
      unfold sorted_value, get_default.
    - eexists. split; [done|]. constructor.
    - eexists. split; [done|]. apply Forall_forall. intros p Hp.
      apply (Hps l); [done|]. by rewrite sorted_perm in Hp. }
  assert (is_Ok (for_each (position_mark sr) cs)) as [marks Hm].
  { apply for_each_total. eapply Forall_impl; [done|].
    intros p Hp. by apply position_mark_total. }
  unfold track_element. rewrite Hq. simpl. rewrite Hr. simpl.
  rewrite Hf. simpl. rewrite Hs. simpl. rewrite Hc. simpl.
  rewrite Hm. simpl. by eexists.
Qed.

(** [build_xml] returns a document whenever every row of the mapping is
    renderable, whatever the collections hold. *)
Lemma build_xml_returns td cols pm so (h : heap) :
  map_Forall (λ _ data, renderable data) td →
  is_Ok (build_xml td cols pm so h).1.
Proof.
  intros Htd. apply build_xml_total, for_each_total, Forall_forall.
  intros [tid data] Hin%sorted_items_Z_elem.
  apply track_element_total. by apply (Htd tid).
Qed.

(** The [TRACK] node of a track of the mapping. *)
Lemma build_xml_track td cols pm so (h : heap) doc h' tid data :
  build_xml td cols pm so h = (Ok doc, h') →
  td !! tid = Some data →
  ∃ coll node,
    find "COLLECTION" doc = Some coll
    ∧ node ∈ children_of coll
    ∧ track_element (tid, data) = Ok node.
Proof.
  intros (tn & Htn & -> & _)%build_xml_Ok Htid.
  apply for_each_Ok in Htn.
  apply sorted_items_Z_elem, list_elem_of_lookup in Htid as [i Hi].
  destruct (Forall2_lookup_l _ _ _ _ _ Htn Hi) as (node & Hnode & Hel).
  eexists _, node. split; [apply find_collection|].
  split; [|done]. simpl. by eapply list_elem_of_lookup_2.
Qed.

(** The playlist [NODE]s of the document: one per item of
    [sorted(collections.items())], in that order. *)
Lemma build_xml_nodes td cols pm so (h : heap) doc h' :
  build_xml td cols pm so h = (Ok doc, h') →
  heap_ok cols h →
  ∃ root,
    find "PLAYLISTS" doc ≫= find "NODE" = Some root
    ∧ children_of root
      = (λ item, node_of td pm so item.1 (read_list (tracks item.2) h))
        <$> sorted_items_str cols.
Proof.
  intros (tn & _ & -> & _)%build_xml_Ok Hok.
  eexists. split; [apply find_root|]. simpl.
  apply playlist_nodes_spec. apply Forall_forall.
  intros [name data] Hin%sorted_items_str_elem. by apply (Hok name).
Qed.

Lemma build_xml_heap td cols pm so (h : heap) :
  h ⊆ (build_xml td cols pm so h).2.
Proof.
  unfold build_xml.
  destruct (for_each track_element (sorted_items_Z td)); [|done].
  pose proof (playlist_nodes_spec td pm so (sorted_items_str cols) h) as [? _].
  by destruct (playlist_nodes td pm so (sorted_items_str cols) h).
Qed.



(** ** Ordered dictionaries *)

Section odict_facts.
Context {K V : Type} `{EqDecision K}.
Implicit Types d : list (K * V).

Lemma odict_keys_set k v d k' :
  k' ∈ odict.keys (odict.set k v d) ↔ k' = k ∨ k' ∈ odict.keys d.
Proof.
  unfold odict.keys. induction d as [|[k0 v0] d IH]; simpl.
  - set_solver.
  - case_decide; simpl; subst; set_solver.
Qed.

Lemma odict_get_is_Some k d : is_Some (odict.get k d) ↔ k ∈ odict.keys d.
Proof.
  unfold odict.keys. induction d as [|[k0 v0] d IH]; simpl.
  - rewrite is_Some_alt. set_solver.
  - case_decide; subst; [|set_solver].
    split; [set_solver|]. by eexists.
Qed.

Lemma odict_keys_alter (f : V → V) k d :
  odict.keys (odict.alter f k d) = odict.keys d.
Proof.
  unfold odict.keys. induction d as [|[k0 v0] d IH]; simpl; [done|].
  case_decide; simpl; [done|]. f_equal. exact IH.
Qed.

Lemma odict_keys_foldl_set {A} (f : A → K) (g : A → V) l d k :
  k ∈ odict.keys (foldl (λ d x, odict.set (f x) (g x) d) d l)
  ↔ k ∈ odict.keys d ∨ ∃ x, x ∈ l ∧ f x = k.
Proof.
  revert d. induction l as [|x l IH]; intros d; simpl.
  - set_solver.
  - rewrite IH, odict_keys_set. set_solver.
Qed.

End odict_facts.

(** * The properties of the specification *)

(** ** C1: AverageBpm *)

(** The attribute of a track that has a bpm is the bpm under ['.2f']. *)
Lemma average_bpm_of_float tid data node :
  track_element (tid, data) = Ok node →
  ∃ x, get_default (bpm data) PyFloat.zero = Some x
       ∧ attr "AverageBpm" node = Some (PyFloat.format_f 2 x).
Proof.
  intros (loc & total & ab & sr & cs & marks & _ & _ & Hab & _ & _ & _ & ->)
    %track_element_Ok.
  destruct (get_default (bpm data) PyFloat.zero) as [x|]; [|discriminate].
  injection Hab as <-. by exists x.
Qed.

(** A row that [get_track_details] loaded has its bpm key: the default of
    [data.get('bpm', 0.0)] never stands in for it. *)
Lemma loaded_bpm_present conn ids log td tid data :
  (get_track_details conn ids log).1 = Ok td →
  td !! tid = Some data → bpm data ≠ Missing.
Proof.
  set (I := λ td : gmap Z track, map_Forall (λ _ d, bpm d ≠ Missing) td).
  assert (∀ rows td0, I td0 → I (foldl add_row td0 rows)) as Hrows.
  { induction rows as [|row rows IH]; intros td0 H0; simpl; [done|].
    apply IH. unfold add_row. apply map_Forall_insert_2; [|done].
    simpl. by destruct (row_bpm row). }
  assert (∀ rows td0, I td0 → I (foldl add_cue td0 rows)) as Hcues.
  { induction rows as [|[t pos] rows IH]; intros td0 H0; simpl; [done|].
    apply IH. intros k d. rewrite lookup_alter_Some.
    intros [(_ & d' & Hd' & ->)|[_ Hd]]; [|by apply (H0 k)].
    simpl. by apply (H0 k). }
  assert (I ∅) as Hempty by apply map_Forall_empty.
  unfold get_track_details, mbind, db_bind, try_sqlite, execute.
  case_decide.
  { intros [= <-] Hl. by rewrite lookup_empty in Hl. }
  destruct (library_rows conn (elements ids)) as [rows|]; simpl.
  - destruct (cues_rows conn (elements ids)) as [crows|]; simpl;
      intros [= <-] Hl.
    + by apply (Hcues crows _ (Hrows rows ∅ Hempty) tid).
    + by apply (Hrows rows ∅ Hempty tid).
  - intros [= <-] Hl. by rewrite lookup_empty in Hl.
Qed.

Example average_bpm_128_5 : PyFloat.format_f 2 Demo.f128_5 = "128.50".
Proof. vm_compute. reflexivity. Qed.

(** The default [0.0] of [data.get('bpm', 0.0)] serves an absent key. *)
Example average_bpm_missing :
  format_value 2 (get_default (@Missing float) PyFloat.zero) = Ok "0.00".
Proof. vm_compute. reflexivity. Qed.

(** C1 (the code departs from it).  A track whose bpm is None does not
    render [AverageBpm="0.00"]: [data.get('bpm', 0.0)] is None, formatting
    None with ['.2f'] raises, and [build_xml] returns no document at all. *)
Theorem null_bpm_raises td cols pm so (h : heap) tid data :
  td !! tid = Some data →
  bpm data = Null →
  ∃ e, build_xml td cols pm so h = (Raise e, h).
Proof.
  intros Htid Hbpm.
  destruct (track_element_null_bpm tid data Hbpm) as [e He].
  apply sorted_items_Z_elem in Htid.
  destruct (for_each_Raise _ _ _ _ Htid He) as [e' He'].
  exists e'. by apply build_xml_Raise.
Qed.

Lemma null_bpm_raises_witness :
  ∃ e, build_xml Demo.null_bpm Demo.crates false None Demo.store
       = (Raise e, Demo.store).
Proof.
  apply (null_bpm_raises Demo.null_bpm Demo.crates false None Demo.store 1%Z
           (Demo.row Null (Val 44100%Z) [])); reflexivity.
Defined.

Example null_bpm_TypeError :
  build_xml Demo.null_bpm Demo.crates false None Demo.store
  = (Raise TypeError, Demo.store).
Proof. vm_compute. reflexivity. Qed.

(** ** C2: the COLLECTION element *)

(** C2.  The COLLECTION element has one TRACK node per track id of the
    mapping, in strictly ascending order of id, and its Entries attribute
    is the number of records of the mapping. *)
Theorem collection_tracks_ascending td cols pm so (h : heap) doc h' :
  build_xml td cols pm so h = (Ok doc, h') →
  ∃ coll ids,
    find "COLLECTION" doc = Some coll
    ∧ attr "Entries" coll = Some (pretty (size td))
    ∧ length (children_of coll) = size td
    ∧ Forall2 (λ t node, tag_of node = "TRACK"
                         ∧ attr "TrackID" node = Some (pretty t))
        ids (children_of coll)
    ∧ StronglySorted Z.lt ids
    ∧ ∀ t, t ∈ ids ↔ is_Some (td !! t).
Proof.
  intros (tn & Htn & -> & _)%build_xml_Ok.
  apply for_each_Ok in Htn.
  eexists _, (sorted_items_Z td).*1.
  split; [apply find_collection|]. split; [done|]. simpl.
  split; [by rewrite <-(Forall2_length _ _ _ Htn), sorted_items_Z_length|].
  split; [|split; [apply sorted_items_Z_ascending|apply sorted_items_Z_keys]].
  apply Forall2_fmap_l. eapply Forall2_impl; [done|].
  intros [tid data] node Hnode. simpl.
  by apply track_element_Ok
    in Hnode as (? & ? & ? & ? & ? & ? & _ & _ & _ & _ & _ & _ & ->).
Qed.

Lemma collection_tracks_ascending_witness :
  let r := build_xml Demo.details Demo.crates false (Some "asc") Demo.store in
  ∃ coll ids,
    find "COLLECTION" (Demo.returned r) = Some coll
    ∧ attr "Entries" coll = Some (pretty (size Demo.details))
    ∧ length (children_of coll) = size Demo.details
    ∧ Forall2 (λ t node, tag_of node = "TRACK"
                         ∧ attr "TrackID" node = Some (pretty t))
        ids (children_of coll)
    ∧ StronglySorted Z.lt ids
    ∧ ∀ t, t ∈ ids ↔ is_Some (Demo.details !! t).
Proof.
  intros r.
  apply (collection_tracks_ascending Demo.details Demo.crates false
           (Some "asc") Demo.store (Demo.returned r) r.2).
  vm_compute. reflexivity.
Defined.

(** ** C3: the crate sort by bpm *)

















(** The bpms 140, NaN and 100 are one run: none is below the one before
    it. *)
Example nan_crate_is_run :
  Forall2 (λ a b, SFltb (bpm_of Demo2.details_nan b)
                    (bpm_of Demo2.details_nan a) = false)
    [5; 2]%Z [2; 9]%Z.
Proof. repeat constructor. Qed.

(** The crate [5, 2, 9] with bpms 120, 140 and 100, sorted ascending. *)
Example crate_sorted_ascending :
  bpm_of Demo.details <$> [5; 2; 9]%Z = Demo.fl <$> [120; 140; 100]%Z
  ∧ ∃ root,
      find "PLAYLISTS"
        (Demo.returned
           (build_xml Demo.details Demo.crates false (Some "asc") Demo.store))
        ≫= find "NODE" = Some root
      ∧ (λ node, attr "Key" <$> children_of node) <$> children_of root
        = [[Some "9"; Some "5"; Some "2"]].
Proof. split; [|eexists; split]; vm_compute; reflexivity. Qed.

(** ** C4: the stored order *)



(** ** C5: cue marks *)

Lemma of_int_binary64 n x : PyFloat.of_int n = Ok x → x = to_binary64 n.
Proof.
  unfold PyFloat.of_int, to_binary64, PyFloat.prec, PyFloat.emax.
  by destruct (binary_normalize 53 1024 n 0 false); intros [= <-].
Qed.

Lemma samplerate_of_binary64 data sr :
  samplerate_of data = Ok sr →
  sr = to_binary64 (sample_rate data)
  ∧ (sr = PyFloat.f44100 ∨ ∃ n, PyFloat.of_int n = Ok sr).
Proof.
  unfold samplerate_of, sample_rate, or_, or_else.
  destruct (samplerate data) as [| |n]; simpl;
    try (by intros [= <-]; split; [|left]).
  unfold int_truthy. destruct (Z.eqb_spec n 0) as [->|Hn]; simpl.
  - intros [= <-]. split; [done|by left].
  - intros Hsr. rewrite bool_decide_false by done.
    split; [by apply of_int_binary64|eauto].
Qed.

Lemma digit_char_decimal k :
  (0 ≤ k < 10)%Z → PyFloat.digit_char k = decimal_digit k.
Proof.
  intros Hk.
  assert (k = 0 ∨ k = 1 ∨ k = 2 ∨ k = 3 ∨ k = 4 ∨ k = 5 ∨ k = 6 ∨ k = 7
          ∨ k = 8 ∨ k = 9)%Z as Hcases by lia.
  repeat (destruct Hcases as [-> | Hcases]; [done|]). by subst k.
Qed.

Lemma fixed_three_decimals n :
  (0 ≤ n)%Z → PyFloat.fixed 3 n = three_decimals n.
Proof.
  intros Hn. unfold PyFloat.fixed, three_decimals.
  change (10 ^ Z.of_nat 3)%Z with 1000%Z. f_equal.
  cbn [PyFloat.frac_digits].
  assert (n mod 1000 / 10 / 10 mod 10 = n / 100 mod 10)%Z as -> by
    (Z.div_mod_to_equations; lia).
  assert (n mod 1000 / 10 mod 10 = n / 10 mod 10)%Z as -> by
    (Z.div_mod_to_equations; lia).
  assert (n mod 1000 mod 10 = n mod 10)%Z as -> by
    (Z.div_mod_to_equations; lia).
  rewrite !digit_char_decimal by (apply Z.mod_pos_bound; lia).
  reflexivity.
Qed.

Lemma scaled_round_thousandths s m e :
  thousandths (S754_finite s m e) (PyFloat.scaled_round 3 m e).
Proof.
  split; [apply scaled_round_nonneg|].
  unfold numerator, denominator, PyFloat.scaled_round.
  change (10 ^ Z.of_nat 3)%Z with 1000%Z.
  destruct e as [|p|p].
  - change (Z.max 0 (- 0)) with 0%Z. change (Z.max 0 0) with 0%Z.
    rewrite Z.pow_0_r. split; [lia|intros; exfalso; lia].
  - change (Z.max 0 (- Z.pos p)) with 0%Z.
    change (Z.max 0 (Z.pos p)) with (Z.pos p). rewrite Z.pow_0_r.
    assert (0 < 2 ^ Z.pos p)%Z by (apply Z.pow_pos_nonneg; lia).
    split; [lia|intros; exfalso; lia].
  - change (Z.max 0 (- Z.neg p)) with (Z.pos p).
    change (Z.max 0 (Z.neg p)) with 0%Z. rewrite Z.pow_0_r.
    assert (0 < 2 ^ Z.pos p)%Z as Hd by (apply Z.pow_pos_nonneg; lia).
    pose proof (round_half_even_nearest (Z.pos m * 1000) (2 ^ Z.pos p) Hd)
      as Hnear.
    pose proof (round_half_even_tie (Z.pos m * 1000) (2 ^ Z.pos p) Hd) as Ht.
    split; [lia|]. intros Heq. apply Ht. lia.
Qed.

(** A finite float under ['.3f']: its sign and its thousandths. *)
Lemma format_f_thousandths x :
  PyFloat.is_finite x = true →
  ∃ n, thousandths x n
       ∧ PyFloat.format_f 3 x = minus_sign x +:+ three_decimals n.
Proof.
  destruct x as [s| | |s m e]; try done; intros _.
  - exists 0%Z. split; [done|]. by destruct s.
  - exists (PyFloat.scaled_round 3 m e).
    split; [apply scaled_round_thousandths|].
    cbn [PyFloat.format_f]. rewrite fixed_three_decimals
      by apply scaled_round_nonneg.
    by destruct s.
Qed.

Lemma position_mark_cue data sr p mark :
  samplerate_of data = Ok sr →
  position_mark sr p = Ok mark → is_cue_mark (sample_rate data) p mark.
Proof.
  intros [Hrate Hsr]%samplerate_of_binary64. unfold position_mark.
  destruct (PyFloat.of_int p) as [x|] eqn:Hx; [|discriminate]. cbn.
  assert (seconds p (sample_rate data)
          = SFdiv PyFloat.prec PyFloat.emax
              (SFdiv PyFloat.prec PyFloat.emax x PyFloat.two) sr) as Hsec.
  { unfold seconds. by rewrite <-Hrate, <-(of_int_binary64 p x Hx). }
  destruct sr as [| | |ss ms es]; cbn; try discriminate.
  - destruct Hsr as [?|[n Hn%of_int_Ok]]; done.
  - destruct Hsr as [?|[n Hn%of_int_Ok]]; done.
  - assert (at_least_one (S754_finite ss ms es)) as Hone.
    { destruct Hsr as [[= -> -> ->]|[n Hn%of_int_Ok]]; [by compute|].
      apply Hn. }
    intros [= <-]. split; [done|].
    pose proof (cue_seconds_finite p _ x Hone Hx) as Hfin.
    rewrite <-Hsec in Hfin.
    destruct (format_f_thousandths _ Hfin) as (n & Hn & Hfmt).
    exists n. split; [done|].
    unfold attr. cbn. by rewrite <-Hsec, Hfmt.
Qed.

Lemma sorted_value_Ok data cs :
  sorted_value (get_default (cues data) []) = Ok cs →
  cs ≡ₚ stored_cues data ∧ StronglySorted Z.le cs.
Proof.
  unfold stored_cues.
  assert (∀ l : list Z,
    sorted Z.ltb (λ p, p) false l ≡ₚ l
    ∧ StronglySorted Z.le (sorted Z.ltb (λ p, p) false l)) as Hsort.
  { intros l. split; [apply sorted_perm|].
    eapply StronglySorted_weaken;
      [|apply (sorted_ascending Z.ltb (λ p, p) (λ _, True));
        [lia..|by apply Forall_true]].
    unfold not_after. lia. }
  destruct (cues data) as [| |l]; simpl; [|discriminate|];
    intros [= <-]; [apply (Hsort [])|apply (Hsort l)].
Qed.

(** C5.  The children of a track's node are the POSITION_MARKs of its
    cue positions in ascending order of raw position.  The Start of the
    mark of the position [p] is [(p / 2.0) / sampleRate] seconds, computed
    in binary64 and written in thousandths, rounded to the nearest and
    with exactly three digits after the point; the sample rate is the
    track's own, or 44100 when that is null or zero. *)
Theorem cue_marks_ascending td cols pm so (h : heap) doc h' tid data :
  build_xml td cols pm so h = (Ok doc, h') →
  td !! tid = Some data →
  ∃ coll node cs,
    find "COLLECTION" doc = Some coll
    ∧ node ∈ children_of coll
    ∧ attr "TrackID" node = Some (pretty tid)
    ∧ cs ≡ₚ stored_cues data
    ∧ StronglySorted Z.le cs
    ∧ Forall2 (is_cue_mark (sample_rate data)) cs (children_of node).
Proof.
  intros Hb Htid.
  destruct (build_xml_track _ _ _ _ _ _ _ _ _ Hb Htid)
    as (coll & node & Hcoll & Hin & Hnode).
  apply track_element_Ok in Hnode
    as (loc & total & ab & sr & cs & marks & _ & _ & _ & Hsr & Hcs & Hmarks
        & ->).
  apply sorted_value_Ok in Hcs as [Hperm Hsorted].
  eexists coll, _, cs. do 5 (split; [done|]). simpl.
  apply for_each_Ok in Hmarks.
  eapply Forall2_impl; [done|]. intros p mark. by apply position_mark_cue.
Qed.

Lemma cue_marks_ascending_witness :
  let r := build_xml Demo.details Demo.crates false (Some "asc") Demo.store in
  let data := Demo.row (Val (Demo.fl 120)) (Val 44100%Z) [88200; 0; 44100]%Z in
  ∃ coll node cs,
    find "COLLECTION" (Demo.returned r) = Some coll
    ∧ node ∈ children_of coll
    ∧ attr "TrackID" node = Some (pretty 5%Z)
    ∧ cs ≡ₚ stored_cues data
    ∧ StronglySorted Z.le cs
    ∧ Forall2 (is_cue_mark (sample_rate data)) cs (children_of node).
Proof.
  intros r data.
  apply (cue_marks_ascending Demo.details Demo.crates false (Some "asc")
           Demo.store (Demo.returned r) r.2 5%Z data).
  - vm_compute. reflexivity.
  - reflexivity.
Defined.

(** A cue at raw position 88200 on a track with sample rate 44100: one
    second, written 1.000. *)
Example cue_88200 :
  seconds 88200 44100 = to_binary64 1
  ∧ thousandths (seconds 88200 44100) 1000
  ∧ minus_sign (seconds 88200 44100) +:+ three_decimals 1000 = "1.000"
  ∧ PyFloat.of_int 44100 = Ok (to_binary64 44100)
  ∧ position_mark (to_binary64 44100) 88200
    = Ok (Element "POSITION_MARK"
            [("Name", ""); ("Type", "0"); ("Start", "1.000"); ("Num", "-1")]
            []).
Proof.
  split; [vm_compute; reflexivity|].
  split; [vm_compute; split; [discriminate|]; split; [discriminate|done]|].
  repeat split; vm_compute; reflexivity.
Qed.

(** ** C6: the choice of names *)

Lemma all_db_items_keys rows n :
  n ∈ odict.keys (all_db_items rows) ↔ n ∈ rows.*2.
Proof.
  unfold all_db_items.
  rewrite (odict_keys_foldl_set (λ row : Z * string, row.2) (λ row, row.1)).
  rewrite list_elem_of_fmap. unfold odict.keys. set_solver.
Qed.

Lemma final_names_selected rows inc exc n :
  n ∈ final_names (all_db_items rows) inc exc ↔ selected rows inc exc n.
Proof.
  unfold final_names, selected. destruct inc as [names|].
  - rewrite list_elem_of_filter, odict_get_is_Some, all_db_items_keys.
    tauto.
  - destruct exc as [[|e es]|]; simpl;
      rewrite ?list_elem_of_filter, all_db_items_keys; tauto.
Qed.

(** Every name kept is a key of [all_db_items]: the subscript
    [all_db_items[name]] finds it. *)
Lemma final_names_known rows inc exc n :
  n ∈ final_names (all_db_items rows) inc exc →
  is_Some (odict.get n (all_db_items rows)).
Proof.
  intros [Hn _]%final_names_selected.
  by apply odict_get_is_Some, all_db_items_keys.
Qed.

Lemma add_member_keys id_to_name rows acc :
  odict.keys (foldl (add_member id_to_name) acc rows).1 = odict.keys acc.1.
Proof.
  revert acc. induction rows as [|[fk tid] rows IH]; intros [cd ids];
    simpl; [done|].
  rewrite IH. destruct (odict.get fk id_to_name) as [name|]; [|done].
  destruct (str_truthy name); [|done]. apply odict_keys_alter.
Qed.

(** C6.  When the names query answers, [get_collections] returns without
    error a dictionary whose keys are exactly the names kept: the include
    names that are in the database when include names are given; else the
    database names not excluded when the exclude list is given and not
    empty; else every database name.  When no name is kept it returns the
    empty dictionary and the empty id set. *)
Theorem names_kept conn inc exc m rows log :
  names_rows conn m = Some rows →
  ∃ cd ids log',
    get_collections conn inc exc m log = (Ok (cd, ids), log')
    ∧ (∀ n, n ∈ odict.keys cd ↔ selected rows inc exc n)
    ∧ ((∀ n, ¬ selected rows inc exc n) → cd = [] ∧ ids = ∅).
Proof.
  intros Hrows.
  unfold get_collections, mbind, db_bind, try_sqlite, execute.
  rewrite Hrows.
  pose proof (final_names_selected rows inc exc) as Hsel.
  destruct (final_names (all_db_items rows) inc exc) as [|n0 ns] eqn:Hfinal.
  { eexists [], ∅, _. split; [done|]. split; [|done].
    intros n. rewrite <-Hsel. set_solver. }
  set (collection_data :=
    foldl (λ d name,
             odict.set name
               {| coll_id := default 0%Z (odict.get name (all_db_items rows));
                  tracks := [] |} d) [] (n0 :: ns)).
  assert (∀ n, n ∈ odict.keys collection_data ↔ selected rows inc exc n)
    as Hkeys.
  { intros n. rewrite <-Hsel. unfold collection_data.
    rewrite (odict_keys_foldl_set (λ name : string, name)
               (λ name, {| coll_id := default 0%Z
                             (odict.get name (all_db_items rows));
                           tracks := @nil Z |})).
    unfold odict.keys. set_solver. }
  destruct (tracks_rows conn m (coll_id <$> odict.values collection_data))
    as [trows|].
  - simpl.
    destruct (foldl _ (collection_data, ∅) trows) as [cd ids] eqn:Hfold.
    eexists cd, ids, _. split; [done|].
    assert (odict.keys cd = odict.keys collection_data) as Hcd.
    { pose proof (add_member_keys
        (foldl (λ d item, odict.set (coll_id item.2) item.1 d) []
           collection_data) trows (collection_data, ∅)) as Hk.
      by rewrite Hfold in Hk. }
    split; [intros n; by rewrite Hcd|].
    intros Hnone. destruct (Hnone n0). apply Hsel. set_solver.
  - simpl. eexists collection_data, ∅, _. split; [done|].
    split; [done|].
    intros Hnone. destruct (Hnone n0). apply Hsel. set_solver.
Qed.

Lemma names_kept_witness :
  ∃ cd ids log',
    get_collections Demo.conn (Some ["Ghost"; "House"]) None crates []
    = (Ok (cd, ids), log')
    ∧ (∀ n, n ∈ odict.keys cd
            ↔ selected [(1, "Techno"); (2, "House")]%Z
                (Some ["Ghost"; "House"]) None n)
    ∧ ((∀ n, ¬ selected [(1, "Techno"); (2, "House")]%Z
                 (Some ["Ghost"; "House"]) None n) →
       cd = [] ∧ ids = ∅).
Proof.
  apply (names_kept Demo.conn (Some ["Ghost"; "House"]) None crates
           [(1, "Techno"); (2, "House")]%Z []).
  reflexivity.
Defined.

(** Asking for a name the database does not have. *)
Example include_ghost :
  get_collections Demo.conn (Some ["Ghost"]) None crates []
  = (Ok ([], ∅), [SelectNames crates]).
Proof. reflexivity. Qed.

(** ** C7: ids without metadata *)



(** With no metadata at all, every id is dangling and the document is
    built all the same. *)
Example dangling_only :
  ∃ root,
    find "PLAYLISTS"
      (Demo.returned (build_xml ∅ Demo.crates false (Some "asc") Demo.store77))
      ≫= find "NODE" = Some root
    ∧ (λ node, (λ child, (tag_of child, attr "Key" child))
                 <$> children_of node) <$> children_of root
      = [[("TRACK", Some "5"); ("TRACK", Some "77"); ("TRACK", Some "2");
          ("TRACK", Some "9")]].
Proof. eexists. split; vm_compute; reflexivity. Qed.

(** ** C8: partial results *)

Lemma last_elem_of {A} (l : list A) x : last l = Some x → x ∈ l.
Proof.
  intros Hl. apply last_Some in Hl as [l' ->]. set_solver.
Qed.

Lemma add_rows_last rows tid :
  foldl add_row ∅ rows !! tid
  = dict_of_row <$> last (filter (λ row, row_id row = tid) rows).
Proof.
  induction rows as [|row rows IH] using rev_ind; [done|].
  rewrite foldl_app, filter_app. simpl. unfold add_row at 1.
  rewrite filter_cons, filter_nil.
  destruct (decide (row_id row = tid)) as [<-|Hne].
  - by rewrite lookup_insert_eq, last_snoc.
  - by rewrite lookup_insert_ne, app_nil_r.
Qed.

(** C8.  For an empty id set [get_track_details] returns the empty
    mapping and issues no query.  When the metadata query fails, it returns
    the empty mapping.  When the metadata query answers and the cue query
    fails, it returns the records collected from the metadata rows, under
    each id the record of the last row of that id, each with the cue list
    it had when the query failed, which is empty.  A failed query is
    [sqlite3.Error]; in no case is it raised further. *)
Theorem partial_results conn track_ids log :
  let ids := elements track_ids in
  get_track_details conn ∅ log = (Ok ∅, log)
  ∧ (track_ids ≠ ∅ →
     library_rows conn ids = None →
     get_track_details conn track_ids log
     = (Ok ∅, log ++ [SelectLibrary ids]))
  ∧ ∀ rows,
      track_ids ≠ ∅ →
      library_rows conn ids = Some rows →
      cues_rows conn ids = None →
      ∃ td,
        get_track_details conn track_ids log
        = (Ok td, log ++ [SelectLibrary ids; SelectCues ids])
        ∧ (∀ tid,
             td !! tid
             = dict_of_row <$> last (filter (λ row, row_id row = tid) rows))
        ∧ (∀ row, row ∈ rows → is_Some (td !! row_id row))
        ∧ ∀ tid data, td !! tid = Some data → cues data = Val [].
Proof.
  intros ids. split; [|split].
  - unfold get_track_details. by rewrite decide_True.
  - intros Hne Hrows.
    unfold get_track_details, mbind, db_bind, try_sqlite, execute.
    fold ids. by rewrite decide_False, Hrows by done.
  - intros rows Hne Hrows Hcues.
    unfold get_track_details, mbind, db_bind, try_sqlite, execute.
    fold ids. rewrite decide_False, Hrows, Hcues by done. simpl.
    eexists. split; [by rewrite <-app_assoc|].
    split; [apply add_rows_last|]. split.
    + intros row Hin. rewrite add_rows_last, fmap_is_Some.
      destruct (last (filter (λ r, row_id r = row_id row) rows)) eqn:Hlast;
        [done|].
      apply last_None in Hlast.
      assert (row ∈ filter (λ r, row_id r = row_id row) rows) as Hf
        by by apply list_elem_of_filter.
      rewrite Hlast in Hf. by apply elem_of_nil in Hf.
    + intros tid data. rewrite add_rows_last.
      destruct (last _); [|done]. by intros [= <-].
Qed.

Lemma partial_results_witness :
  ∃ td,
    get_track_details Demo.conn {[5%Z]} []
    = (Ok td, [] ++ [SelectLibrary (elements ({[5%Z]} : gset Z));
                     SelectCues (elements ({[5%Z]} : gset Z))])
    ∧ (∀ tid,
         td !! tid
         = dict_of_row
           <$> last (filter (λ row, row_id row = tid) [Demo.library_row5]))
    ∧ (∀ row, row ∈ [Demo.library_row5] → is_Some (td !! row_id row))
    ∧ ∀ tid data, td !! tid = Some data → cues data = Val [].
Proof.
  apply (proj2 (proj2 (partial_results Demo.conn {[5%Z]} []))
           [Demo.library_row5]).
  - vm_compute. discriminate.
  - reflexivity.
  - reflexivity.
Defined.

(** The queries issued on the way to a partial result. *)
Example partial_results_log :
  (get_track_details Demo.conn {[5%Z]} []).2
  = [SelectLibrary [5%Z]; SelectCues [5%Z]].
Proof. vm_compute. reflexivity. Qed.

(** ** C9: falsy fields *)

Lemma str_or_falsy c d : falsy c → str (or_else int_truthy (get c) d) = d.
Proof. by intros [-> | [-> | ->]]. Qed.

Lemma str_or_truthy n d :
  n ≠ 0%Z → str (or_else int_truthy (get (Val n)) d) = pretty n.
Proof.
  intros Hn. unfold or_else, int_truthy. simpl.
  by destruct (Z.eqb_spec n 0).
Qed.

(** C9.  A year or track number that is 0 renders as the empty string and
    a file size, bit rate or sample rate that is 0 renders as ["0"], each
    exactly as None does; any other integer renders as its digits. *)
Theorem falsy_fields_render_as_null td cols pm so (h : heap) doc h' tid data :
  build_xml td cols pm so h = (Ok doc, h') →
  td !! tid = Some data →
  ∃ coll node,
    find "COLLECTION" doc = Some coll
    ∧ node ∈ children_of coll
    ∧ attr "TrackID" node = Some (pretty tid)
    ∧ (falsy (year data) → attr "Year" node = Some "")
    ∧ (falsy (tracknumber data) → attr "TrackNumber" node = Some "")
    ∧ (falsy (filesize data) → attr "Size" node = Some "0")
    ∧ (falsy (bitrate data) → attr "BitRate" node = Some "0")
    ∧ (falsy (samplerate data) → attr "SampleRate" node = Some "0")
    ∧ (∀ n, year data = Val n → n ≠ 0%Z →
            attr "Year" node = Some (pretty n)).
Proof.
  intros Hb Htid.
  destruct (build_xml_track _ _ _ _ _ _ _ _ _ Hb Htid)
    as (coll & node & Hcoll & Hin & Hnode).
  exists coll, node. do 2 (split; [done|]).
  apply track_element_Ok
    in Hnode as (? & ? & ? & ? & ? & ? & _ & _ & _ & _ & _ & _ & ->).
  unfold attr. simpl. split; [done|].
  repeat split; try (intros Hf; by rewrite (str_or_falsy _ _ Hf)).
  intros n -> Hn. by rewrite str_or_truthy.
Qed.

Lemma falsy_fields_render_as_null_witness :
  let r := build_xml Demo.details Demo.crates false (Some "asc") Demo.store in
  let data := Demo.row (Val (Demo.fl 140)) (Val 0%Z) [] in
  ∃ coll node,
    find "COLLECTION" (Demo.returned r) = Some coll
    ∧ node ∈ children_of coll
    ∧ attr "TrackID" node = Some (pretty 2%Z)
    ∧ (falsy (year data) → attr "Year" node = Some "")
    ∧ (falsy (tracknumber data) → attr "TrackNumber" node = Some "")
    ∧ (falsy (filesize data) → attr "Size" node = Some "0")
    ∧ (falsy (bitrate data) → attr "BitRate" node = Some "0")
    ∧ (falsy (samplerate data) → attr "SampleRate" node = Some "0")
    ∧ (∀ n, year data = Val n → n ≠ 0%Z →
            attr "Year" node = Some (pretty n)).
Proof.
  intros r data.
  apply (falsy_fields_render_as_null Demo.details Demo.crates false
           (Some "asc") Demo.store (Demo.returned r) r.2 2%Z data).
  - vm_compute. reflexivity.
  - reflexivity.
Defined.

(** ** C10: the collections are left as they were *)

(** C10.  Whatever [build_xml] returns or raises, every list the store
    held before the call it holds unchanged afterwards; so does each
    collection's ['tracks'] list, also when the bpm sort is applied. *)
Theorem collections_not_mutated td cols pm so (h : heap) name data :
  cols !! name = Some data →
  is_Some (h !! tracks data) →
  h ⊆ (build_xml td cols pm so h).2
  ∧ (build_xml td cols pm so h).2 !! tracks data = h !! tracks data
  ∧ read_list (tracks data) (build_xml td cols pm so h).2
    = read_list (tracks data) h.
Proof.
  intros _ [l Hl]. pose proof (build_xml_heap td cols pm so h) as Hsub.
  split; [done|]. split.
  - rewrite Hl. by eapply lookup_weaken.
  - apply read_list_subseteq; eauto.
Qed.

Lemma collections_not_mutated_witness :
  let h := Demo.store in
  let data := {| coll_id := 1; tracks := 1%positive |} in
  let h' := (build_xml Demo.details Demo.crates false (Some "asc") h).2 in
  h ⊆ h' ∧ h' !! tracks data = h !! tracks data
  ∧ read_list (tracks data) h' = read_list (tracks data) h.
Proof.
  intros h data h'.
  apply (collections_not_mutated Demo.details Demo.crates false (Some "asc")
           h "Techno" data).
  - reflexivity.
  - vm_compute. by eexists.
Defined.

(** * Further properties of the code *)

(** ** Ordered dictionaries, and [get_collections] *)

Section odict_more.
Context {K V : Type} `{EqDecision K}.
Implicit Types d : list (K * V).

Lemma odict_get_set k v d k' :
  odict.get k' (odict.set k v d)
  = if decide (k = k') then Some v else odict.get k' d.
Proof.
  induction d as [|[k0 v0] d IH]; simpl.
  - by repeat case_decide.
  - repeat (case_decide; simpl; subst); try done; congruence.
Qed.

Lemma odict_get_alter (f : V → V) k d k' :
  odict.get k' (odict.alter f k d)
  = if decide (k = k') then f <$> odict.get k d else odict.get k' d.
Proof.
  induction d as [|[k0 v0] d IH]; simpl.
  - by case_decide.
  - repeat (case_decide; simpl; subst); try done; congruence.
Qed.

Lemma odict_NoDup_set k v d :
  NoDup (odict.keys d) → NoDup (odict.keys (odict.set k v d)).
Proof.
  unfold odict.keys. induction d as [|[k0 v0] d IH]; simpl.
  - intros _. apply NoDup_singleton.
  - intros [Hk0 Hd]%NoDup_cons. case_decide; simpl; subst.
    + by apply NoDup_cons.
    + apply NoDup_cons. split; [|by apply IH].
      intros Hin. apply (odict_keys_set k v d k0) in Hin as [?|?]; done.
Qed.

Lemma odict_NoDup_foldl_set {A} (f : A → K) (g : A → V) l d :
  NoDup (odict.keys d) →
  NoDup (odict.keys (foldl (λ d x, odict.set (f x) (g x) d) d l)).
Proof.
  revert d. induction l as [|x l IH]; intros d Hd; simpl; [done|].
  by apply IH, odict_NoDup_set.
Qed.

Lemma odict_get_foldl_set {A} (f : A → K) (g : A → V) l d k v :
  odict.get k (foldl (λ d x, odict.set (f x) (g x) d) d l) = Some v →
  odict.get k d = Some v ∨ ∃ x, x ∈ l ∧ f x = k ∧ g x = v.
Proof.
  revert d. induction l as [|x l IH]; intros d; simpl; [by left|].
  intros [Hd|(y & Hy & Hf & Hg)]%IH.
  - rewrite odict_get_set in Hd. case_decide; [|by left].
    right. exists x. split; [left|]. naive_solver.
  - right. exists y. split; [by right|done].
Qed.

Lemma odict_elem_of_get k v d :
  NoDup (odict.keys d) → (k, v) ∈ d ↔ odict.get k d = Some v.
Proof.
  unfold odict.keys. induction d as [|[k0 v0] d IH]; simpl.
  - intros _. split; [by intros ?%elem_of_nil|done].
  - intros [Hk0 Hd]%NoDup_cons. rewrite elem_of_cons, IH by done.
    case_decide; subst.
    + split; [intros [[=]|Hg]; [by subst|]|intros [= ->]; by left].
      destruct Hk0. apply (odict_get_is_Some k d). by eexists.
    + split; [intros [[=]|Hg]; [by subst|done]|by right].
Qed.

Lemma odict_get_keys k v d : odict.get k d = Some v → k ∈ odict.keys d.
Proof. intros Hg. apply odict_get_is_Some. by eexists. Qed.

End odict_more.

Lemma NoDup_fst_agree {A B} (l : list (A * B)) x y1 y2 :
  NoDup l.*1 → (x, y1) ∈ l → (x, y2) ∈ l → y1 = y2.
Proof.
  induction l as [|[a b] l IH]; simpl.
  - by intros _ ?%elem_of_nil.
  - intros [Ha Hl]%NoDup_cons
      [[= -> ->]|H1]%elem_of_cons [[= ->]|H2]%elem_of_cons; try done.
    + destruct Ha. apply list_elem_of_fmap. by exists (a, y2).
    + subst. destruct Ha. apply list_elem_of_fmap. by exists (a, y1).
    + by apply IH.
Qed.

Lemma get_collections_run conn inc exc m log :
  get_collections conn inc exc m log
  = match names_rows conn m with
    | None => (Ok ([], ∅), log ++ [SelectNames m])
    | Some rows =>
        match final_names (all_db_items rows) inc exc with
        | [] => (Ok ([], ∅), log ++ [SelectNames m])
        | n :: ns =>
            let cd := new_collections (all_db_items rows) (n :: ns) in
            let item_ids := coll_id <$> odict.values cd in
            ((match tracks_rows conn m item_ids with
              | None => Ok (cd, ∅)
              | Some trows =>
                  Ok (foldl (add_member (id_to_name cd)) (cd, ∅) trows)
              end),
             (log ++ [SelectNames m]) ++ [SelectTracks m item_ids])
        end
    end.
Proof.
  unfold get_collections, mbind, db_bind, try_sqlite, execute.
  destruct (names_rows conn m) as [rows|]; [|done].
  destruct (final_names (all_db_items rows) inc exc) as [|n ns]; [done|].
  fold (new_collections (all_db_items rows) (n :: ns)).
  cbv zeta.
  by destruct (tracks_rows conn m _).
Qed.

Lemma all_db_items_get rows name i :
  odict.get name (all_db_items rows) = Some i → (i, name) ∈ rows.
Proof.
  unfold all_db_items.
  intros [?|([i' n'] & Hin & Hn & Hi)]%
    (odict_get_foldl_set (λ row : Z * string, row.2) (λ row, row.1));
    [done|].
  simpl in *. by subst.
Qed.

Lemma new_collections_get adi names name c :
  odict.get name (new_collections adi names) = Some c →
  name ∈ names
  ∧ c = {| coll_id := default 0%Z (odict.get name adi); tracks := [] |}.
Proof.
  unfold new_collections.
  intros [?|(n & Hin & -> & <-)]%
    (odict_get_foldl_set (λ name : string, name)
       (λ name, {| coll_id := default 0%Z (odict.get name adi);
                   tracks := @nil Z |}));
    done.
Qed.

Lemma new_collections_NoDup adi names :
  NoDup (odict.keys (new_collections adi names)).
Proof.
  unfold new_collections.
  apply (odict_NoDup_foldl_set (λ name : string, name)
           (λ name, {| coll_id := default 0%Z (odict.get name adi);
                       tracks := @nil Z |})).
  constructor.
Qed.

Lemma id_to_name_get cd i name :
  odict.get i (id_to_name cd) = Some name →
  ∃ c, (name, c) ∈ cd ∧ coll_id c = i.
Proof.
  unfold id_to_name.
  intros [?|([n c] & Hin & Hi & Hn)]%
    (odict_get_foldl_set
       (λ item : string * collection_of (list Z), coll_id item.2)
       (λ item, item.1));
    [done|].
  simpl in *. subst. by exists c.
Qed.

Lemma id_to_name_is_Some cd name c :
  (name, c) ∈ cd → is_Some (odict.get (coll_id c) (id_to_name cd)).
Proof.
  intros Hin. apply odict_get_is_Some. unfold id_to_name.
  apply (odict_keys_foldl_set
           (λ item : string * collection_of (list Z), coll_id item.2)
           (λ item, item.1)).
  right. by exists (name, c).
Qed.

Lemma picked_cons itn name fk tid rows :
  picked itn name ((fk, tid) :: rows)
  = (if decide (odict.get fk itn = Some name ∧ str_truthy name = true)
     then [tid] else []) ++ picked itn name rows.
Proof. unfold picked. rewrite filter_cons. simpl. by case_decide. Qed.

Lemma add_member_eq itn cd ids fk tid :
  add_member itn (cd, ids) (fk, tid)
  = match odict.get fk itn with
    | Some name =>
        if str_truthy name
        then (odict.alter (extend [tid]) name cd, {[tid]} ∪ ids)
        else (cd, ids)
    | None => (cd, ids)
    end.
Proof. reflexivity. Qed.

(** The loop over the membership rows, row by row. *)
Lemma add_member_fold itn trows cd ids :
  (∀ name,
     odict.get name (foldl (add_member itn) (cd, ids) trows).1
     = extend (picked itn name trows) <$> odict.get name cd)
  ∧ (∀ t, t ∈ (foldl (add_member itn) (cd, ids) trows).2
          ↔ t ∈ ids
            ∨ ∃ fk name, (fk, t) ∈ trows ∧ odict.get fk itn = Some name
                         ∧ str_truthy name = true).
Proof.
  revert cd ids. induction trows as [|[fk tid] trows IH]; intros cd ids.
  - split.
    + intros name. simpl. destruct (odict.get name cd) as [[i l]|]; [|done].
      unfold extend, picked. simpl. by rewrite app_nil_r.
    + intros t. simpl. split; [by left|].
      by intros [?|(? & ? & []%elem_of_nil & _)].
  - cbn [foldl]. rewrite add_member_eq.
    destruct (odict.get fk itn) as [nm|] eqn:Hfk;
      [destruct (str_truthy nm) eqn:Hnm|].
    1: destruct (IH (odict.alter (extend [tid]) nm cd) ({[tid]} ∪ ids))
         as [IHget IHids].
    2,3: destruct (IH cd ids) as [IHget IHids].
    all: clear IH.
    + split.
      * intros name. rewrite IHget, picked_cons, odict_get_alter.
        destruct (decide (nm = name)) as [->|Hne].
        -- rewrite decide_True by done.
           destruct (odict.get name cd) as [[i l]|]; [|done].
           unfold extend. simpl. by rewrite <-app_assoc.
        -- rewrite decide_False by naive_solver. done.
      * intros t. rewrite IHids, elem_of_union, elem_of_singleton. split.
        -- intros [[->|?]|(fk' & nm' & Hin & ? & ?)]; [|by left|].
           ++ right. exists fk, nm. split; [left|done].
           ++ right. exists fk', nm'. split; [by right|done].
        -- intros [?|(fk' & nm' & [[= -> ->]|Hin]%elem_of_cons & ? & ?)].
           ++ left. by right.
           ++ left. by left.
           ++ right. by exists fk', nm'.
    + split.
      * intros name. rewrite IHget, picked_cons.
        rewrite decide_False; [done|]. intros [Hg ?].
        rewrite Hfk in Hg. injection Hg as ->. congruence.
      * intros t. rewrite IHids. split.
        -- intros [?|(fk' & nm' & Hin & ? & ?)]; [by left|].
           right. exists fk', nm'. split; [by right|done].
        -- intros [?|(fk' & nm' & [[= -> ->]|Hin]%elem_of_cons & ? & ?)];
             [by left|congruence|].
           right. by exists fk', nm'.
    + split.
      * intros name. rewrite IHget, picked_cons.
        rewrite decide_False; [done|]. intros [? _]. congruence.
      * intros t. rewrite IHids. split.
        -- intros [?|(fk' & nm' & Hin & ? & ?)]; [by left|].
           right. exists fk', nm'. split; [by right|done].
        -- intros [?|(fk' & nm' & [[= -> ->]|Hin]%elem_of_cons & ? & ?)];
             [by left|congruence|].
           right. by exists fk', nm'.
Qed.

Lemma alter_extend_ids l k (d : list (string * collection_of (list Z))) :
  coll_id <$> odict.values (odict.alter (extend l) k d)
  = coll_id <$> odict.values d.
Proof.
  unfold odict.values. induction d as [|[k0 c0] d IH]; simpl; [done|].
  case_decide; simpl; [done|]. f_equal. exact IH.
Qed.

Lemma add_member_ids itn trows acc :
  coll_id <$> odict.values (foldl (add_member itn) acc trows).1
  = coll_id <$> odict.values acc.1.
Proof.
  revert acc. induction trows as [|[fk tid] trows IH]; intros [cd ids];
    [done|].
  cbn [foldl]. rewrite IH, add_member_eq.
  destruct (odict.get fk itn) as [nm|]; [|done].
  destruct (str_truthy nm); [|done]. apply alter_extend_ids.
Qed.

Lemma new_collections_keys adi names n :
  n ∈ odict.keys (new_collections adi names) ↔ n ∈ names.
Proof.
  unfold new_collections.
  rewrite (odict_keys_foldl_set (λ name : string, name)
             (λ name, {| coll_id := default 0%Z (odict.get name adi);
                         tracks := @nil Z |})).
  unfold odict.keys. set_solver.
Qed.

Lemma new_collections_nonempty adi n ns :
  new_collections adi (n :: ns) ≠ [].
Proof.
  intros Hnil. assert (n ∈ odict.keys (new_collections adi (n :: ns))) as Hn
    by (apply new_collections_keys; left).
  rewrite Hnil in Hn. by apply elem_of_nil in Hn.
Qed.

Lemma str_truthy_ne s : str_truthy s = true ↔ s ≠ "".
Proof. by destruct s. Qed.

(** ** More on [get_collections] *)

(** X1.  [get_collections] never raises and issues one or two queries: the
    names query, then, only when it returns collections, the membership
    query bound to the ids of exactly those collections, in their order. *)
Theorem get_collections_queries conn inc exc m log :
  ∃ cd ids qs,
    get_collections conn inc exc m log = (Ok (cd, ids), log ++ qs)
    ∧ (qs = [SelectNames m] ∧ cd = [] ∧ ids = ∅
       ∨ qs = [SelectNames m; SelectTracks m (coll_id <$> odict.values cd)]
         ∧ cd ≠ []).
Proof.
  rewrite get_collections_run.
  destruct (names_rows conn m) as [rows|];
    [|eexists _, _, _; split; [done|by left]].
  destruct (final_names (all_db_items rows) inc exc) as [|n ns];
    [eexists _, _, _; split; [done|by left]|].
  cbv zeta. set (cd := new_collections (all_db_items rows) (n :: ns)).
  pose proof (new_collections_nonempty (all_db_items rows) n ns) as Hne.
  fold cd in Hne.
  destruct (tracks_rows conn m (coll_id <$> odict.values cd)) as [trows|].
  - pose proof (add_member_ids (id_to_name cd) trows (cd, ∅)) as Hids.
    pose proof (add_member_keys (id_to_name cd) trows (cd, ∅)) as Hkeys.
    destruct (foldl (add_member (id_to_name cd)) (cd, ∅) trows)
      as [cd' ids'].
    cbn [fst] in *. eexists cd', ids', _. rewrite <-app_assoc. split; [done|].
    right. rewrite Hids. split; [done|].
    intros ->. destruct cd; [done|]. discriminate.
  - eexists cd, ∅, _. rewrite <-app_assoc. split; [done|]. by right.
Qed.

(** X2.  When the membership query fails, every selected collection is still
    returned, each with an empty track list, and the id set is empty. *)
Theorem membership_failure conn inc exc m rows log :
  names_rows conn m = Some rows →
  (∀ item_ids, tracks_rows conn m item_ids = None) →
  ∃ cd log',
    get_collections conn inc exc m log = (Ok (cd, ∅), log')
    ∧ (∀ n, n ∈ odict.keys cd ↔ selected rows inc exc n)
    ∧ Forall (λ item, tracks item.2 = []) cd.
Proof.
  intros Hrows Hfail. rewrite get_collections_run, Hrows.
  pose proof (final_names_selected rows inc exc) as Hsel.
  destruct (final_names (all_db_items rows) inc exc) as [|n0 ns] eqn:Hfinal.
  { eexists [], _. split; [done|]. split; [|done].
    intros n. rewrite <-Hsel. set_solver. }
  cbv zeta. rewrite Hfail. eexists _, _. split; [done|]. split.
  - intros n. by rewrite new_collections_keys, Hsel.
  - apply Forall_forall. intros [name c] Hin.
    apply odict_elem_of_get in Hin; [|apply new_collections_NoDup].
    by apply new_collections_get in Hin as [_ ->].
Qed.

Lemma membership_failure_witness :
  ∃ cd log',
    get_collections Demo2.conn_no_tracks None (Some ["House"]) crates []
    = (Ok (cd, ∅), log')
    ∧ (∀ n, n ∈ odict.keys cd
            ↔ selected [(1, "Techno"); (2, "House")]%Z None
                (Some ["House"]) n)
    ∧ Forall (λ item, tracks item.2 = []) cd.
Proof.
  apply (membership_failure Demo2.conn_no_tracks None (Some ["House"]) crates
           [(1, "Techno"); (2, "House")]%Z []); reflexivity.
Defined.

(** The result of a run whose two queries answered. *)
Lemma get_collections_members conn inc exc m log cd ids log' :
  get_collections conn inc exc m log = (Ok (cd, ids), log') →
  cd = [] ∧ ids = ∅
  ∨ ∃ rows cd0,
      names_rows conn m = Some rows
      ∧ cd0 = new_collections (all_db_items rows)
                (final_names (all_db_items rows) inc exc)
      ∧ log' = log ++ [SelectNames m;
                       SelectTracks m (coll_id <$> odict.values cd0)]
      ∧ match tracks_rows conn m (coll_id <$> odict.values cd0) with
        | Some trows =>
            (cd, ids) = foldl (add_member (id_to_name cd0)) (cd0, ∅) trows
        | None => cd = cd0 ∧ ids = ∅
        end.
Proof.
  rewrite get_collections_run.
  destruct (names_rows conn m) as [rows|]; [|intros [= <- <- _]; by left].
  destruct (final_names (all_db_items rows) inc exc) as [|n ns] eqn:Hfinal;
    [intros [= <- <- _]; by left|].
  cbv zeta. intros Hrun. right.
  exists rows, (new_collections (all_db_items rows) (n :: ns)).
  split; [done|]. split; [by rewrite Hfinal|].
  rewrite <-app_assoc in Hrun.
  destruct (tracks_rows conn m _) as [trows|]; injection Hrun as <- <-;
    [by destruct (foldl _ _ trows)|done].
Qed.

(** X3.  The id set returned is exactly the union of the track lists
    returned. *)
Theorem track_ids_are_union conn inc exc m log cd ids log' :
  get_collections conn inc exc m log = (Ok (cd, ids), log') →
  ∀ t, t ∈ ids ↔ ∃ name c, odict.get name cd = Some c ∧ t ∈ tracks c.
Proof.
  intros [[-> ->]|(rows & cd0 & Hrows & Hcd0 & _ & Hres)]
    %get_collections_members t.
  { split; [set_solver|]. by intros (? & ? & [=] & _). }
  assert (∀ name c, odict.get name cd0 = Some c → tracks c = []) as Hnil.
  { intros name c Hc. rewrite Hcd0 in Hc.
    by apply new_collections_get in Hc as [_ ->]. }
  destruct (tracks_rows conn m _) as [trows|]; cycle 1.
  { destruct Hres as [-> ->]. split; [set_solver|].
    intros (name & c & Hc & Ht). rewrite (Hnil _ _ Hc) in Ht.
    by apply elem_of_nil in Ht. }
  destruct (add_member_fold (id_to_name cd0) trows cd0 ∅) as [Hget Hids].
  rewrite <-Hres in Hget, Hids. cbn [fst snd] in *.
  rewrite Hids. split.
  - intros [?|(fk & name & Hin & Hfk & Hname)]; [set_solver|].
    destruct (id_to_name_get _ _ _ Hfk) as (c0 & Hc0 & _).
    apply odict_elem_of_get in Hc0;
      [|rewrite Hcd0; apply new_collections_NoDup].
    exists name, (extend (picked (id_to_name cd0) name trows) c0).
    split; [by rewrite Hget, Hc0|].
    simpl. rewrite (Hnil _ _ Hc0). simpl. unfold picked.
    apply list_elem_of_fmap. exists (fk, t). split; [done|].
    by apply list_elem_of_filter.
  - intros (name & c & Hc & Ht). right. rewrite Hget in Hc.
    destruct (odict.get name cd0) as [c0|] eqn:Hc0; [|done].
    injection Hc as <-. simpl in Ht. rewrite (Hnil _ _ Hc0) in Ht.
    simpl in Ht. unfold picked in Ht.
    apply list_elem_of_fmap in Ht as ([fk t'] & -> & Hin).
    apply list_elem_of_filter in Hin as [[Hfk Hname] Hin].
    by exists fk, name.
Qed.

Lemma track_ids_are_union_witness :
  get_collections Demo.conn None None crates []
  = (Ok ([("Techno", {| coll_id := 1%Z; tracks := [5; 2]%Z |});
          ("House", {| coll_id := 2%Z; tracks := [9]%Z |})],
         ({[5%Z; 2%Z; 9%Z]} : gset Z)),
     [SelectNames crates; SelectTracks crates [1; 2]%Z])
  ∧ ∀ t, t ∈ ({[5%Z; 2%Z; 9%Z]} : gset Z)
         ↔ ∃ name c,
             odict.get name
               [("Techno", {| coll_id := 1%Z; tracks := [5; 2]%Z |});
                ("House", {| coll_id := 2%Z; tracks := [9]%Z |})] = Some c
             ∧ t ∈ tracks c.
Proof.
  split; [vm_compute; reflexivity|].
  apply (track_ids_are_union Demo.conn None None crates []
           [("Techno", {| coll_id := 1%Z; tracks := [5; 2]%Z |});
            ("House", {| coll_id := 2%Z; tracks := [9]%Z |})]
           ({[5%Z; 2%Z; 9%Z]} : gset Z)
           [SelectNames crates; SelectTracks crates [1; 2]%Z]).
  vm_compute. reflexivity.
Defined.

Lemma all_db_items_last rows name i :
  odict.get name (all_db_items rows) = Some i
  ↔ last (filter (λ row, row.2 = name) rows) = Some (i, name).
Proof.
  unfold all_db_items. induction rows as [|[i' n'] rows IH] using rev_ind.
  - done.
  - rewrite foldl_app, filter_app. simpl.
    rewrite odict_get_set, filter_cons, filter_nil. simpl.
    case_decide as Hn; subst.
    + rewrite last_snoc. naive_solver.
    + by rewrite app_nil_r.
Qed.

(** A run that returned collections, seen from one of them: the entry the
    comprehension made for it and what the loop appended. *)
Lemma get_collections_entry conn inc exc m log cd ids log' name c :
  get_collections conn inc exc m log = (Ok (cd, ids), log') →
  odict.get name cd = Some c →
  ∃ rows cd0 c0,
    names_rows conn m = Some rows
    ∧ cd0 = new_collections (all_db_items rows)
              (final_names (all_db_items rows) inc exc)
    ∧ odict.get name cd0 = Some c0
    ∧ coll_id c = coll_id c0
    ∧ odict.keys cd = odict.keys cd0
    ∧ log' = log ++ [SelectNames m;
                     SelectTracks m (coll_id <$> odict.values cd0)]
    ∧ tracks c
      = match tracks_rows conn m (coll_id <$> odict.values cd0) with
        | Some trows => picked (id_to_name cd0) name trows
        | None => []
        end.
Proof.
  intros [[-> ->]|(rows & cd0 & Hrows & Hcd0 & Hlog & Hres)]
    %get_collections_members Hc; [done|].
  exists rows, cd0.
  destruct (tracks_rows conn m _) as [trows|].
  - destruct (add_member_fold (id_to_name cd0) trows cd0 ∅) as [Hget _].
    pose proof (add_member_keys (id_to_name cd0) trows (cd0, ∅)) as Hkeys.
    rewrite <-Hres in Hget, Hkeys. cbn [fst] in *. rewrite Hget in Hc.
    destruct (odict.get name cd0) as [c0|] eqn:Hc0; [|done].
    injection Hc as <-. exists c0. do 5 (split; [done|]). split; [done|].
    simpl. rewrite Hcd0 in Hc0.
    by apply new_collections_get in Hc0 as [_ ->].
  - destruct Hres as [-> ->]. exists c. do 5 (split; [done|]).
    split; [done|]. rewrite Hcd0 in Hc.
    by apply new_collections_get in Hc as [_ ->].
Qed.

Lemma new_collections_id rows inc exc name c :
  odict.get name
    (new_collections (all_db_items rows)
       (final_names (all_db_items rows) inc exc)) = Some c →
  odict.get name (all_db_items rows) = Some (coll_id c).
Proof.
  intros [Hin ->]%new_collections_get. simpl.
  by destruct (final_names_known _ _ _ _ Hin) as [i ->].
Qed.

(** With distinct collection ids, the rows that the loop picks for a
    collection that is not named by the empty string are those that carry
    its id. *)
Lemma picked_members nrows inc exc name c0 trows :
  NoDup nrows.*1 →
  odict.get name
    (new_collections (all_db_items nrows)
       (final_names (all_db_items nrows) inc exc)) = Some c0 →
  name ≠ "" →
  picked
    (id_to_name
       (new_collections (all_db_items nrows)
          (final_names (all_db_items nrows) inc exc))) name trows
  = members (coll_id c0) trows.
Proof.
  set (cd0 := new_collections _ _). intros Hnd Hc0 Hname.
  unfold picked, members. f_equal. apply list_filter_iff. intros [fk t].
  simpl. rewrite str_truthy_ne.
  assert (NoDup (odict.keys cd0)) as Hnd0 by apply new_collections_NoDup.
  split.
  - intros [(c' & Hc' & <-)%id_to_name_get _].
    apply odict_elem_of_get in Hc'; [|done]. congruence.
  - intros ->. split; [|done].
    assert ((name, c0) ∈ cd0) as Hin by by apply odict_elem_of_get.
    destruct (id_to_name_is_Some _ _ _ Hin) as [name' Hname'].
    rewrite Hname'. f_equal.
    destruct (id_to_name_get _ _ _ Hname') as (c' & Hc' & Hid').
    apply odict_elem_of_get in Hc'; [|done].
    apply new_collections_id, all_db_items_get in Hc0, Hc'.
    rewrite Hid' in Hc'. by eapply NoDup_fst_agree.
Qed.

(** X4.  With collection ids that are distinct in the names rows, the track
    list of a returned collection whose name is not empty is the track ids
    of the membership rows that carry its id, in the order of the rows; it
    is empty when the membership query failed. *)
Theorem tracks_in_row_order conn inc exc m nrows log cd ids log' name c :
  names_rows conn m = Some nrows →
  NoDup nrows.*1 →
  get_collections conn inc exc m log = (Ok (cd, ids), log') →
  odict.get name cd = Some c →
  name ≠ "" →
  ∃ item_ids,
    log' = log ++ [SelectNames m; SelectTracks m item_ids]
    ∧ tracks c = match tracks_rows conn m item_ids with
                 | Some trows => members (coll_id c) trows
                 | None => []
                 end.
Proof.
  intros Hrows Hnd Hrun Hc Hname.
  destruct (get_collections_entry _ _ _ _ _ _ _ _ _ _ Hrun Hc)
    as (rows & cd0 & c0 & Hrows' & Hcd0 & Hc0 & Hid & _ & Hlog & Htracks).
  rewrite Hrows in Hrows'. injection Hrows' as <-.
  eexists. split; [done|]. rewrite Htracks, Hid.
  destruct (tracks_rows conn m _) as [trows|]; [|done].
  subst cd0. by eapply picked_members.
Qed.

Lemma tracks_in_row_order_witness :
  ∃ item_ids,
    [SelectNames playlists; SelectTracks playlists [1; 2]%Z]
    = [] ++ [SelectNames playlists; SelectTracks playlists item_ids]
    ∧ [5; 2]%Z
      = match tracks_rows Demo.conn playlists item_ids with
        | Some trows => members 1 trows
        | None => []
        end.
Proof.
  apply (tracks_in_row_order Demo.conn None None playlists
           [(1, "Techno"); (2, "House")]%Z []
           [("Techno", {| coll_id := 1%Z; tracks := [5; 2]%Z |});
            ("House", {| coll_id := 2%Z; tracks := [9]%Z |})]
           ({[5%Z; 2%Z; 9%Z]} : gset Z)
           [SelectNames playlists; SelectTracks playlists [1; 2]%Z]
           "Techno" {| coll_id := 1%Z; tracks := [5; 2]%Z |}).
  - reflexivity.
  - vm_compute. repeat constructor; set_solver.
  - vm_compute. reflexivity.
  - reflexivity.
  - discriminate.
Defined.

(** X5.  The returned dictionary has each name once, whatever the include
    list repeats, and gives a name the id of the last names row that carries
    it. *)
Theorem collection_ids conn inc exc m nrows log cd ids log' :
  names_rows conn m = Some nrows →
  get_collections conn inc exc m log = (Ok (cd, ids), log') →
  NoDup (odict.keys cd)
  ∧ ∀ name c,
      odict.get name cd = Some c →
      last (filter (λ row, row.2 = name) nrows) = Some (coll_id c, name).
Proof.
  intros Hrows Hrun. split.
  - destruct cd as [|[name c] cd'] eqn:Hcd; [constructor|].
    rewrite <-Hcd in *.
    assert (odict.get name cd = Some c) as Hc
      by (rewrite Hcd; simpl; by rewrite decide_True).
    destruct (get_collections_entry _ _ _ _ _ _ _ _ _ _ Hrun Hc)
      as (rows & cd0 & c0 & _ & Hcd0 & _ & _ & Hkeys & _).
    rewrite Hkeys, Hcd0. apply new_collections_NoDup.
  - intros name c Hc.
    destruct (get_collections_entry _ _ _ _ _ _ _ _ _ _ Hrun Hc)
      as (rows & cd0 & c0 & Hrows' & Hcd0 & Hc0 & Hid & _).
    rewrite Hrows in Hrows'. injection Hrows' as <-.
    rewrite Hcd0 in Hc0. apply new_collections_id in Hc0.
    rewrite Hid. by apply all_db_items_last.
Qed.

Lemma collection_ids_witness :
  NoDup (odict.keys
           [("House", {| coll_id := 2%Z; tracks := [9]%Z |})])
  ∧ ∀ name c,
      odict.get name [("House", {| coll_id := 2%Z; tracks := [9]%Z |})]
      = Some c →
      last (filter (λ row, row.2 = name) [(1, "Techno"); (2, "House")]%Z)
      = Some (coll_id c, name).
Proof.
  apply (collection_ids Demo.conn (Some ["House"; "Ghost"; "House"]) None
           crates [(1, "Techno"); (2, "House")]%Z []
           [("House", {| coll_id := 2%Z; tracks := [9]%Z |})]
           ({[9%Z]} : gset Z)
           [SelectNames crates; SelectTracks crates [2]%Z]).
  - reflexivity.
  - vm_compute. reflexivity.
Defined.

(** X6.  A collection whose name is the empty string is returned with no
    tracks, whatever the membership rows hold: the loop takes the empty name
    for a miss. *)
Theorem empty_name_gets_no_tracks conn inc exc m log cd ids log' c :
  get_collections conn inc exc m log = (Ok (cd, ids), log') →
  odict.get "" cd = Some c →
  tracks c = [].
Proof.
  intros Hrun Hc.
  destruct (get_collections_entry _ _ _ _ _ _ _ _ _ _ Hrun Hc)
    as (rows & cd0 & c0 & _ & _ & _ & _ & _ & _ & ->).
  destruct (tracks_rows conn m _) as [trows|]; [|done].
  unfold picked. induction trows as [|row trows IH]; [done|].
  rewrite filter_cons, decide_False; [done|]. by intros [_ ?].
Qed.

Lemma empty_name_gets_no_tracks_witness :
  tracks {| coll_id := 1%Z; tracks := @nil Z |} = [].
Proof.
  apply (empty_name_gets_no_tracks Demo2.conn_blank None None crates []
           [("", {| coll_id := 1%Z; tracks := [] |});
            ("House", {| coll_id := 2%Z; tracks := [9]%Z |})]
           ({[9%Z]} : gset Z)
           [SelectNames crates; SelectTracks crates [1; 2]%Z]).
  - vm_compute. reflexivity.
  - reflexivity.
Defined.

(** ** [get_track_details] *)

Lemma append_cues_cues l data :
  foldl (λ d p, append_cue p d) data l
  = {| title := title data; artist := artist data; album := album data;
       grouping := grouping data; genre := genre data;
       comment := comment data; location := location data;
       year := year data; tracknumber := tracknumber data;
       filesize := filesize data; bitrate := bitrate data;
       samplerate := samplerate data; duration := duration data;
       bpm := bpm data; cues := cell_map (λ c, c ++ l) (cues data) |}.
Proof.
  revert data. induction l as [|p l IH]; intros data; simpl.
  - destruct data as [? ? ? ? ? ? ? ? ? ? ? ? ? ? []]; simpl;
      by rewrite ?app_nil_r.
  - rewrite IH. destruct data as [? ? ? ? ? ? ? ? ? ? ? ? ? ? []]; simpl;
      by rewrite <-?app_assoc.
Qed.

Lemma add_cues_lookup crows (td : gmap Z track) tid :
  foldl add_cue td crows !! tid
  = (λ d, foldl (λ d p, append_cue p d) d (members tid crows)) <$> td !! tid.
Proof.
  revert td. induction crows as [|[t p] crows IH]; intros td; simpl.
  - by destruct (td !! tid).
  - rewrite IH. unfold members. rewrite filter_cons. simpl.
    destruct (decide (t = tid)) as [->|Hne].
    + rewrite lookup_alter_eq. by destruct (td !! tid).
    + by rewrite lookup_alter_ne.
Qed.

(** X7.  When both queries answer, [get_track_details] issues them in
    order and returns, under each id that a metadata row carries, the
    record of the last such row, with the positions of the cue rows of
    that id in the order of the rows for its cues.  The cue rows of other
    ids are dropped. *)
Theorem track_details_contents conn track_ids log rows crows :
  track_ids ≠ ∅ →
  library_rows conn (elements track_ids) = Some rows →
  cues_rows conn (elements track_ids) = Some crows →
  ∃ td,
    get_track_details conn track_ids log
    = (Ok td, log ++ [SelectLibrary (elements track_ids);
                      SelectCues (elements track_ids)])
    ∧ ∀ tid,
        td !! tid
        = (λ row, with_cues (members tid crows) (dict_of_row row))
            <$> last (filter (λ row, row_id row = tid) rows).
Proof.
  intros Hne Hrows Hcues.
  unfold get_track_details, mbind, db_bind, try_sqlite, execute.
  rewrite decide_False, Hrows, Hcues by done. simpl.
  eexists. split; [by rewrite <-app_assoc|].
  intros tid. rewrite add_cues_lookup, add_rows_last.
  destruct (last _) as [row|]; [|done]. simpl. f_equal.
  by rewrite append_cues_cues.
Qed.

Lemma track_details_contents_witness :
  ∃ td,
    get_track_details Demo2.conn_cues {[5%Z; 7%Z]} []
    = (Ok td, [] ++ [SelectLibrary (elements ({[5%Z; 7%Z]} : gset Z));
                     SelectCues (elements ({[5%Z; 7%Z]} : gset Z))])
    ∧ ∀ tid,
        td !! tid
        = (λ row, with_cues (members tid [(5, 88200); (7, 1); (5, 0)]%Z)
                    (dict_of_row row))
            <$> last (filter (λ row, row_id row = tid)
                        [Demo2.library_row2; Demo.library_row5]).
Proof.
  apply (track_details_contents Demo2.conn_cues {[5%Z; 7%Z]} []).
  - vm_compute. discriminate.
  - reflexivity.
  - reflexivity.
Defined.

(** X8.  [get_track_details] issues no query for an empty id set.  When
    the metadata query fails, it is the only query.  When it answers, the
    cue query follows, bound to the same ids, and a record is returned
    under exactly the ids of the metadata rows, whether the cue query
    answers or fails. *)
Theorem track_details_queries conn track_ids log :
  let ids := elements track_ids in
  (track_ids = ∅ → (get_track_details conn track_ids log).2 = log)
  ∧ (track_ids ≠ ∅ →
     library_rows conn ids = None →
     (get_track_details conn track_ids log).2 = log ++ [SelectLibrary ids])
  ∧ ∀ rows,
      track_ids ≠ ∅ →
      library_rows conn ids = Some rows →
      ∃ td,
        get_track_details conn track_ids log
        = (Ok td, log ++ [SelectLibrary ids; SelectCues ids])
        ∧ ∀ tid, is_Some (td !! tid) ↔ tid ∈ row_id <$> rows.
Proof.
  intros ids.
  unfold get_track_details, mbind, db_bind, try_sqlite, execute.
  fold ids. split; [|split].
  - intros ->. by rewrite decide_True.
  - intros Hne Hrows. by rewrite decide_False, Hrows by done.
  - intros rows Hne Hrows. rewrite decide_False, Hrows by done. simpl.
    assert (∀ tid, is_Some (foldl add_row ∅ rows !! tid)
                   ↔ tid ∈ row_id <$> rows) as Hdom.
    { intros tid. rewrite add_rows_last, fmap_is_Some. split.
      - intros [row [Hid Hin]%last_elem_of%list_elem_of_filter].
        apply list_elem_of_fmap. by exists row.
      - intros (row & -> & Hin)%list_elem_of_fmap.
        destruct (last (filter (λ row0, row_id row0 = row_id row) rows))
          eqn:Hlast; [done|].
        apply last_None in Hlast.
        assert (row ∈ filter (λ row0, row_id row0 = row_id row) rows) as Hf
          by by apply list_elem_of_filter.
        rewrite Hlast in Hf. by apply elem_of_nil in Hf. }
    destruct (cues_rows conn ids) as [crows|]; simpl;
      eexists; rewrite <-app_assoc; (split; [done|]); [|done].
    intros tid. by rewrite add_cues_lookup, fmap_is_Some.
Qed.

Lemma track_details_queries_witness :
  ∃ td,
    get_track_details Demo2.conn_cues {[5%Z; 7%Z]} []
    = (Ok td, [] ++ [SelectLibrary (elements ({[5%Z; 7%Z]} : gset Z));
                     SelectCues (elements ({[5%Z; 7%Z]} : gset Z))])
    ∧ ∀ tid, is_Some (td !! tid)
             ↔ tid ∈ row_id <$> [Demo2.library_row2; Demo.library_row5].
Proof.
  apply (proj2 (proj2 (track_details_queries Demo2.conn_cues {[5%Z; 7%Z]} []))
           [Demo2.library_row2; Demo.library_row5]).
  - vm_compute. discriminate.
  - reflexivity.
Defined.

(** ** [build_xml]: sort orders and playlist nodes *)

Lemma playlist_nodes_order td pm so so' items (h : heap) :
  sort_requested so = sort_requested so' →
  bool_decide (so = Some "desc") = bool_decide (so' = Some "desc") →
  playlist_nodes td pm so items h = playlist_nodes td pm so' items h.
Proof.
  intros Hreq Hdesc. revert h.
  induction items as [|item items IH]; intros h; [done|].
  rewrite !playlist_nodes_cons.
  assert (playlist_node td pm so item h = playlist_node td pm so' item h)
    as ->.
  { unfold playlist_node. destruct item as [name data].
    by rewrite Hreq, Hdesc. }
  cbv zeta. by rewrite IH.
Qed.

(** X9.  [build_xml] knows three sort orders: the empty string is no order
    at all, ['desc'] is descending, and every other string is ascending,
    as ['asc'] is. *)
Theorem sort_order_cases td cols pm s (h : heap) :
  build_xml td cols pm (Some s) h
  = build_xml td cols pm (effective_order s) h.
Proof.
  unfold build_xml.
  destruct (for_each track_element (sorted_items_Z td)); [|done].
  rewrite (playlist_nodes_order td pm (Some s) (effective_order s)); [done|..];
    unfold effective_order; repeat case_decide; subst; try done.
  - simpl. by destruct s.
  - by rewrite !bool_decide_false by congruence.
Qed.

(** ** Strings in order *)

Lemma ascii_compare_N a b :
  Ascii.compare a b = (N_of_ascii a ?= N_of_ascii b)%N.
Proof. done. Qed.

Lemma string_ltb_asym a b : String.ltb a b = true → String.ltb b a = false.
Proof.
  unfold String.ltb. rewrite (String.compare_antisym b a).
  by destruct (String.compare a b).
Qed.

Lemma string_ltb_neg_trans a b c :
  String.ltb a c = true → String.ltb a b = true ∨ String.ltb b c = true.
Proof.
  unfold String.ltb. revert b c.
  induction a as [|x a IH]; intros [|y b] [|z c]; simpl; try done;
    try (by left); try (by right).
  rewrite !ascii_compare_N.
  destruct (N.compare_spec (N_of_ascii x) (N_of_ascii z)) as [Hxz|Hxz|Hxz];
    destruct (N.compare_spec (N_of_ascii x) (N_of_ascii y)) as [Hxy|Hxy|Hxy];
    destruct (N.compare_spec (N_of_ascii y) (N_of_ascii z)) as [Hyz|Hyz|Hyz];
    try done; try (by left); try (by right); try lia.
  apply IH.
Qed.

Lemma string_ltb_total a b :
  a ≠ b → String.ltb b a = false → String.ltb a b = true.
Proof.
  unfold String.ltb. rewrite (String.compare_antisym b a).
  intros Hne. destruct (String.compare a b) eqn:Hc; try done.
  by apply String.compare_eq_iff in Hc.
Qed.

Lemma sorted_items_str_ascending {V} (m : gmap string V) :
  StronglySorted (λ a b, String.ltb a b = true) (sorted_items_str m).*1.
Proof.
  assert (NoDup (sorted_items_str m).*1) as Hnd.
  { rewrite sorted_items_str_perm. apply NoDup_fst_map_to_list. }
  assert (StronglySorted (not_after String.ltb fst) (sorted_items_str m))
    as Hs.
  { apply (sorted_ascending String.ltb fst (λ _, True)).
    - intros a b _ _. apply string_ltb_asym.
    - intros a b c _ _ _. apply string_ltb_neg_trans.
    - by apply Forall_true. }
  induction Hs as [|x l Hs IH Hx]; simpl; [constructor|].
  apply NoDup_cons in Hnd as [Hx' Hnd]. constructor; [by apply IH|].
  rewrite Forall_fmap. rewrite Forall_forall in Hx |- *.
  intros y Hy. specialize (Hx y Hy). unfold not_after in Hx. simpl.
  apply string_ltb_total; [|done].
  intros Heq. apply Hx'. rewrite Heq. by apply list_elem_of_fmap_2.
Qed.

Lemma sorted_items_str_length {V} (m : gmap string V) :
  length (sorted_items_str m) = size m.
Proof. by rewrite sorted_items_str_perm, length_map_to_list. Qed.

Lemma node_order_length td pm so l :
  length (node_order td pm so l) = length l.
Proof.
  unfold node_order. destruct (negb pm && sort_requested so); [|done].
  by rewrite sorted_perm.
Qed.

(** The names of the playlist [NODE]s. *)
Lemma build_xml_node_names td cols pm so (h : heap) doc h' :
  build_xml td cols pm so h = (Ok doc, h') →
  heap_ok cols h →
  ∃ root,
    find "PLAYLISTS" doc ≫= find "NODE" = Some root
    ∧ attr "Count" root = Some (pretty (size cols))
    ∧ children_of root
      = (λ item, node_of td pm so item.1 (read_list (tracks item.2) h))
        <$> sorted_items_str cols
    ∧ node_names root = (sorted_items_str cols).*1.
Proof.
  intros Hrun Hok.
  destruct (build_xml_nodes _ _ _ _ _ _ _ Hrun Hok) as (root & Hroot & Hch).
  apply build_xml_Ok in Hrun as (tn & _ & -> & _).
  rewrite find_root in Hroot. injection Hroot as <-.
  eexists. split; [apply find_root|]. split; [done|]. split; [done|].
  unfold node_names. rewrite Hch. clear.
  induction (sorted_items_str cols) as [|[name data] items IH]; [done|].
  simpl. f_equal. apply IH.
Qed.

Lemma sorted_items_str_keys {V} (m : gmap string V) k :
  k ∈ (sorted_items_str m).*1 ↔ is_Some (m !! k).
Proof.
  rewrite list_elem_of_fmap. split.
  - intros ([k' v] & -> & Hin). apply sorted_items_str_elem in Hin. eauto.
  - intros [v Hv]. exists (k, v). by rewrite sorted_items_str_elem.
Qed.

(** X10.  The ROOT node counts its child nodes; there is one child for
    each collection, by name, in strictly ascending order of the names; and
    the Entries of each child is the number of its TRACK children. *)
Theorem playlist_nodes_by_name td cols pm so (h : heap) doc h' :
  build_xml td cols pm so h = (Ok doc, h') →
  heap_ok cols h →
  ∃ root,
    find "PLAYLISTS" doc ≫= find "NODE" = Some root
    ∧ attr "Count" root = Some (pretty (length (children_of root)))
    ∧ length (node_names root) = length (children_of root)
    ∧ StronglySorted (λ a b, String.ltb a b = true) (node_names root)
    ∧ (∀ name, name ∈ node_names root ↔ is_Some (cols !! name))
    ∧ Forall (λ node,
                attr "Entries" node
                = Some (pretty (length (children_of node))))
        (children_of root).
Proof.
  intros Hrun Hok.
  destruct (build_xml_node_names _ _ _ _ _ _ _ Hrun Hok)
    as (root & Hroot & Hcount & Hch & Hnames).
  exists root. split; [done|].
  rewrite Hcount, Hnames, Hch, !length_fmap, sorted_items_str_length.
  split; [done|]. split; [done|]. split; [|split].
  - apply sorted_items_str_ascending.
  - apply sorted_items_str_keys.
  - apply Forall_fmap, Forall_true. intros [name data]. cbn.
    by rewrite length_fmap, node_order_length.
Qed.

Lemma playlist_nodes_by_name_witness :
  let r := build_xml Demo.details Demo.crates false (Some "asc") Demo.store in
  ∃ root,
    find "PLAYLISTS" (Demo.returned r) ≫= find "NODE" = Some root
    ∧ attr "Count" root = Some (pretty (length (children_of root)))
    ∧ length (node_names root) = length (children_of root)
    ∧ StronglySorted (λ a b, String.ltb a b = true) (node_names root)
    ∧ (∀ name, name ∈ node_names root ↔ is_Some (Demo.crates !! name))
    ∧ Forall (λ node,
                attr "Entries" node
                = Some (pretty (length (children_of node))))
        (children_of root).
Proof.
  apply (playlist_nodes_by_name Demo.details Demo.crates false (Some "asc")
           Demo.store _
           (build_xml Demo.details Demo.crates false (Some "asc")
              Demo.store).2).
  - vm_compute. reflexivity.
  - apply (bool_decide_unpack _). vm_compute. exact I.
Defined.

(** ** [build_xml]: exceptions *)

Lemma binary_round_int_nonzero s m s' :
  binary_round 53 1024 s m 0 ≠ S754_zero s'.
Proof.
  unfold binary_round, shl_align.
  destruct (fexp 53 1024 (Z.pos (digits2_pos m) + 0) - 0)%Z as [|d|d] eqn:Hd.
  - apply binary_round_aux_nonzero; lia.
  - apply binary_round_aux_nonzero; lia.
  - apply binary_round_aux_nonzero; [lia|].
    rewrite fexp64. lia.
Qed.

Lemma of_int_nonzero n x :
  PyFloat.of_int n = Ok x → n ≠ 0%Z → PyFloat.truthy x = true.
Proof.
  unfold PyFloat.of_int, binary_normalize, PyFloat.prec, PyFloat.emax.
  destruct n as [|m|m]; [done|..]; intros Hx _.
  - pose proof (binary_round_int_nonzero false m) as Hz.
    destruct (binary_round 53 1024 false m 0); try done;
      [by edestruct Hz|by injection Hx as <-..].
  - pose proof (binary_round_int_nonzero true m) as Hz.
    destruct (binary_round 53 1024 true m 0); try done;
      [by edestruct Hz|by injection Hx as <-..].
Qed.

Lemma of_int_Raise n e :
  PyFloat.of_int n = Raise e → e = OverflowError ∧ (2 ^ 1023 < Z.abs n)%Z.
Proof.
  intros Hn. split.
  - unfold PyFloat.of_int in Hn.
    destruct (binary_normalize _ _ _ _ _); congruence.
  - destruct (Z.le_gt_cases (Z.abs n) (2 ^ 1023)) as [Hle|Hgt]; [|lia].
    destruct (of_int_total n Hle) as (x & Hx & _). congruence.
Qed.

Lemma samplerate_of_nonzero data sr :
  samplerate_of data = Ok sr → PyFloat.truthy sr = true.
Proof.
  unfold samplerate_of, or_, or_else.
  destruct (samplerate data) as [| |n]; simpl; try by intros [= <-].
  unfold int_truthy. destruct (Z.eqb_spec n 0) as [->|Hne]; simpl.
  - by intros [= <-].
  - intros Hsr. by eapply of_int_nonzero.
Qed.

Lemma samplerate_of_Raise data e :
  samplerate_of data = Raise e →
  e = OverflowError ∧ ∃ n, samplerate data = Val n ∧ (2 ^ 1023 < Z.abs n)%Z.
Proof.
  unfold samplerate_of, or_, or_else.
  destruct (samplerate data) as [| |n]; simpl; try done.
  unfold int_truthy. destruct (Z.eqb_spec n 0) as [->|Hne]; simpl; [done|].
  intros [-> Hn]%of_int_Raise. eauto.
Qed.

Lemma position_mark_Raise sr p e :
  PyFloat.truthy sr = true →
  position_mark sr p = Raise e →
  e = OverflowError ∧ (2 ^ 1023 < Z.abs p)%Z.
Proof.
  intros Hsr. unfold position_mark.
  destruct (PyFloat.of_int p) as [x|e'] eqn:Hx; simpl.
  - by destruct sr.
  - intros [= ->]. by apply of_int_Raise.
Qed.

Lemma for_each_first_Raise {A B} (f : A → result B) l e :
  for_each f l = Raise e →
  ∃ l1 x l2, l = l1 ++ x :: l2 ∧ Forall (λ y, is_Ok (f y)) l1 ∧ f x = Raise e.
Proof.
  induction l as [|y l IH]; simpl; [done|].
  destruct (f y) as [b|e'] eqn:Hy; simpl.
  - destruct (for_each f l) as [bs|e'']; simpl; [done|].
    intros [= ->]. destruct (IH eq_refl) as (l1 & x & l2 & -> & Hl1 & Hx).
    exists (y :: l1), x, l2. split; [done|]. split; [|done].
    constructor; [by eexists|done].
  - intros [= ->]. exists [], y, l. by split.
Qed.

Lemma track_element_Raise tid data e :
  track_element (tid, data) = Raise e → cause e data.
Proof.
  unfold track_element.
  destruct (quote_value _) as [loc|e1] eqn:Hq.
  2:{ cbn. intros [= <-].
      destruct (location data) eqn:Hl; simplify_eq/=. by left. }
  destruct (PyFloat.round _) as [total|e2] eqn:Hr.
  2:{ cbn. intros [= <-]. unfold or_, or_else in Hr.
      destruct (duration data) as [| |[| | |]] eqn:Hd; simplify_eq/=; eauto. }
  destruct (format_value _ _) as [ab|e3] eqn:Hf.
  2:{ cbn. intros [= <-].
      destruct (bpm data) eqn:Hb; simplify_eq/=. by right; left. }
  destruct (samplerate_of _) as [sr|e4] eqn:Hs.
  2:{ cbn. intros [= <-]. apply samplerate_of_Raise in Hs as [-> Hn].
      simpl. eauto. }
  apply samplerate_of_nonzero in Hs.
  destruct (sorted_value _) as [cs|e5] eqn:Hc.
  2:{ cbn. intros [= <-].
      destruct (cues data) eqn:Hl; simplify_eq/=. by right; right. }
  cbn. destruct (for_each _ cs) as [marks|e6] eqn:Hm; cbn; [done|].
  intros [= <-].
  apply for_each_first_Raise in Hm as (l1 & p & l2 & Hl & _ & Hp).
  apply position_mark_Raise in Hp as [-> Hp]; [|done].
  assert (p ∈ cs) as Hin by (rewrite Hl; set_solver).
  clear Hl.
  destruct (cues data) as [| |l] eqn:Hcues;
    unfold sorted_value, get_default in Hc; [|done|].
  - injection Hc as <-. by apply elem_of_nil in Hin.
  - assert (cs = sorted Z.ltb (λ p : Z, p) false l) as -> by congruence.
    rewrite sorted_perm in Hin. simpl. right. right. by exists l, p.
Qed.


(** X11.  When [build_xml] raises, no list has been created, and the
    exception is that of the row with the least id among the rows that do
    not render: a [TypeError] for a location, a bpm or a cue list that is
    None, a [ValueError] for a NaN duration, an [OverflowError] for an
    infinite duration or an integer beyond the floats.  It is never a
    [ZeroDivisionError]: the sample rate used is never zero. *)
Theorem build_xml_exceptions td cols pm so (h : heap) e h' :
  build_xml td cols pm so h = (Raise e, h') →
  h' = h
  ∧ ∃ tid data,
      td !! tid = Some data
      ∧ track_element (tid, data) = Raise e
      ∧ cause e data
      ∧ ∀ tid' data',
          td !! tid' = Some data' → (tid' < tid)%Z →
          is_Ok (track_element (tid', data')).
Proof.
  intros Hrun.
  assert (h' = h) as ->.
  { unfold build_xml in Hrun.
    destruct (for_each track_element (sorted_items_Z td)).
    - by destruct (playlist_nodes td pm so (sorted_items_str cols) h).
    - congruence. }
  split; [done|]. apply build_xml_Raise in Hrun.
  apply for_each_first_Raise in Hrun
    as (l1 & [tid data] & l2 & Hl & Hl1 & Hx).
  exists tid, data.
  split; [apply sorted_items_Z_elem; rewrite Hl; set_solver|].
  split; [done|]. split; [by eapply track_element_Raise|].
  intros tid' data' Hin%sorted_items_Z_elem Hlt.
  pose proof (sorted_items_Z_ascending td) as Hs. rewrite Hl in Hin, Hs.
  rewrite fmap_app, fmap_cons in Hs.
  apply StronglySorted_app_1_r, StronglySorted_inv in Hs as [_ Hs].
  apply elem_of_app in Hin as [Hin|Hin].
  - rewrite Forall_forall in Hl1. by apply (Hl1 (tid', data')).
  - apply elem_of_cons in Hin as [[= -> ->]|Hin]; [lia|].
    rewrite Forall_fmap, Forall_forall in Hs.
    specialize (Hs _ Hin). simpl in Hs. lia.
Qed.

Lemma build_xml_exceptions_witness :
  Demo.store = Demo.store
  ∧ ∃ tid data,
      Demo2.details !! tid = Some data
      ∧ track_element (tid, data) = Raise ValueError
      ∧ cause ValueError data
      ∧ ∀ tid' data',
          Demo2.details !! tid' = Some data' → (tid' < tid)%Z →
          is_Ok (track_element (tid', data')).
Proof.
  apply (build_xml_exceptions Demo2.details Demo.crates false None
           Demo.store ValueError Demo.store).
  vm_compute. reflexivity.
Defined.

(** ** [build_xml]: locations and durations *)

Lemma hex_char_inj a b :
  (a < 16)%N → (b < 16)%N → hex_char a = hex_char b → a = b.
Proof.
  intros Ha Hb Hab. apply (f_equal N_of_ascii) in Hab. revert Hab.
  unfold hex_char.
  destruct (N.ltb_spec a 10), (N.ltb_spec b 10);
    rewrite !N_ascii_embedding by lia; lia.
Qed.

Lemma quote_byte_cases c :
  (always_safe c || bool_decide (c = "/"%char) = true
   ∧ quote_byte c = String c "" ∧ c ≠ "%"%char)
  ∨ (always_safe c || bool_decide (c = "/"%char) = false
     ∧ quote_byte c
       = String "%"
           (String (hex_char (N_of_ascii c / 16))
              (String (hex_char (N_of_ascii c mod 16)) ""))).
Proof.
  unfold quote_byte.
  destruct (always_safe c || bool_decide (c = "/"%char)) eqn:Hs;
    [left|by right].
  split; [done|]. split; [done|]. by intros ->.
Qed.

Lemma N_of_ascii_bound c : (N_of_ascii c < 256)%N.
Proof. apply N_ascii_bounded. Qed.

Lemma quote_inj s t : quote s = quote t → s = t.
Proof.
  revert t. induction s as [|c s IH]; intros [|d t]; simpl.
  - done.
  - by destruct (quote_byte_cases d) as [(_ & -> & _)|[_ ->]].
  - by destruct (quote_byte_cases c) as [(_ & -> & _)|[_ ->]].
  - pose proof (N_of_ascii_bound c) as Hc.
    pose proof (N_of_ascii_bound d) as Hd.
    destruct (quote_byte_cases c) as [(Hsc & -> & Hpc)|[Hsc ->]],
      (quote_byte_cases d) as [(Hsd & -> & Hpd)|[Hsd ->]]; simpl.
    + intros [= -> Heq]. f_equal. by apply IH.
    + by intros [= -> _].
    + by intros [= <- _].
    + intros [= H1 H2 Heq].
      apply hex_char_inj in H1; [|by apply N.Div0.div_lt_upper_bound..].
      apply hex_char_inj in H2; [|by apply N.mod_lt..].
      assert (N_of_ascii c = N_of_ascii d) as Hcd.
      { rewrite (N.div_mod (N_of_ascii c) 16), (N.div_mod (N_of_ascii d) 16)
          by done. by rewrite H1, H2. }
      f_equal; [|by apply IH].
      by rewrite <-(ascii_N_embedding c), <-(ascii_N_embedding d), Hcd.
Qed.

Lemma plain_safe c : plain c = always_safe c || bool_decide (c = "/"%char).
Proof. by destruct c as [[] [] [] [] [] [] [] []]. Qed.

Lemma hex_digit_char n : (n < 16)%N → hex_digit n = hex_char n.
Proof.
  intros Hn.
  assert (n ∈ N.of_nat <$> seq 0 16) as Hin.
  { apply list_elem_of_fmap. exists (N.to_nat n).
    split; [lia|]. apply elem_of_seq. lia. }
  clear Hn. revert n Hin. apply Forall_forall. vm_compute. repeat constructor.
Qed.

Lemma quote_percent_encoded path : percent_encoded path (quote path).
Proof.
  induction path as [|c path IH]; [constructor|].
  cbn [quote]. unfold quote_byte. rewrite <-plain_safe.
  destruct (plain c) eqn:Hc.
  - by apply encoded_plain.
  - rewrite <-!hex_digit_char
      by (apply N.mod_lt || apply N.Div0.div_lt_upper_bound;
          (done || apply N_of_ascii_bound)).
    by apply encoded_escape.
Qed.

Lemma track_element_location tid data node :
  track_element (tid, data) = Ok node →
  ∃ path, stored_location data = Some path
          ∧ attr "Location" node = Some ("file://localhost" +:+ quote path).
Proof.
  intros (loc & total & ab & sr & cs & marks & Hloc & _ & _ & _ & _ & _ & ->)
    %track_element_Ok.
  unfold stored_location.
  destruct (get_default (location data) "") as [path|]; [|discriminate].
  injection Hloc as <-. by exists path.
Qed.

(** X12.  The Location of a TRACK is [file://localhost] followed by the
    stored path percent-encoded: letters, digits and [_ . - ~ /] as they
    are, every other byte as a percent sign and its two hexadecimal digits
    in upper case. *)
Theorem location_escaped tid data node :
  track_element (tid, data) = Ok node →
  ∃ path q,
    stored_location data = Some path
    ∧ attr "Location" node = Some ("file://localhost" +:+ q)
    ∧ percent_encoded path q.
Proof.
  intros (path & Hpath & ->)%track_element_location.
  exists path, (quote path). split; [done|]. split; [done|].
  apply quote_percent_encoded.
Qed.

Lemma location_escaped_witness :
  ∃ path q,
    stored_location (Demo.row (Val (Demo.fl 120)) Null []) = Some path
    ∧ attr "Location"
        (Element "TRACK"
           (track_attribs 5 (Demo.row (Val (Demo.fl 120)) Null [])
              "file://localhost/music/a%20b.mp3" "301" "120.00") [])
      = Some ("file://localhost" +:+ q)
    ∧ percent_encoded path q.
Proof.
  apply (location_escaped 5 (Demo.row (Val (Demo.fl 120)) Null [])).
  vm_compute. reflexivity.
Defined.

(** The path [/music/a b.mp3] and its Location. *)
Example location_with_space :
  percent_encoded "/music/a b.mp3" "/music/a%20b.mp3"
  ∧ quote "/music/a b.mp3" = "/music/a%20b.mp3"
  ∧ ¬ percent_encoded "/music/a b.mp3" "/music/a%zzb.mp3".
Proof.
  split; [|split; [vm_compute; reflexivity|]].
  - repeat first
      [ apply encoded_end
      | apply encoded_plain; [vm_compute; reflexivity|]
      | apply (encoded_escape " "); [vm_compute; reflexivity|] ].
  - intros H.
    repeat match goal with
    | H : percent_encoded (String _ _) _ |- _ =>
        inversion H; clear H; subst; try discriminate
    end.
Qed.

(** X13.  Two TRACK nodes have the same Location exactly when their rows
    have the same path: quoting loses nothing. *)
Theorem location_injective tid1 data1 node1 tid2 data2 node2 :
  track_element (tid1, data1) = Ok node1 →
  track_element (tid2, data2) = Ok node2 →
  attr "Location" node1 = attr "Location" node2
  ↔ stored_location data1 = stored_location data2.
Proof.
  intros (p1 & Hp1 & ->)%track_element_location
         (p2 & Hp2 & ->)%track_element_location.
  rewrite Hp1, Hp2. split.
  - intros [= Heq%quote_inj]. by rewrite Heq.
  - by intros [= ->].
Qed.

Lemma location_injective_witness :
  attr "Location"
    (Element "TRACK"
       (track_attribs 5 (Demo.row (Val (Demo.fl 120)) Null [])
          "file://localhost/music/a%20b.mp3" "301" "120.00") [])
  = attr "Location"
      (Element "TRACK"
         (track_attribs 9 (Demo.row (Val (Demo.fl 100)) Null [])
            "file://localhost/music/a%20b.mp3" "301" "100.00") [])
  ↔ stored_location (Demo.row (Val (Demo.fl 120)) Null [])
    = stored_location (Demo.row (Val (Demo.fl 100)) Null []).
Proof.
  apply (location_injective 5 (Demo.row (Val (Demo.fl 120)) Null []) _
           9 (Demo.row (Val (Demo.fl 100)) Null [])).
  - vm_compute. reflexivity.
  - vm_compute. reflexivity.
Defined.

(** X14.  The TotalTime of a track with a finite duration that is not zero
    is an integer nearest to the duration, the even one of the two when the
    duration is half way between two integers. *)
Theorem total_time_nearest tid data node s (m : positive) e :
  track_element (tid, data) = Ok node →
  duration data = Val (S754_finite s m e) →
  ∃ n,
    attr "TotalTime" node = Some (pretty n)
    ∧ (2 * Z.abs (n * denominator e - numerator s m e) ≤ denominator e)%Z
    ∧ ((2 * Z.abs (n * denominator e - numerator s m e) = denominator e)%Z →
       Z.even n = true).
Proof.
  intros (loc & total & ab & sr & cs & marks & _ & Hr & _ & _ & _ & _ & ->)
    %track_element_Ok Hdur.
  rewrite Hdur in Hr. cbn in Hr. injection Hr as <-.
  eexists. split; [reflexivity|].
  unfold numerator, denominator, PyFloat.scaled_round.
  change (10 ^ Z.of_nat 0)%Z with 1%Z.
  destruct e as [|p|p].
  - change (Z.max 0 (- 0)) with 0%Z. change (Z.max 0 0) with 0%Z.
    rewrite Z.pow_0_r.
    destruct s; (split; [lia|intros; exfalso; lia]).
  - change (Z.max 0 (- Z.pos p)) with 0%Z.
    change (Z.max 0 (Z.pos p)) with (Z.pos p). rewrite Z.pow_0_r.
    assert (0 < 2 ^ Z.pos p)%Z by (apply Z.pow_pos_nonneg; lia).
    destruct s; (split; [lia|intros; exfalso; lia]).
  - change (Z.max 0 (- Z.neg p)) with (Z.pos p).
    change (Z.max 0 (Z.neg p)) with 0%Z. rewrite Z.pow_0_r.
    rewrite Z.mul_1_r.
    assert (0 < 2 ^ Z.pos p)%Z as Hd by (apply Z.pow_pos_nonneg; lia).
    pose proof (round_half_even_nearest (Z.pos m) (2 ^ Z.pos p) Hd) as Hn.
    pose proof (round_half_even_tie (Z.pos m) (2 ^ Z.pos p) Hd) as Ht.
    destruct s.
    + rewrite Z.even_opp. split; [lia|]. intros Heq. apply Ht. lia.
    + split; [lia|]. intros Heq. apply Ht. lia.
Qed.

Lemma total_time_nearest_witness :
  ∃ n,
    attr "TotalTime"
      (Element "TRACK"
         (track_attribs 5
            (Demo.row (Val (Demo.fl 120)) Null [])
            "file://localhost/music/a%20b.mp3" "301" "120.00") [])
    = Some (pretty n)
    ∧ (2 * Z.abs (n * denominator (-44)
                  - numerator false 5295247999369216 (-44))
       ≤ denominator (-44))%Z
    ∧ ((2 * Z.abs (n * denominator (-44)
                   - numerator false 5295247999369216 (-44))
        = denominator (-44))%Z →
       Z.even n = true).
Proof.
  apply (total_time_nearest 5 (Demo.row (Val (Demo.fl 120)) Null [])).
  - vm_compute. reflexivity.
  - vm_compute. reflexivity.
Defined.

(** ** [main]: the command line *)

Example str_strip_example :
  str_strip (String (ascii_of_N 194) (String (ascii_of_N 160) " a b  "))
  = "a b".
Proof. vm_compute. reflexivity. Qed.

Example str_split_example :
  str_split "," "A, B,,C," = ["A"; " B"; ""; "C"; ""].
Proof. vm_compute. reflexivity. Qed.

Lemma str_split_nonempty sep s : str_split sep s ≠ [].
Proof.
  destruct s as [|c s]; simpl; [done|].
  case_bool_decide; [done|]. by destruct (str_split sep s).
Qed.

Lemma concat_cons sep x ls :
  ls ≠ [] → String.concat sep (x :: ls) = x +:+ sep +:+ String.concat sep ls.
Proof. by destruct ls. Qed.

Lemma str_split_join sep s :
  String.concat (String sep "") (str_split sep s) = s.
Proof.
  induction s as [|c s IH]; [done|]. cbn [str_split].
  pose proof (str_split_nonempty sep s) as Hne.
  case_bool_decide as Hc.
  - subst c. rewrite concat_cons, IH by done. done.
  - destruct (str_split sep s) as [|piece pieces]; [done|].
    destruct pieces as [|piece' pieces].
    + simpl in *. by rewrite IH.
    + rewrite concat_cons in IH |- * by done.
      rewrite <-IH. reflexivity.
Qed.

Lemma str_split_pieces sep s :
  Forall (λ piece, contains sep piece = false) (str_split sep s).
Proof.
  induction s as [|c s IH]; simpl; [by repeat constructor|].
  case_bool_decide as Hc; [by constructor|].
  destruct (str_split sep s) as [|piece pieces]; simpl.
  - repeat constructor. simpl. by rewrite bool_decide_false.
  - apply Forall_cons in IH as [Hp Hps]. constructor; [|done].
    simpl. by rewrite bool_decide_false.
Qed.

(** X15.  Without [-e] on the command line, the crates to exclude are the
    pieces of the [exclude_crates] entry of the configuration between its
    commas, as they stand: joined by commas they give the entry back, white
    space included.  An empty entry excludes nothing. *)
Theorem exclude_crates_from_config config argv v :
  given_exclude_crates argv = None →
  config !! "exclude_crates" = Some v →
  let names := Args.exclude_crates (parse_args config argv) in
  String.concat "," names = v
  ∧ Forall (λ name, contains "," name = false) names
  ∧ (v = "" → names = []).
Proof.
  intros Hgiven Hv. unfold parse_args. simpl. rewrite Hgiven, Hv. simpl.
  destruct v as [|c v'].
  - done.
  - cbn [str_truthy]. split; [apply str_split_join|].
    split; [apply str_split_pieces|done].
Qed.

Lemma exclude_crates_from_config_witness :
  let names :=
    Args.exclude_crates
      (parse_args {[ "exclude_crates" := "Old, Test" ]} Demo2.argv) in
  String.concat "," names = "Old, Test"
  ∧ Forall (λ name, contains "," name = false) names
  ∧ ("Old, Test" = "" → names = []).
Proof.
  apply (exclude_crates_from_config {[ "exclude_crates" := "Old, Test" ]}
           Demo2.argv "Old, Test").
  - reflexivity.
  - reflexivity.
Defined.

(** ** [main]: what it relies on *)

Lemma get_collections_returns conn inc exc m log :
  ∃ cd ids log', get_collections conn inc exc m log = (Ok (cd, ids), log').
Proof.
  rewrite get_collections_run.
  destruct (names_rows conn m) as [rows|]; [|by eexists _, _, _].
  destruct (final_names _ inc exc); [by eexists _, _, _|]. cbv zeta.
  destruct (tracks_rows conn m _) as [trows|]; [|by eexists _, _, _].
  destruct (foldl _ _ trows) as [cd ids]. by eexists _, _, _.
Qed.

Lemma get_track_details_returns conn ids log :
  ∃ td log', get_track_details conn ids log = (Ok td, log').
Proof.
  unfold get_track_details, mbind, db_bind, try_sqlite, execute.
  case_decide; [by eexists _, _|].
  destruct (library_rows conn (elements ids)); [|by eexists _, _].
  destruct (cues_rows conn (elements ids)); by eexists _, _.
Qed.


Section odict_app.
Context {K V : Type} `{EqDecision K}.

Lemma odict_get_app k (d1 d2 : list (K * V)) :
  odict.get k (d1 ++ d2)
  = match odict.get k d1 with
    | Some v => Some v
    | None => odict.get k d2
    end.
Proof.
  induction d1 as [|[k1 v1] d1 IH]; simpl; [done|]. by case_decide.
Qed.

End odict_app.

(** The store that [build_xml] is handed holds the list of every
    collection, under the collection's name. *)
Lemma store_collections_spec cd :
  NoDup (odict.keys cd) →
  heap_ok (store_collections cd).1 (store_collections cd).2
  ∧ ∀ name,
      (λ c, (coll_id c, read_list (tracks c) (store_collections cd).2))
        <$> (store_collections cd).1 !! name
      = (λ c, (coll_id c, tracks c)) <$> odict.get name cd.
Proof.
  unfold store_collections.
  induction cd as [|[name0 c0] cd IH] using rev_ind; intros Hnd.
  - split; [apply map_Forall_empty|]. intros name. simpl.
    by rewrite lookup_empty.
  - unfold odict.keys in *. rewrite fmap_app in Hnd.
    apply NoDup_app in Hnd as (Hnd & Hnew & _).
    destruct (IH Hnd) as [Hok Hget]. clear IH.
    rewrite foldl_app. cbn [foldl].
    destruct (foldl store_collection (∅, ∅) cd) as [cols h].
    cbn [fst snd] in *. unfold store_collection. cbn [fst snd].
    pose proof (new_list_subseteq (tracks c0) h) as Hsub.
    pose proof (read_new_list (tracks c0) h) as Hread.
    destruct (new_list (tracks c0) h) as [r h'] eqn:Hnewlist.
    cbn [fst snd] in *.
    assert (odict.get name0 cd = None) as Hfresh.
    { destruct (odict.get name0 cd) eqn:Hg; [|done].
      destruct (Hnew name0); [|set_solver].
      eapply odict_get_keys, Hg. }
    split.
    + apply map_Forall_insert_2.
      * simpl. unfold new_list in Hnewlist. injection Hnewlist as <- <-.
        rewrite lookup_insert_eq. by eexists.
      * intros name c Hc. destruct (Hok name c Hc) as [l Hl].
        exists l. by eapply lookup_weaken.
    + intros name. rewrite odict_get_app. simpl.
      destruct (decide (name0 = name)) as [->|Hne].
      * rewrite lookup_insert_eq, Hfresh. simpl. by rewrite Hread.
      * rewrite lookup_insert_ne by done. specialize (Hget name).
        destruct (odict.get name cd) as [c1|]; simpl in *;
          rewrite <-Hget; (destruct (cols !! name) as [c|] eqn:Hc; simpl;
                           [|done]);
          (rewrite (read_list_subseteq h h'); [done..|]; by apply (Hok name)).
Qed.

(** A run of [get_collections] returns each name once. *)
Lemma get_collections_NoDup conn inc exc m log cd ids log' :
  get_collections conn inc exc m log = (Ok (cd, ids), log') →
  NoDup (odict.keys cd).
Proof.
  intros [[-> ->]|(rows & cd0 & Hrows & Hcd0 & _ & Hres)]
    %get_collections_members; [constructor|].
  assert (odict.keys cd = odict.keys cd0) as ->.
  { destruct (tracks_rows conn m _) as [trows|].
    - pose proof (add_member_keys (id_to_name cd0) trows (cd0, ∅)) as Hkeys.
      by rewrite <-Hres in Hkeys.
    - by destruct Hres as [-> _]. }
  rewrite Hcd0. apply new_collections_NoDup.
Qed.

(** What [main] did when it exported a tree. *)
Lemma export_Export conn args pm found out doc :
  status_of (export conn args pm found) = Export out doc →
  ∃ cd ids log td,
    found [] = (Ok (cd, ids), log)
    ∧ ids ≠ ∅
    ∧ (get_track_details conn ids log).1 = Ok td
    ∧ queries (export conn args pm found)
      = (get_track_details conn ids log).2
    ∧ (build_xml td (store_collections cd).1 pm (Args.sort_by_bpm args)
         (store_collections cd).2).1 = Ok doc.
Proof.
  unfold export.
  destruct (found []) as [[[cd ids]|e0] log]; [|done].
  case_decide as Hids; [done|].
  destruct (get_track_details_returns conn ids log) as (td & log' & Htd).
  rewrite Htd.
  destruct (store_collections cd) as [cols h] eqn:Hstore.
  destruct (build_xml td cols pm (Args.sort_by_bpm args) h).1 as [doc'|e]
    eqn:Hbuild; simpl; [|done].
  intros [= _ ->]. exists cd, ids, log, td. by rewrite Htd, Hstore.
Qed.


(** ** [main]: exceptions and listings *)


(** The ways through [main]. *)
Lemma main_cases connect config argv :
  let args := parse_args config argv in
  main connect config argv
  = {| stdout := []; queries := []; status_of := Exit 1 |}
  ∨ ∃ path conn,
      Args.mixxx_db_path args = Some path ∧ connect path = Some conn
      ∧ (Args.list_crates args = true
         ∧ main connect config argv
           = list_names conn crates "Available Crates:"
         ∨ Args.list_crates args = false
           ∧ Args.list_playlists args = true
           ∧ main connect config argv
             = list_names conn playlists "Available Playlists:"
         ∨ Args.list_crates args = false
           ∧ Args.list_playlists args = false
           ∧ (target_names config args = Some []
              ∧ main connect config argv
                = {| stdout :=
                       ["Error: No playlists specified via CLI or config."];
                     queries := [];
                     status_of := Exit 1 |}
              ∨ (∃ names,
                   target_names config args = Some names ∧ names ≠ []
                   ∧ main connect config argv
                     = export conn args true
                         (get_collections conn (Some names) None playlists))
              ∨ target_names config args = None
                ∧ main connect config argv
                  = export conn args false
                      (get_collections conn None
                         (Some (Args.exclude_crates args)) crates))).
Proof.
  intros args. unfold main, target_names. fold args.
  destruct (Args.mixxx_db_path args) as [path|]; [|by left].
  destruct (str_truthy path); cbn [negb]; [|by left].
  destruct (connect path) as [conn|] eqn:Hconn; [|by left].
  right. exists path, conn. split; [done|]. split; [done|].
  destruct (Args.list_crates args); [by left|]. right.
  destruct (Args.list_playlists args); [by left|]. right.
  split; [done|]. split; [done|].
  destruct (Args.playlists args) as [[|n ns]|]; [|right; left|by right; right].
  - destruct (default_playlists config) as [|n ns]; [by left|].
    right. left. by eexists.
  - by eexists.
Qed.



(** The keys of the dictionary that [get_collections] returns. *)
Lemma get_collections_keys conn inc exc m log cd ids log' :
  get_collections conn inc exc m log = (Ok (cd, ids), log') →
  ∀ n, n ∈ odict.keys cd
       ↔ ∃ rows, names_rows conn m = Some rows ∧ selected rows inc exc n.
Proof.
  rewrite get_collections_run.
  destruct (names_rows conn m) as [rows|].
  2:{ intros [= <- _ _] n. split; [by intros ?%elem_of_nil|].
      by intros (? & [=] & _). }
  pose proof (final_names_selected rows inc exc) as Hsel.
  destruct (final_names (all_db_items rows) inc exc) as [|n0 ns] eqn:Hfinal.
  { intros [= <- _ _] n. split; [by intros ?%elem_of_nil|].
    intros (? & [= <-] & Hn). apply Hsel in Hn. by apply elem_of_nil in Hn. }
  cbv zeta. intros Hrun n.
  assert (odict.keys cd
          = odict.keys (new_collections (all_db_items rows) (n0 :: ns)))
    as ->.
  { destruct (tracks_rows conn m _) as [trows|].
    - pose proof (add_member_keys
        (id_to_name (new_collections (all_db_items rows) (n0 :: ns)))
        trows (new_collections (all_db_items rows) (n0 :: ns), ∅)) as Hk.
      destruct (foldl _ _ trows) as [cd' ids']. by simplify_eq/=.
    - by simplify_eq/=. }
  rewrite new_collections_keys, Hsel. split; [by eexists|].
  by intros (? & [= <-] & ?).
Qed.

Lemma get_track_details_log conn ids log :
  ∃ qs, (get_track_details conn ids log).2 = log ++ qs.
Proof.
  unfold get_track_details, mbind, db_bind, try_sqlite, execute.
  case_decide; [exists []; by rewrite app_nil_r|].
  destruct (library_rows conn (elements ids)); simpl; [|by eexists].
  destruct (cues_rows conn (elements ids)); simpl;
    rewrite <-app_assoc; by eexists.
Qed.

(** Distinct strings, sorted, are in strictly ascending order. *)
Lemma sorted_strings_ascending {A} (key : A → string) (l : list A) :
  NoDup (key <$> l) →
  StronglySorted (λ a b, String.ltb a b = true)
    (key <$> sorted String.ltb key false l).
Proof.
  intros Hnd.
  assert (NoDup (key <$> sorted String.ltb key false l)) as Hnd'
    by by rewrite sorted_perm.
  assert (StronglySorted (not_after String.ltb key)
            (sorted String.ltb key false l)) as Hs.
  { apply (sorted_ascending String.ltb key (λ _, True)).
    - intros a b _ _. apply string_ltb_asym.
    - intros a b c _ _ _. apply string_ltb_neg_trans.
    - by apply Forall_true. }
  clear Hnd. induction Hs as [|x l' Hs IH Hx]; simpl; [constructor|].
  apply NoDup_cons in Hnd' as [Hx' Hnd']. constructor; [by apply IH|].
  rewrite Forall_fmap. rewrite Forall_forall in Hx |- *.
  intros y Hy. specialize (Hx y Hy). unfold not_after in Hx. simpl.
  apply string_ltb_total; [|done].
  intros Heq. apply Hx'. rewrite Heq. by apply list_elem_of_fmap_2.
Qed.

(** X17.  With [--list-crates], or with [--list-playlists] and no
    [--list-crates], the names query is the first query of [main],
    whatever else the command line holds.  When it fails, [main] prints
    the header alone and exits with status 0.  When it answers rows whose
    names are strings, [main] prints the header and then each name once,
    in strictly ascending order, and exits with status 0. *)
Theorem listing_output connect config argv path conn m header :
  Args.mixxx_db_path (parse_args config argv) = Some path →
  path ≠ "" →
  connect path = Some conn →
  given_list_crates argv = true ∧ m = crates
    ∧ header = "Available Crates:"
  ∨ given_list_crates argv = false ∧ given_list_playlists argv = true
    ∧ m = playlists ∧ header = "Available Playlists:" →
  head (queries (main connect config argv)) = Some (SelectNames m)
  ∧ (names_rows conn m = None →
     stdout (main connect config argv) = [header]
     ∧ status_of (main connect config argv) = Exit 0)
  ∧ ∀ rows,
      names_rows conn m = Some rows →
      ∃ names,
        stdout (main connect config argv)
        = header :: ((λ n, " - " +:+ n) <$> names)
        ∧ status_of (main connect config argv) = Exit 0
        ∧ StronglySorted (λ a b, String.ltb a b = true) names
        ∧ ∀ n, n ∈ names ↔ n ∈ rows.*2.
Proof.
  intros Hpath Hne%str_truthy_ne Hconn Hflags.
  assert (main connect config argv = list_names conn m header) as ->.
  { unfold main. rewrite Hpath, Hne, Hconn. cbn [negb].
    unfold parse_args. cbn [Args.list_crates Args.list_playlists].
    by destruct Hflags as [(-> & -> & ->)|(-> & -> & -> & ->)]. }
  clear Hflags. unfold list_names.
  destruct (get_collections conn None None m []) as [[[cd ids]|e] log]
    eqn:Hrun.
  2:{ destruct (get_collections_returns conn None None m [])
        as (? & ? & ? & ?). congruence. }
  pose proof (get_collections_NoDup _ _ _ _ _ _ _ _ Hrun) as Hnd.
  pose proof (get_collections_keys _ _ _ _ _ _ _ _ Hrun) as Hkeys.
  split; [|split].
  - simpl. rewrite get_collections_run in Hrun.
    destruct (names_rows conn m); [|by simplify_eq].
    destruct (final_names _ None None); [by simplify_eq|].
    by simplify_eq/=.
  - intros Hnone. split; [|done]. simpl. f_equal.
    rewrite get_collections_run, Hnone in Hrun. by simplify_eq.
  - intros rows Hrows.
    eexists. split; [done|]. split; [done|]. split.
    + rewrite <-(list_fmap_id (sorted String.ltb (λ n : string, n) false _)).
      apply sorted_strings_ascending. by rewrite list_fmap_id.
    + intros n. rewrite sorted_perm, Hkeys. unfold selected.
      rewrite Hrows.
      split; [by intros (? & [= <-] & ? & _)|]. intros Hn. by exists rows.
Qed.

Lemma listing_output_witness :
  ∃ names,
    stdout (main Demo2.connect ∅ Demo2.argv_list)
    = "Available Crates:" :: ((λ n, " - " +:+ n) <$> names)
    ∧ status_of (main Demo2.connect ∅ Demo2.argv_list) = Exit 0
    ∧ StronglySorted (λ a b, String.ltb a b = true) names
    ∧ ∀ n, n ∈ names ↔ n ∈ [(1, "Techno"); (2, "House")]%Z.*2.
Proof.
  refine (proj2 (proj2 (listing_output Demo2.connect ∅ Demo2.argv_list
                          "mixxx.sqlite" Demo2.conn_cues crates
                          "Available Crates:" _ _ _ _))
            [(1, "Techno"); (2, "House")]%Z _).
  - reflexivity.
  - discriminate.
  - reflexivity.
  - left. split; [reflexivity|]. split; reflexivity.
  - reflexivity.
Defined.

(** ** [main]: the export *)

(** The run of [main] that exported a tree: the collections, the metadata,
    and the store that [build_xml] was handed. *)
Lemma main_Export connect config argv out doc :
  status_of (main connect config argv) = Export out doc →
  ∃ path conn pm inc exc m cd ids log td h',
    Args.mixxx_db_path (parse_args config argv) = Some path
    ∧ connect path = Some conn
    ∧ (pm = true ∧ is_Some (given_playlists argv) ∧ is_Some inc
       ∧ exc = None ∧ m = playlists
       ∨ pm = false ∧ given_playlists argv = None ∧ inc = None
         ∧ exc = Some (Args.exclude_crates (parse_args config argv))
         ∧ m = crates)
    ∧ get_collections conn inc exc m [] = (Ok (cd, ids), log)
    ∧ ids ≠ ∅
    ∧ (∃ qs, queries (main connect config argv) = log ++ qs)
    ∧ build_xml td (store_collections cd).1 pm
        (Args.sort_by_bpm (parse_args config argv))
        (store_collections cd).2 = (Ok doc, h').
Proof.
  intros Hst. set (args := parse_args config argv).
  destruct (main_cases connect config argv)
    as [Hm|(path & conn & Hpath & Hconn & Hm)].
  { by rewrite Hm in Hst. }
  fold args in Hpath, Hm.
  assert (∀ pm inc exc m,
            main connect config argv
            = export conn args pm (get_collections conn inc exc m) →
            ∃ cd ids log td h',
              get_collections conn inc exc m [] = (Ok (cd, ids), log)
              ∧ ids ≠ ∅
              ∧ (∃ qs, queries (main connect config argv) = log ++ qs)
              ∧ build_xml td (store_collections cd).1 pm
                  (Args.sort_by_bpm args) (store_collections cd).2
                = (Ok doc, h')) as Hexport.
  { intros pm inc exc m Hmain. rewrite Hmain in Hst |- *.
    apply export_Export in Hst
      as (cd & ids & log & td & Hrun & Hids & _ & Hq & Hbuild).
    destruct (build_xml td _ pm _ _) as [r h'] eqn:Hb. simpl in Hbuild.
    subst r. exists cd, ids, log, td, h'. rewrite Hq.
    repeat split; try done. apply get_track_details_log. }
  destruct Hm as [[_ Hm]|[(_ & _ & Hm)|(_ & _ & Hm)]].
  - rewrite Hm in Hst. unfold list_names in Hst.
    by destruct (get_collections conn None None crates [])
      as [[[? ?]|?] ?].
  - rewrite Hm in Hst. unfold list_names in Hst.
    by destruct (get_collections conn None None playlists [])
      as [[[? ?]|?] ?].
  - unfold target_names in Hm.
    change (Args.playlists args) with (given_playlists argv) in Hm.
    destruct Hm as [[_ Hm]|[(names & Ht & _ & Hm)|[Ht Hm]]].
    + by rewrite Hm in Hst.
    + destruct (Hexport _ _ _ _ Hm) as (cd & ids & log & td & h' & ?).
      exists path, conn, true, (Some names), None, playlists,
        cd, ids, log, td, h'.
      split; [done|]. split; [done|]. split; [|done]. left.
      split; [done|].
      split; [destruct (given_playlists argv) as [[|]|];
              [by eexists..|done]|].
      split; [by eexists|done].
    + destruct (Hexport _ _ _ _ Hm) as (cd & ids & log & td & h' & ?).
      exists path, conn, false, None, (Some (Args.exclude_crates args)),
        crates, cd, ids, log, td, h'.
      split; [done|]. split; [done|]. split; [|done]. right.
      split; [done|].
      split; [by destruct (given_playlists argv) as [[|]|]|done].
Qed.

(** The node of a collection in the tree that [main] exports. *)
Lemma stored_node td cd pm so doc h' node :
  NoDup (odict.keys cd) →
  build_xml td (store_collections cd).1 pm so (store_collections cd).2
  = (Ok doc, h') →
  ∃ root,
    find "PLAYLISTS" doc ≫= find "NODE" = Some root
    ∧ (∀ name, name ∈ node_names root ↔ name ∈ odict.keys cd)
    ∧ (node ∈ children_of root →
       ∃ name c,
         odict.get name cd = Some c
         ∧ node = node_of td pm so name (tracks c)).
Proof.
  intros Hnd Hbuild.
  destruct (store_collections_spec cd Hnd) as [Hok Hget].
  destruct (build_xml_node_names _ _ _ _ _ _ _ Hbuild Hok)
    as (root & Hroot & _ & Hch & Hnames).
  exists root. split; [done|]. split.
  - intros name. rewrite Hnames, sorted_items_str_keys.
    rewrite <-odict_get_is_Some.
    by rewrite <-(fmap_is_Some
                    (λ c, (coll_id c,
                           read_list (tracks c) (store_collections cd).2))),
      Hget, fmap_is_Some.
  - rewrite Hch. intros ([name c'] & -> & Hin)%list_elem_of_fmap.
    apply sorted_items_str_elem in Hin. specialize (Hget name).
    rewrite Hin in Hget. simpl in *.
    destruct (odict.get name cd) as [c|] eqn:Hc; simplify_eq/=.
    exists name, c. split; [done|]. by f_equal.
Qed.



(** X19.  In crate mode the playlist [NODE]s of the tree that [main]
    exports are those of the crates of the database that are not excluded:
    each of them has a [NODE], and no other name has one. *)
Theorem exported_crates connect config argv out doc path conn nrows :
  status_of (main connect config argv) = Export out doc →
  given_playlists argv = None →
  Args.mixxx_db_path (parse_args config argv) = Some path →
  connect path = Some conn →
  names_rows conn crates = Some nrows →
  ∃ root,
    find "PLAYLISTS" doc ≫= find "NODE" = Some root
    ∧ ∀ name,
        name ∈ node_names root
        ↔ name ∈ nrows.*2
          ∧ name ∉ Args.exclude_crates (parse_args config argv).
Proof.
  intros Hst Hp Hpath Hconn Hrows.
  destruct (main_Export _ _ _ _ _ Hst)
    as (path' & conn' & pm & inc & exc & m & cd & ids & log & td & h'
        & Hpath' & Hconn' & Hmode & Hrun & Hids & _ & Hbuild).
  rewrite Hpath in Hpath'. injection Hpath' as <-.
  rewrite Hconn in Hconn'. injection Hconn' as <-.
  destruct Hmode as [(_ & Hsome & _)|(-> & _ & -> & -> & ->)];
    [rewrite Hp in Hsome; by destruct Hsome|].
  pose proof (get_collections_NoDup _ _ _ _ _ _ _ _ Hrun) as Hkeys.
  destruct (stored_node td cd false
              (Args.sort_by_bpm (parse_args config argv))
              doc h' (Element "" [] []) Hkeys Hbuild)
    as (root & Hroot & Hnames & _).
  exists root. split; [done|]. intros name.
  rewrite Hnames, (get_collections_keys _ _ _ _ _ _ _ _ Hrun).
  unfold selected. split.
  - intros (rows & Hrows' & Hin & Hex).
    rewrite Hrows in Hrows'. injection Hrows' as <-. split; [done|].
    destruct (Args.exclude_crates _); [set_solver|done].
  - intros [Hin Hex]. exists nrows. split; [done|]. split; [done|].
    by destruct (Args.exclude_crates _).
Qed.

Lemma exported_crates_witness :
  let o := main Demo2.connect ∅ Demo2.argv_exclude in
  ∃ root,
    find "PLAYLISTS" (exported o) ≫= find "NODE" = Some root
    ∧ ∀ name,
        name ∈ node_names root
        ↔ name ∈ [(1, "Techno"); (2, "House")]%Z.*2
          ∧ name ∉ Args.exclude_crates (parse_args ∅ Demo2.argv_exclude).
Proof.
  apply (exported_crates Demo2.connect ∅ Demo2.argv_exclude
           "rekordbox.xml" _ "mixxx.sqlite" Demo2.conn_cues
           [(1, "Techno"); (2, "House")]%Z).
  - vm_compute. reflexivity.
  - reflexivity.
  - reflexivity.
  - reflexivity.
  - reflexivity.
Defined.

(** X20.  When the names queries fail, or the membership queries fail, an
    export prints "No tracks found." and returns as if the collections
    were empty: no metadata is asked for and nothing is exported. *)
Theorem failed_queries_pass_for_no_tracks connect config argv path conn :
  Args.mixxx_db_path (parse_args config argv) = Some path →
  path ≠ "" →
  connect path = Some conn →
  given_list_crates argv = false →
  given_list_playlists argv = false →
  target_names config (parse_args config argv) ≠ Some [] →
  (∀ m, names_rows conn m = None)
  ∨ (∀ m item_ids, tracks_rows conn m item_ids = None) →
  stdout (main connect config argv) = ["No tracks found."]
  ∧ status_of (main connect config argv) = Return
  ∧ Forall collection_query (queries (main connect config argv)).
Proof.
  intros Hpath Hne%str_truthy_ne Hconn Hlc Hlp Htarget Hfail.
  assert (∀ inc exc m,
            ∃ cd log,
              get_collections conn inc exc m [] = (Ok (cd, ∅), log)
              ∧ Forall collection_query log) as Hrun.
  { intros inc exc m. rewrite get_collections_run.
    destruct Hfail as [Hfail|Hfail].
    - rewrite Hfail. eexists _, _. split; [done|].
      repeat constructor. exists m. by left.
    - destruct (names_rows conn m) as [rows|].
      + destruct (final_names _ inc exc).
        * eexists _, _. split; [done|]. repeat constructor.
          exists m. by left.
        * cbv zeta. rewrite Hfail. eexists _, _. split; [done|].
          repeat constructor; exists m; [by left|right; by eexists].
      + eexists _, _. split; [done|]. repeat constructor.
        exists m. by left. }
  assert (∀ pm inc exc m,
            let o := export conn (parse_args config argv) pm
                       (get_collections conn inc exc m) in
            stdout o = ["No tracks found."]
            ∧ status_of o = Return
            ∧ Forall collection_query (queries o)) as Hexport.
  { intros pm inc exc m. unfold export.
    destruct (Hrun inc exc m) as (cd & log & -> & Hlog).
    by rewrite decide_True. }
  unfold main. rewrite Hpath, Hne, Hconn. cbn [negb].
  change (Args.list_crates (parse_args config argv))
    with (given_list_crates argv).
  change (Args.list_playlists (parse_args config argv))
    with (given_list_playlists argv).
  rewrite Hlc, Hlp. unfold target_names in Htarget.
  destruct (Args.playlists (parse_args config argv)) as [[|n ns]|].
  - destruct (default_playlists config); [done|]. apply Hexport.
  - apply Hexport.
  - apply Hexport.
Qed.

Lemma failed_queries_pass_for_no_tracks_witness :
  let connect := λ _ : string, Some Demo2.conn_no_tracks in
  stdout (main connect ∅ Demo2.argv) = ["No tracks found."]
  ∧ status_of (main connect ∅ Demo2.argv) = Return
  ∧ Forall collection_query (queries (main connect ∅ Demo2.argv)).
Proof.
  apply (failed_queries_pass_for_no_tracks
           (λ _, Some Demo2.conn_no_tracks) ∅ Demo2.argv "mixxx.sqlite"
           Demo2.conn_no_tracks).
  - reflexivity.
  - discriminate.
  - reflexivity.
  - reflexivity.
  - reflexivity.
  - discriminate.
  - right. reflexivity.
Defined.
